(** * Verification of the context-orchestration core of the RAG agent server

    Shallow embedding of
    - the generator [streamChunksFromFile] and [StreamingRAGService.search]
      (src/services/rag-streaming.ts),
    - the class [MemoryService] (found in src/services/gemini.ts, after the
      class [GeminiService]),
    - [PluginManager.detectAndExecutePlugins]
      (src/services/plugin-manager.ts) and the interface [Plugin],
    - the class [MathPlugin] (src/services/plugins/math.ts; the variant that
      implements [Plugin] is found in src/services/memory-vector-store.ts),
    - the class [WeatherPlugin] that implements [Plugin]
      (unnamed/part_011),
    - the class [AgentService] (unnamed/part_007),
    - [StreamingRAGService.processAndIndexDocuments]
      (src/services/rag-streaming.ts),
    - [WeaviateService.search] and [DocumentProcessor.splitIntoChunks]
      (src/services/weaviate.ts),
    - [GeminiService.initialize] and [GeminiService.generateCompletion]
      (src/services/gemini.ts).

    Conventions.  JavaScript counts (window size, batch size, array
    indices) are natural numbers; the configured maximum number of retained
    messages is a JavaScript number ([Num]), since the configuration does
    not validate it; wall-clock
    instants are integers (milliseconds since the epoch), also where the
    code stores a [Date] or its ISO rendering; scores and other
    non-integral numbers are rationals.  Strings are sequences of 8-bit
    characters, except in the chunker, which is parametric in the character
    type.  A call that may throw returns a sum whose right summand is the
    thrown value.  Everything the code obtains from its environment (clock,
    identifiers, random numbers, network replies) is an explicit argument. *)

From Stdlib Require Import List Arith Lia ZArith QArith Qround String Ascii Bool.
From Stdlib Require Import DecimalString Sorted Lqa.
From stdpp Require Import gmap strings list fin_maps.

#[local] Open Scope nat_scope.

(* ===================================================================== *)
(** * 1. Streaming chunker (src/services/rag-streaming.ts, lines 27-81)   *)
(* ===================================================================== *)

Module Chunker.

(** [DocumentChunk]; the three fields of [metadata] are inlined.
    [processedAt] is the instant that [toISOString] renders. *)
Record DocumentChunk {Char : Type} := mkChunk {
  id : string;
  content : list Char;
  source : string;
  fileName : string;
  chunkIndex : nat;
  processedAt : Z
}.
Arguments DocumentChunk : clear implicits.
Arguments mkChunk {Char} _ _ _ _ _ _.

Section WithChar.
(** The development is parametric in the character type.  [isWhiteSpace]
    is the class matched by the regular expression [\s]; it is the same
    class that [String.prototype.trim] strips (WhiteSpace and
    LineTerminator).  [space] is the separator [' '] passed to [join]. *)
Context {Char : Type}.
Variable isWhiteSpace : Char -> bool.
Variable space : Char.

(** The environment of the generator: [uuidv4 n] and [clock n] are the
    identifier returned by [uuidv4()] and the instant read by [new Date()]
    when the chunk with index [n] is built. *)
Variable uuidv4 : nat -> string.
Variable clock : nat -> Z.

(** [content.split(/\s+/)]: the pieces between maximal whitespace runs.
    A leading (trailing) run yields an empty first (last) piece; the empty
    text yields one empty piece.  [in_sep] records that the previous
    character belonged to the separator being skipped. *)
Fixpoint split_from (in_sep : bool) (s : list Char) : list (list Char) :=
  match s with
  | [] => [[]]
  | c :: s' =>
      if isWhiteSpace c then
        if in_sep then split_from true s' else [] :: split_from true s'
      else
        match split_from false s' with
        | w :: ws => (c :: w) :: ws
        | [] => [[c]]
        end
  end.

Definition split_ws (s : list Char) : list (list Char) := split_from false s.

(** [words.join(' ')] *)
Fixpoint join (l : list (list Char)) : list Char :=
  match l with
  | [] => []
  | w :: l' =>
      match l' with
      | [] => w
      | _ :: _ => w ++ space :: join l'
      end
  end.

Fixpoint trimStart (s : list Char) : list Char :=
  match s with
  | [] => []
  | c :: s' => if isWhiteSpace c then trimStart s' else s
  end.

(** [s.trim()] *)
Definition trim (s : list Char) : list Char :=
  rev (trimStart (rev (trimStart s))).

(** [a.slice(from, to)] for non-negative indices. *)
Definition slice {A} (a : list A) (from to : nat) : list A :=
  firstn (to - from) (skipn from a).

(** Truthiness of a string: non-empty. *)
Definition truthy (s : list Char) : bool :=
  match s with [] => false | _ :: _ => true end.

(** The [while] loop of [streamChunksFromFile].  The state is
    [startIndex], [batch] and [chunkIndex]; the result is the list of the
    batches yielded, in order.  [fuel] bounds the number of iterations;
    [None] means the bound was reached. *)
Fixpoint stream_loop (fuel : nat) (words : list (list Char)) (file : string)
    (chunkSize batchSize : nat)
    (startIndex : nat) (batch : list (DocumentChunk Char)) (chunkIdx : nat)
    : option (list (list (DocumentChunk Char))) :=
  if startIndex <? length words then
    match fuel with
    | O => None
    | S fuel' =>
        let endIndex := Nat.min (startIndex + chunkSize) (length words) in
        let chunkContent := trim (join (slice words startIndex endIndex)) in
        let '(batch1, chunkIdx1) :=
          if truthy chunkContent
          then (batch ++ [mkChunk (uuidv4 chunkIdx) chunkContent file file
                            chunkIdx (clock chunkIdx)],
                S chunkIdx)
          else (batch, chunkIdx) in
        if length batch1 =? batchSize then
          option_map (cons batch1)
            (stream_loop fuel' words file chunkSize batchSize
               (startIndex + chunkSize) [] chunkIdx1)
        else
          stream_loop fuel' words file chunkSize batchSize
            (startIndex + chunkSize) batch1 chunkIdx1
    end
  else
    Some (if 0 <? length batch then [batch] else []).

Definition streamChunksFromFile (fuel : nat) (text : list Char) (file : string)
    (chunkSize batchSize : nat) : option (list (list (DocumentChunk Char))) :=
  stream_loop fuel (split_ws text) file chunkSize batchSize 0 [] 0.

(** The whitespace-delimited tokens of a text: its maximal runs of
    non-whitespace characters, in order.  This definition does not go
    through [split_ws]. *)
Fixpoint tokens (s : list Char) : list (list Char) :=
  match s with
  | [] => []
  | c :: s' =>
      if isWhiteSpace c then tokens s'
      else
        match s' with
        | [] => [[c]]
        | c' :: _ =>
            if isWhiteSpace c' then [c] :: tokens s'
            else
              match tokens s' with
              | w :: ws => (c :: w) :: ws
              | [] => [[c]]
              end
        end
  end.

(** ** Reference functions used to describe the generator's output *)

(** Consecutive windows of [w] elements of [l] (the last one may be
    shorter).  [fuel] bounds the number of windows. *)
Fixpoint windows {A} (fuel w : nat) (l : list A) : list (list A) :=
  match fuel with
  | O => []
  | S fuel' =>
      match l with
      | [] => []
      | _ :: _ => firstn w l :: windows fuel' w (skipn w l)
      end
  end.

(** The non-empty chunk texts obtained from the windows of [words]. *)
Definition pieces (fuel w : nat) (words : list (list Char)) : list (list Char) :=
  List.filter truthy (map (fun win => trim (join win)) (windows fuel w words)).

(** Chunk records for the texts [cs], numbered from [idx]. *)
Fixpoint number (file : string) (idx : nat) (cs : list (list Char))
    : list (DocumentChunk Char) :=
  match cs with
  | [] => []
  | c :: cs' =>
      mkChunk (uuidv4 idx) c file file idx (clock idx) :: number file (S idx) cs'
  end.

(** Batches of [b] elements cut from [batch ++ cs], where [batch] is the
    batch under construction. *)
Fixpoint group {A} (b : nat) (batch cs : list A) : list (list A) :=
  match cs with
  | [] => if 0 <? length batch then [batch] else []
  | c :: cs' =>
      if length (batch ++ [c]) =? b
      then (batch ++ [c]) :: group b [] cs'
      else group b (batch ++ [c]) cs'
  end.

(** A word without whitespace characters. *)
Definition wsfree (w : list Char) : Prop :=
  Forall (fun c => isWhiteSpace c = false) w.

(** Every word is whitespace-free and every word but the last is
    non-empty. *)
Fixpoint tail_ok (l : list (list Char)) : Prop :=
  match l with
  | [] => True
  | w :: l' => wsfree w /\ (w <> [] \/ l' = []) /\ tail_ok l'
  end.

(** As [tail_ok], except that the first word may be empty too: the shape of
    the result of [split_ws]. *)
Definition shape (l : list (list Char)) : Prop :=
  match l with
  | [] => True
  | w :: l' => wsfree w /\ tail_ok l'
  end.

(** A string made of whitespace characters only. *)
Definition allws (p : list Char) : Prop :=
  Forall (fun c => isWhiteSpace c = true) p.

(** A string that is empty or both begins and ends with a non-whitespace
    character. *)
Definition ends_ok (m : list Char) : Prop :=
  m = [] \/
  ((exists c m', m = c :: m' /\ isWhiteSpace c = false) /\
   (exists m' c, m = m' ++ [c] /\ isWhiteSpace c = false)).

(** A proper token: non-empty and whitespace-free. *)
Definition token (w : list Char) : Prop := wsfree w /\ w <> [].

Definition nonnil {A} (l : list A) : bool :=
  match l with [] => false | _ :: _ => true end.

(** The token groups behind the chunks: the non-empty words of each window,
    windows without any being dropped. *)
Definition parts (fuel w : nat) (words : list (list Char)) : list (list (list Char)) :=
  List.filter nonnil (map (List.filter truthy) (windows fuel w words)).

(** The text does not begin with a whitespace character. *)
Definition no_leading_ws (s : list Char) : Prop :=
  match s with
  | [] => True
  | c :: _ => isWhiteSpace c = false
  end.

End WithChar.

(** [ceil(n / d)] on natural numbers. *)
Definition ceil_div (n d : nat) : nat := (n + d - 1) / d.

End Chunker.

(* ===================================================================== *)
(** * 2. Strings and values shared by the services                        *)
(* ===================================================================== *)

(** The class [\s] on 8-bit characters: tab, line feed, vertical tab, form
    feed, carriage return and space. *)
Definition ascii_ws (c : ascii) : bool :=
  let n := nat_of_ascii c in
  (n =? 9) || (n =? 10) || (n =? 11) || (n =? 12) || (n =? 13) || (n =? 32).

Definition chars (s : string) : list ascii := list_ascii_of_string s.

(** Truthiness of a string: non-empty. *)
Definition truthy_chars (s : list ascii) : bool :=
  match s with [] => false | _ :: _ => true end.

(** Longest prefix of [s] whose characters satisfy [f], and the rest: what a
    greedy quantifier over a character class consumes. *)
Fixpoint span (f : ascii -> bool) (s : list ascii) : list ascii * list ascii :=
  match s with
  | [] => ([], [])
  | c :: s' =>
      if f c then let '(a, b) := span f s' in (c :: a, b) else ([], s)
  end.

(** A thrown value: an [Error] object with its [message], or anything
    else. *)
Inductive JsThrown :=
  | JsError (message : string)
  | JsOther.

(** The value a promise resolves to, as far as it is observed here:
    [undefined] or a number. *)
Inductive JsValue :=
  | JsUndefined
  | JsNumber (n : Z).

(** Decimal rendering of a count, as in a template literal. *)
Definition show_nat (n : nat) : string :=
  NilEmpty.string_of_uint (Nat.to_uint n).

(** Decimal rendering of an integer. *)
Definition show_int (z : Z) : string :=
  NilZero.string_of_int (Z.to_int z).

(** The chunker on 8-bit characters, in an environment that hands out the
    identifiers "0", "1", ... and the instants 0, 1, ... *)
Definition stream_ascii (fuel : nat) (text file : string) (w b : nat) :=
  Chunker.streamChunksFromFile ascii_ws " "%char show_nat Z.of_nat fuel
    (chars text) file w b.

(** [a.slice(-n)] for a count [n]: the last [n] elements; [a.slice(-0)] is
    [a.slice(0)], the whole array. *)
Definition slice_last {A} (a : list A) (n : nat) : list A :=
  match n with
  | O => a
  | S _ => skipn (length a - n) a
  end.

(** A JavaScript number as far as comparisons and array indices
    distinguish them: a finite value (every binary64 value is a rational),
    an infinity, or NaN.  It is the type of a configuration value produced
    by [Number(text)], which is not validated any further. *)
Inductive Num :=
  | Finite (q : Q)
  | PosInfinity
  | NegInfinity
  | NotANumber.

(** A count used as a number. *)
Definition num_of_nat (n : nat) : Num := Finite (inject_Z (Z.of_nat n)).
Coercion num_of_nat : nat >-> Num.

(** [n > x] for an array length [n]: false when [x] is NaN. *)
Definition length_gt (n : nat) (x : Num) : bool :=
  match x with
  | Finite q => negb (Qle_bool (inject_Z (Z.of_nat n)) q)
  | PosInfinity => false
  | NegInfinity => true
  | NotANumber => false
  end.

(** Truncation toward zero (the integer part taken by [slice] of a finite
    relative index). *)
Definition truncate (q : Q) : Z := Z.quot (Qnum q) (Zpos (Qden q)).

(** [a.slice(-x)]: the relative start is the integer part of [-x] (0 for
    NaN); a negative start counts from the end, a start beyond the length
    gives the empty array. *)
Definition slice_neg {A} (a : list A) (x : Num) : list A :=
  match x with
  | NotANumber => a
  | PosInfinity => a
  | NegInfinity => []
  | Finite q =>
      let relativeStart := truncate (- q) in
      if (relativeStart <? 0)%Z
      then skipn (Z.to_nat (Z.max (Z.of_nat (length a) + relativeStart) 0)) a
      else skipn (Z.to_nat (Z.min relativeStart (Z.of_nat (length a)))) a
  end.

(** The last [n] elements of [l]. *)
Definition lastn {A} (n : nat) (l : list A) : list A :=
  skipn (length l - n) l.

Fixpoint join_lines (l : list string) : string :=
  match l with
  | [] => EmptyString
  | x :: l' =>
      match l' with
      | [] => x
      | _ :: _ => (x ++ String "010"%char (join_lines l'))%string
      end
  end.

(* ===================================================================== *)
(** * 3. Session memory: class MemoryService                              *)
(**      (src/services/gemini.ts, lines 207-340)                          *)
(* ===================================================================== *)

Module Memory.

Inductive Role := user | assistant.

Record MemoryMessage := mkMessage {
  id : string;
  role : Role;
  content : string;
  timestamp : Z
}.

Record SessionMemory := mkSession {
  sessionId : string;
  messages : list MemoryMessage;
  createdAt : Z;
  lastAccessed : Z;
  maxMessages : Num
}.

Record MemorySummary := mkSummary {
  lastMessages : list MemoryMessage;
  totalMessages : nat;
  sessionAge : Z
}.

(** The private field [sessions : Map<string, SessionMemory>]. *)
Abbreviation Sessions := (gmap string SessionMemory).

(** What one [addMessage] call reads from its environment: the result of
    [uuidv4()] and the instants returned by [new Date()] for the message's
    [timestamp], for [createdAt] of a session created by the call, and for
    the final assignment to [lastAccessed].  (The [lastAccessed] written
    when the session object is created is overwritten by that assignment
    before the call ends.) *)
Record AddReads := mkReads {
  read_uuid : string;
  read_timestamp : Z;
  read_createdAt : Z;
  read_lastAccessed : Z
}.

(** [addMessage(sessionId, role, content)].  [cfgMax] is
    [config.memory.maxMessages], the number read from the environment
    variable MAX_MEMORY_MESSAGES. *)
Definition addMessage (cfgMax : Num) (env : AddReads)
    (sessions : Sessions) (sid : string) (r : Role) (c : string) : Sessions :=
  let message := mkMessage (read_uuid env) r c (read_timestamp env) in
  let session :=
    match sessions !! sid with
    | Some s => s
    | None =>
        mkSession sid [] (read_createdAt env) (read_lastAccessed env) cfgMax
    end in
  let pushed := messages session ++ [message] in
  let kept :=
    if length_gt (length pushed) (maxMessages session)
    then slice_neg pushed (maxMessages session)
    else pushed in
  <[sid := mkSession (sessionId session) kept (createdAt session)
             (read_lastAccessed env) (maxMessages session)]> sessions.

(** [session.lastAccessed = new Date()] *)
Definition touch (now : Z) (s : SessionMemory) : SessionMemory :=
  mkSession (sessionId s) (messages s) (createdAt s) now (maxMessages s).

(** [getMemory(sessionId)]: the map after the call and the session found
    ([None] for [null]). *)
Definition getMemory (now : Z) (sessions : Sessions) (sid : string)
    : Sessions * option SessionMemory :=
  match sessions !! sid with
  | Some s => (<[sid := touch now s]> sessions, Some (touch now s))
  | None => (sessions, None)
  end.

(** [getSummary(sessionId, messageCount)].  [touched] is the instant read by
    [getMemory], [now] the value of [Date.now()]. *)
Definition getSummary (touched now : Z) (sessions : Sessions) (sid : string)
    (messageCount : nat) : Sessions * MemorySummary :=
  let '(sessions1, session) := getMemory touched sessions sid in
  match session with
  | None => (sessions1, mkSummary [] 0 0%Z)
  | Some s =>
      (sessions1,
       mkSummary (slice_last (messages s) messageCount)
                 (length (messages s))
                 ((now - createdAt s) / (1000 * 60))%Z)
  end.

Definition show_role (r : Role) : string :=
  match r with user => "user" | assistant => "assistant" end.

(** [getFormattedSummary(sessionId, messageCount)] *)
Definition getFormattedSummary (touched now : Z) (sessions : Sessions)
    (sid : string) (messageCount : nat) : Sessions * string :=
  let '(sessions1, summary) :=
    getSummary touched now sessions sid messageCount in
  if length (lastMessages summary) =? 0
  then (sessions1, "No previous conversation history."%string)
  else
    (sessions1,
     ("Previous conversation (last "
        ++ show_nat (length (lastMessages summary)) ++ " messages):"
        ++ String "010"%char
             (join_lines
                (map (fun m => show_role (role m) ++ ": " ++ content m)
                     (lastMessages summary))))%string).

(** [clearMemory(sessionId)] *)
Definition clearMemory (sessions : Sessions) (sid : string) : Sessions :=
  delete sid sessions.

Record CleanupOutcome := mkCleanup {
  cleaned : Sessions;          (* the map after the call *)
  returned : JsValue;          (* the value the promise resolves to *)
  logged : option nat          (* the count printed by console.log, if any *)
}.

(** [cleanupOldSessions(maxAgeMinutes)]: collect the stale keys, delete
    them, log their number when positive.  The method is declared
    [Promise<void>] and has no [return] statement. *)
Definition cleanupOldSessions (now : Z) (sessions : Sessions)
    (maxAgeMinutes : Z) : CleanupOutcome :=
  let cutoff := (now - maxAgeMinutes * 60 * 1000)%Z in
  let sessionsToDelete :=
    (filter (fun kv : string * SessionMemory => (lastAccessed kv.2 < cutoff)%Z)
       (map_to_list sessions)).*1 in
  let sessions1 := foldl (fun m k => delete k m) sessions sessionsToDelete in
  mkCleanup sessions1 JsUndefined
    (if 0 <? length sessionsToDelete then Some (length sessionsToDelete)
     else None).

(** [getStats()] *)
Definition getStats (sessions : Sessions) : nat * nat :=
  (size sessions,
   map_fold (fun _ s acc => acc + length (messages s)) 0 sessions).

(** One [addMessage] call together with what it reads from the
    environment. *)
Record AddCall := mkCall {
  call_sid : string;
  call_role : Role;
  call_content : string;
  call_reads : AddReads
}.

Definition message_of (c : AddCall) : MemoryMessage :=
  mkMessage (read_uuid (call_reads c)) (call_role c) (call_content c)
    (read_timestamp (call_reads c)).

(** A sequence of [addMessage] calls on a service created with an empty
    map. *)
Definition run_calls (cfgMax : Num) (calls : list AddCall) : Sessions :=
  foldl (fun st c =>
           addMessage cfgMax (call_reads c) st
             (call_sid c) (call_role c) (call_content c))
        ∅ calls.

(** The bound that [addMessage] applies to session [sid]: that of the
    stored session, or the configured one when the call creates the
    session. *)
Definition session_bound (cfgMax : Num) (sessions : Sessions) (sid : string)
    : Num :=
  match sessions !! sid with
  | Some s => maxMessages s
  | None => cfgMax
  end.

(** The bounds under which the message just pushed survives the
    truncation: NaN, plus infinity and the finite numbers above -1. *)
Definition keeps_newest (x : Num) : Prop :=
  match x with
  | Finite q => (-1 < q)%Q
  | NegInfinity => False
  | PosInfinity | NotANumber => True
  end.

(** The calls addressed to session [sid], in order. *)
Definition calls_on (sid : string) (calls : list AddCall) : list AddCall :=
  List.filter (fun c => String.eqb (call_sid c) sid) calls.

End Memory.

(* ===================================================================== *)
(** * 4. Plugins (src/services/plugin-manager.ts)                         *)
(* ===================================================================== *)

Module Plugins.

(** [MathResult] of the math plugin.  [timestamp] is the instant rendered by
    [toISOString]. *)
Record MathResult := mkMathResult {
  expression : string;
  result : Q;
  math_timestamp : Z
}.

(** [WeatherData] of the weather plugin. *)
Record WeatherData := mkWeatherData {
  temperature : Z;
  condition : string;
  location : string;
  weather_timestamp : Z;
  humidity : option Q;
  windSpeed : option Q
}.

(** The payload [data?: any] of a plugin result. *)
Inductive PluginData :=
  | MathData (m : MathResult)
  | WeatherDataOf (w : WeatherData)
  | OtherData (d : string).

(** [PluginResult] (the interface with [name], [success], [data?] and
    [error?] that the plugins and the manager use). *)
Record PluginResult := mkPluginResult {
  name : string;
  success : bool;
  data : option PluginData;
  error : option string
}.

(** The interface [Plugin].  [execute] returns a promise: it resolves to a
    result (left) or rejects with a thrown value (right). *)
Record Plugin := mkPlugin {
  plugin_name : string;
  description : string;
  detectIntent : string -> bool;
  execute : string -> PluginResult + JsThrown
}.

(** [error instanceof Error ? error.message : 'Unknown error'] *)
Definition error_message (e : JsThrown) : string :=
  match e with
  | JsError m => m
  | JsOther => "Unknown error"
  end.

(** One iteration of the [for] loop of [detectAndExecutePlugins]. *)
Definition dispatch_step (message : string) (results : list PluginResult)
    (plugin : Plugin) : list PluginResult :=
  if detectIntent plugin message then
    match execute plugin message with
    | inl r => results ++ [r]
    | inr e =>
        results ++ [mkPluginResult (plugin_name plugin) false None
                      (Some (error_message e))]
    end
  else results.

(** [PluginManager.detectAndExecutePlugins(message)] for the registry
    [plugins] (in registration order). *)
Definition detectAndExecutePlugins (plugins : list Plugin) (message : string)
    : list PluginResult :=
  foldl (dispatch_step message) [] plugins.

(** The outcome recorded for a handler that ran. *)
Definition outcome_of (plugin : Plugin) (message : string) : PluginResult :=
  match execute plugin message with
  | inl r => r
  | inr e => mkPluginResult (plugin_name plugin) false None
               (Some (error_message e))
  end.

(** [r] is the outcome that dispatch records for [plugin]: the result
    [execute] resolved to, or, when [execute] threw, the failure record with
    the plugin's name and the message of the thrown error. *)
Definition records_outcome (plugin : Plugin) (message : string)
    (r : PluginResult) : Prop :=
  match execute plugin message with
  | inl res => r = res
  | inr e =>
      r = mkPluginResult (plugin_name plugin) false None (Some (error_message e))
  end.

End Plugins.

(* --------------------------------------------------------------------- *)
(** ** 4.1 Math plugin (src/services/plugins/math.ts, lines 9-64;          *)
(**      [detectIntent] and [execute] from the variant implementing       *)
(**      [Plugin], src/services/memory-vector-store.ts, lines 131-222)    *)
(* --------------------------------------------------------------------- *)

Module MathPlugin.
Import Plugins.

(** A JavaScript number as far as the plugin distinguishes them: a finite
    value (a rational here; binary64 rounding is not represented), an
    infinity with its sign, or NaN. *)
Inductive JsNum :=
  | Fin (q : Q)
  | Inf (positive : bool)
  | NaN.

Definition isFinite (x : JsNum) : bool :=
  match x with Fin _ => true | _ => false end.

Definition q_sign (q : Q) : comparison := (0 ?= q)%Q.

Definition num_neg (x : JsNum) : JsNum :=
  match x with
  | Fin q => Fin (Qred (- q))
  | Inf p => Inf (negb p)
  | NaN => NaN
  end.

Definition num_add (x y : JsNum) : JsNum :=
  match x, y with
  | NaN, _ | _, NaN => NaN
  | Fin a, Fin b => Fin (Qred (a + b))
  | Inf p, Fin _ | Fin _, Inf p => Inf p
  | Inf p, Inf p' => if Bool.eqb p p' then Inf p else NaN
  end.

Definition num_sub (x y : JsNum) : JsNum := num_add x (num_neg y).

Definition num_mul (x y : JsNum) : JsNum :=
  match x, y with
  | NaN, _ | _, NaN => NaN
  | Fin a, Fin b => Fin (Qred (a * b))
  | Inf p, Fin a | Fin a, Inf p =>
      match q_sign a with
      | Eq => NaN
      | Lt => Inf p
      | Gt => Inf (negb p)
      end
  | Inf p, Inf p' => Inf (Bool.eqb p p')
  end.

Definition num_div (x y : JsNum) : JsNum :=
  match x, y with
  | NaN, _ | _, NaN => NaN
  | Fin a, Fin b =>
      match q_sign b with
      | Eq =>
          match q_sign a with
          | Eq => NaN
          | Lt => Inf true
          | Gt => Inf false
          end
      | _ => Fin (Qred (a / b))
      end
  | Fin _, Inf _ => Fin 0
  | Inf p, Fin b =>
      match q_sign b with
      | Gt => Inf (negb p)
      | _ => Inf p
      end
  | Inf _, Inf _ => NaN
  end.

Definition is_digit (c : ascii) : bool :=
  let n := nat_of_ascii c in (48 <=? n) && (n <=? 57).

Definition digit_value (c : ascii) : Z := Z.of_nat (nat_of_ascii c - 48).

Definition digits_value (ds : list ascii) : Z :=
  fold_left (fun acc c => (acc * 10 + digit_value c)%Z) ds 0%Z.

(** A decimal literal: digits with an optional fraction, or a fraction
    alone. *)
Definition parse_number (s : list ascii) : option (JsNum * list ascii) :=
  let '(int_part, r) := span is_digit s in
  match r with
  | "."%char :: r1 =>
      let '(frac, r2) := span is_digit r1 in
      match int_part, frac with
      | [], [] => None
      | _, _ =>
          Some (Fin (Qred (inject_Z (digits_value int_part)
                           + inject_Z (digits_value frac)
                             / inject_Z (10 ^ Z.of_nat (length frac)))),
                r2)
      end
  | _ =>
      match int_part with
      | [] => None
      | _ :: _ => Some (Fin (inject_Z (digits_value int_part)), r)
      end
  end.

(** Modelled from the spec: the function [evaluate] of the library mathjs,
    which is imported by the plugin and is not part of the repository.  The
    spec gives its contract on the strings the plugin lets through:
    arithmetic over [+ - * /] with standard operator precedence and
    parentheses.  The model is a recursive-descent evaluator for

      expr  ::= term  { ("+" | "-") term }
      term  ::= unary { ("*" | "/") unary }
      unary ::= ("-" | "+") unary | "(" expr ")" | number

    with left-associative operators and IEEE semantics for division by zero.
    [None] stands for any syntax error thrown by the library.  [fuel] bounds
    the recursion depth. *)
Fixpoint parse_expr (fuel : nat) (s : list ascii) : option (JsNum * list ascii) :=
  match fuel with
  | O => None
  | S f =>
      match parse_term f s with
      | Some (v, r) => expr_rest f v r
      | None => None
      end
  end
with expr_rest (fuel : nat) (acc : JsNum) (s : list ascii)
    : option (JsNum * list ascii) :=
  match fuel with
  | O => None
  | S f =>
      match s with
      | "+"%char :: r =>
          match parse_term f r with
          | Some (v, r') => expr_rest f (num_add acc v) r'
          | None => None
          end
      | "-"%char :: r =>
          match parse_term f r with
          | Some (v, r') => expr_rest f (num_sub acc v) r'
          | None => None
          end
      | _ => Some (acc, s)
      end
  end
with parse_term (fuel : nat) (s : list ascii) : option (JsNum * list ascii) :=
  match fuel with
  | O => None
  | S f =>
      match parse_unary f s with
      | Some (v, r) => term_rest f v r
      | None => None
      end
  end
with term_rest (fuel : nat) (acc : JsNum) (s : list ascii)
    : option (JsNum * list ascii) :=
  match fuel with
  | O => None
  | S f =>
      match s with
      | "*"%char :: r =>
          match parse_unary f r with
          | Some (v, r') => term_rest f (num_mul acc v) r'
          | None => None
          end
      | "/"%char :: r =>
          match parse_unary f r with
          | Some (v, r') => term_rest f (num_div acc v) r'
          | None => None
          end
      | _ => Some (acc, s)
      end
  end
with parse_unary (fuel : nat) (s : list ascii) : option (JsNum * list ascii) :=
  match fuel with
  | O => None
  | S f =>
      match s with
      | "-"%char :: r =>
          match parse_unary f r with
          | Some (v, r') => Some (num_neg v, r')
          | None => None
          end
      | "+"%char :: r => parse_unary f r
      | "("%char :: r =>
          match parse_expr f r with
          | Some (v, ")"%char :: r') => Some (v, r')
          | _ => None
          end
      | _ => parse_number s
      end
  end.

(** Modelled from the spec: [evaluate(cleanExpression)] of mathjs (not part
    of the repository), through the evaluator above: the number computed,
    or a thrown error. *)
Definition mathjs_evaluate (s : string) : JsNum + JsThrown :=
  let cs := chars s in
  match parse_expr (4 * length cs + 8) cs with
  | Some (v, []) => inl v
  | _ => inr (JsError "SyntaxError")
  end.

(** [expression.replace(/\s+/g, '')] *)
Definition strip_whitespace (s : string) : string :=
  string_of_list_ascii (List.filter (fun c => negb (ascii_ws c)) (chars s)).

(** The character class [[\d\+\-\*\/\(\)\.\s]]. *)
Definition safe_char (c : ascii) : bool :=
  is_digit c || Ascii.eqb c "+" || Ascii.eqb c "-" || Ascii.eqb c "*"
  || Ascii.eqb c "/" || Ascii.eqb c "(" || Ascii.eqb c ")" || Ascii.eqb c "."
  || ascii_ws c.

(** [s.startsWith(p)] on character lists. *)
Fixpoint prefix_of (p s : list ascii) : bool :=
  match p, s with
  | [], _ => true
  | _ :: _, [] => false
  | a :: p', c :: s' => Ascii.eqb a c && prefix_of p' s'
  end.

(** [s.includes(p)] *)
Fixpoint includes_chars (p s : list ascii) : bool :=
  prefix_of p s ||
  match s with
  | [] => false
  | _ :: s' => includes_chars p s'
  end.

Definition includes (s p : string) : bool := includes_chars (chars p) (chars s).

(** [(s.match(/c/g) || []).length] for a single character [c]. *)
Definition count_char (c : ascii) (s : string) : nat :=
  length (List.filter (Ascii.eqb c) (chars s)).

(** [isSafeExpression(expression)] *)
Definition isSafeExpression (expression : string) : bool :=
  if negb (truthy_chars (chars expression) && forallb safe_char (chars expression))
  then false
  else if includes expression "/0" then false
  else if negb (count_char "(" expression =? count_char ")" expression) then false
  else true.

(** [evaluate(expression)].  Every error raised inside the [try] block is
    caught and replaced by [Error(`Failed to evaluate: ${expression}`)]. *)
Definition evaluate (now : Z) (expression : string) : MathResult + JsThrown :=
  let cleanExpression := strip_whitespace expression in
  let body : MathResult + JsThrown :=
    if negb (isSafeExpression cleanExpression)
    then inr (JsError "Expression contains unsafe operations")
    else
      match mathjs_evaluate cleanExpression with
      | inr e => inr e
      | inl v =>
          match v with
          | Fin q => inl (mkMathResult cleanExpression q now)
          | _ => inr (JsError "Invalid result")
          end
      end in
  match body with
  | inl r => inl r
  | inr _ => inr (JsError ("Failed to evaluate: " ++ expression))
  end.

(** What the library function [evaluate] of mathjs may do with a text:
    return a number, return a value that is not a number, or throw. *)
Inductive LibraryResult :=
  | LibNumber (x : JsNum)
  | LibOther
  | LibThrows (e : JsThrown).

(** [evaluate(expression)] with the library function as a parameter
    [library]: what the method does for any behaviour of mathjs. *)
Definition evaluate_with (library : string -> LibraryResult) (now : Z)
    (expression : string) : MathResult + JsThrown :=
  let cleanExpression := strip_whitespace expression in
  let body : MathResult + JsThrown :=
    if negb (isSafeExpression cleanExpression)
    then inr (JsError "Expression contains unsafe operations")
    else
      match library cleanExpression with
      | LibThrows e => inr e
      | LibOther => inr (JsError "Invalid result")
      | LibNumber v =>
          match v with
          | Fin q => inl (mkMathResult cleanExpression q now)
          | _ => inr (JsError "Invalid result")
          end
      end in
  match body with
  | inl r => inl r
  | inr _ => inr (JsError ("Failed to evaluate: " ++ expression))
  end.

(** The modelled library as a value of the parameter. *)
Definition modelled_library (s : string) : LibraryResult :=
  match mathjs_evaluate s with
  | inl v => LibNumber v
  | inr e => LibThrows e
  end.

(** The catch-all of [execute]: a successful evaluation becomes a successful
    outcome, a thrown error a failure outcome carrying its message. *)
Definition outcome_of_evaluate (r : MathResult + JsThrown) : PluginResult :=
  match r with
  | inl m => mkPluginResult "math" true (Some (MathData m)) None
  | inr e => mkPluginResult "math" false None (Some (error_message e))
  end.

Definition is_operator (c : ascii) : bool :=
  Ascii.eqb c "+" || Ascii.eqb c "-" || Ascii.eqb c "*" || Ascii.eqb c "/".

(** The characters the extraction pattern can match: digits, the four
    operators and whitespace. *)
Definition pattern_char (c : ascii) : bool :=
  is_digit c || is_operator c || ascii_ws c.

(** A match starts with a digit and stays within the pattern's
    characters. *)
Definition extracted (m : list ascii) : Prop :=
  (exists d rest, m = d :: rest /\ is_digit d = true) /\
  forallb pattern_char m = true.

(** One iteration of the group [(?:\s*[\+\-\*\/]\s*\d+)] at the start of
    [s]: the text it matches and the rest.  The quantifiers are greedy;
    giving back whitespace or digits cannot turn a failure into a match,
    because the character that follows a maximal run is not in the run's
    class. *)
Definition operand_group (s : list ascii) : option (list ascii * list ascii) :=
  let '(ws1, r1) := span ascii_ws s in
  match r1 with
  | op :: r2 =>
      if is_operator op then
        let '(ws2, r3) := span ascii_ws r2 in
        let '(ds, r4) := span is_digit r3 in
        match ds with
        | [] => None
        | _ :: _ => Some (ws1 ++ op :: ws2 ++ ds, r4)
        end
      else None
  | [] => None
  end.

(** Greedy repetition of the group: the text matched by as many iterations
    as possible (empty when there is none) and the rest. *)
Fixpoint operand_groups (fuel : nat) (s : list ascii) : list ascii * list ascii :=
  match fuel with
  | O => ([], s)
  | S f =>
      match operand_group s with
      | Some (m, r) => let '(m', r') := operand_groups f r in (m ++ m', r')
      | None => ([], s)
      end
  end.

(** A match of [/(\d+(?:\s*[\+\-\*\/]\s*\d+)+)/] starting at the first
    character of [s]. *)
Definition expression_here (s : list ascii) : option (list ascii) :=
  let '(ds, r) := span is_digit s in
  match ds with
  | [] => None
  | _ :: _ =>
      match operand_groups (length r) r with
      | ([], _) => None
      | (m, _) => Some (ds ++ m)
      end
  end.

(** Leftmost match in [s]. *)
Fixpoint expression_from (s : list ascii) : option (list ascii) :=
  match expression_here s with
  | Some m => Some m
  | None =>
      match s with
      | [] => None
      | _ :: s' => expression_from s'
      end
  end.

(** [message.match(/(\d+(?:\s*[\+\-\*\/]\s*\d+)+)/)]: capture group 1, or
    [None] for [null]. *)
Definition mathMatch (message : string) : option string :=
  option_map string_of_list_ascii (expression_from (chars message)).

Definition detectIntent (message : string) : bool :=
  match mathMatch message with Some _ => true | None => false end.

(** [execute(message)] of the class that implements [Plugin]. *)
Definition execute (now : Z) (message : string) : PluginResult + JsThrown :=
  match mathMatch message with
  | None =>
      inl (mkPluginResult "math" false None
             (Some "No mathematical expression found in message"%string))
  | Some expression => inl (outcome_of_evaluate (evaluate now expression))
  end.

(** The plugin object registered with the manager. *)
Definition plugin (now : Z) : Plugin :=
  mkPlugin "math" "Evaluate mathematical expressions safely"
    detectIntent (execute now).

End MathPlugin.

(* --------------------------------------------------------------------- *)
(** ** 4.2 Weather plugin (unnamed/part_011)                              *)
(* --------------------------------------------------------------------- *)

Module WeatherPlugin.
Import Plugins.

Definition is_letter (c : ascii) : bool :=
  let n := nat_of_ascii c in
  ((65 <=? n) && (n <=? 90)) || ((97 <=? n) && (n <=? 122)).

Definition to_lower (c : ascii) : ascii :=
  let n := nat_of_ascii c in
  if (65 <=? n) && (n <=? 90) then ascii_of_nat (n + 32) else c.

(** The class [[a-zA-Z\s]] of the capture group. *)
Definition city_char (c : ascii) : bool := is_letter c || ascii_ws c.

(** If [s] starts with the literal [p], compared case-insensitively (flag
    [i]), the rest of [s] after it. *)
Fixpoint strip_prefix_ci (p s : list ascii) : option (list ascii) :=
  match p, s with
  | [], _ => Some s
  | _ :: _, [] => None
  | a :: p', c :: s' =>
      if Ascii.eqb (to_lower a) (to_lower c) then strip_prefix_ci p' s' else None
  end.

(** The capture group [([a-zA-Z\s]+)] at the end of the pattern: greedy,
    at least one character. *)
Definition capture_city (s : list ascii) : option (list ascii) :=
  match fst (span city_char s) with
  | [] => None
  | c :: g => Some (c :: g)
  end.

(** What the capture group can hold: at least one character, all of the
    class. *)
Definition city_text (g : list ascii) : Prop :=
  g <> [] /\ forallb city_char g = true.

(** Backtracking over a greedy [\s+]: try the continuation [k] after [n]
    whitespace characters, then after [n - 1], ..., down to one. *)
Fixpoint after_spaces {X} (n : nat) (s : list ascii)
    (k : list ascii -> option X) : option X :=
  match n with
  | O => None
  | S n' =>
      match k (skipn n s) with
      | Some r => Some r
      | None => after_spaces n' s k
      end
  end.

Definition leading_spaces (s : list ascii) : nat :=
  length (fst (span ascii_ws s)).

(** The optional group [(?:in\s+)?] followed by the capture group: first
    with the group present, then without it. *)
Definition optional_in_then_city (s : list ascii) : option (list ascii) :=
  let with_in :=
    match strip_prefix_ci (chars "in") s with
    | Some r => after_spaces (leading_spaces r) r capture_city
    | None => None
    end in
  match with_in with
  | Some g => Some g
  | None => capture_city s
  end.

(** A match of [/weather\s+(?:in\s+)?([a-zA-Z\s]+)/i] starting at the first
    character of [s]: the text of capture group 1. *)
Definition match_here (s : list ascii) : option (list ascii) :=
  match strip_prefix_ci (chars "weather") s with
  | Some r => after_spaces (leading_spaces r) r optional_in_then_city
  | None => None
  end.

(** Leftmost match in [s]. *)
Fixpoint match_from (s : list ascii) : option (list ascii) :=
  match match_here s with
  | Some g => Some g
  | None =>
      match s with
      | [] => None
      | _ :: s' => match_from s'
      end
  end.

(** [message.match(/weather\s+(?:in\s+)?([a-zA-Z\s]+)/i)]: capture group 1
    of the match, or [None] for [null]. *)
Definition weatherMatch (message : string) : option string :=
  option_map string_of_list_ascii (match_from (chars message)).

Definition trim_string (s : string) : string :=
  string_of_list_ascii (Chunker.trim ascii_ws (chars s)).

(** The parts of the OpenWeather reply that [getWeather] reads.  A part that
    is [None] is [undefined] in the reply, so that reading a property of it
    throws a [TypeError]. *)
Record ApiMain := mkApiMain { api_temp : Q; api_humidity : option Q }.

Record ApiData := mkApiData {
  api_main : option ApiMain;            (* data.main *)
  api_weather0_main : option string;    (* data.weather[0].main *)
  api_name : string;                    (* data.name *)
  api_wind_speed : option (option Q)    (* data.wind, then .speed *)
}.

(** What [await fetch(url)] and the calls on the response do. *)
Inductive FetchOutcome :=
  | FetchRejects (e : JsThrown)
  | HttpNotOk (status : Z) (text : string + JsThrown)
  | HttpOk (json : ApiData + JsThrown).

(** The environment of one [execute] call: the configured key, the
    behaviour of the HTTP request for a city, the four values drawn by
    [Math.random()] in [getMockWeather] (as natural numbers; the code uses
    [Math.floor(Math.random() * k)], an arbitrary integer in [[0, k)], which
    is [draw mod k] here), and the clock. *)
Record Env := mkEnv {
  apiKey : string;
  fetch : string -> FetchOutcome;
  draw_condition : nat;
  draw_temp : nat;
  draw_humidity : nat;
  draw_wind : nat;
  now : Z
}.

Definition conditions : list string :=
  ["Sunny"; "Cloudy"; "Rainy"; "Partly Cloudy"]%string.

(** [getMockWeather(city)] *)
Definition getMockWeather (env : Env) (city : string) : WeatherData :=
  let randomCondition := nth_error conditions (draw_condition env mod length conditions) in
  let randomTemp := (Z.of_nat (draw_temp env mod 30) + 10)%Z in
  mkWeatherData randomTemp
    (match randomCondition with
     | Some c => if truthy_chars (chars c) then c else "Sunny"%string
     | None => "Sunny"%string
     end)
    city (now env)
    (Some (inject_Z (Z.of_nat (draw_humidity env mod 40) + 40)%Z))
    (Some (inject_Z (Z.of_nat (draw_wind env mod 20) + 5)%Z)).

(** [Math.round(x)] *)
Definition math_round (x : Q) : Z := Qfloor (x + (1 # 2))%Q.

(** The [try] block of [getWeather]. *)
Definition getWeather_try (env : Env) (city : string) : WeatherData + JsThrown :=
  if negb (truthy_chars (chars (apiKey env))) then inl (getMockWeather env city)
  else
    match fetch env city with
    | FetchRejects e => inr e
    | HttpNotOk status (inr e) => inr e
    | HttpNotOk status (inl errorText) =>
        inr (JsError ("Weather API error: " ++ show_int status ++ " - "
                      ++ errorText))
    | HttpOk (inr e) => inr e
    | HttpOk (inl d) =>
        match api_main d, api_weather0_main d, api_wind_speed d with
        | Some m, Some cond, Some speed =>
            inl (mkWeatherData (math_round (api_temp m)) cond (api_name d)
                   (now env) (api_humidity m) speed)
        | _, _, _ => inr (JsError "TypeError")
        end
    end.

(** [getWeather(city)]: the [catch] block replaces any failure by mock
    data. *)
Definition getWeather (env : Env) (city : string) : WeatherData + JsThrown :=
  match getWeather_try env city with
  | inl w => inl w
  | inr _ => inl (getMockWeather env city)
  end.

(** [execute(message)] *)
Definition execute (env : Env) (message : string) : PluginResult + JsThrown :=
  match weatherMatch message with
  | None =>
      inl (mkPluginResult "weather" false None (Some "No city found in message"%string))
  | Some group1 =>
      let city := trim_string group1 in
      match getWeather env city with
      | inl weatherData =>
          inl (mkPluginResult "weather" true (Some (WeatherDataOf weatherData)) None)
      | inr e =>
          inl (mkPluginResult "weather" false None (Some (error_message e)))
      end
  end.

Definition detectIntent (message : string) : bool :=
  match weatherMatch message with Some _ => true | None => false end.

(** The plugin object registered with the manager. *)
Definition plugin (env : Env) : Plugin :=
  mkPlugin "weather" "Get weather information for cities"
    detectIntent (execute env).

End WeatherPlugin.

(* --------------------------------------------------------------------- *)
(** ** 4.3 The registry of PluginManager                                  *)
(* --------------------------------------------------------------------- *)

Module PluginManager.
Import Plugins.

(** The field [plugins] set by the constructor: the weather plugin, then the
    math plugin.  [env] and [now] are what the two plugins read from their
    environment. *)
Definition plugins (env : WeatherPlugin.Env) (now : Z) : list Plugin :=
  [WeatherPlugin.plugin env; MathPlugin.plugin now].

Definition getAvailablePlugins (env : WeatherPlugin.Env) (now : Z) : list string :=
  map plugin_name (plugins env now).

End PluginManager.

(* ===================================================================== *)
(** * 5. Retrieval: StreamingRAGService.search                            *)
(**      (src/services/rag-streaming.ts, lines 166-183)                   *)
(* ===================================================================== *)

Module Rag.

(** [SearchResult] (src/services/weaviate.ts); [metadata] holds the file
    name and the processing time. *)
Record SearchResult := mkSearchResult {
  sr_id : string;
  sr_content : string;
  sr_source : string;
  score : Q;
  sr_fileName : string;
  sr_processedAt : string
}.

(** [RAGOptions]: both fields are optional. *)
Record RAGOptions := mkOptions {
  maxSearchResults : option nat;
  similarityThreshold : option Q
}.

(** The collaborator [weaviateService.search(query, [], limit)]: the ranked
    results, or a thrown error. *)
Definition Backend := string -> nat -> list SearchResult + JsThrown.

(** [search(query, options)].  [cfgMax] is [config.rag.maxSearchResults]. *)
Definition search (backend : Backend) (cfgMax : nat) (query : string)
    (options : RAGOptions) : list SearchResult :=
  let maxResults := default cfgMax (maxSearchResults options) in
  let threshold := default (7 # 10) (similarityThreshold options) in
  match backend query maxResults with
  | inl results => List.filter (fun r => Qle_bool threshold (score r)) results
  | inr _ => []
  end.

(** Scores in descending order. *)
Definition descending (l : list SearchResult) : Prop :=
  StronglySorted (fun a b => (score b <= score a)%Q) l.

End Rag.

(* ===================================================================== *)
(** * 5.1 Ingestion: StreamingRAGService.processAndIndexDocuments         *)
(**      (src/services/rag-streaming.ts, lines 101-164)                   *)
(* ===================================================================== *)

Module Indexing.
Import Chunker.

(** [s.endsWith(suffix)] *)
Definition endsWith (s suffix : string) : bool :=
  MathPlugin.prefix_of (rev (chars suffix)) (rev (chars s)).

(** [file.endsWith('.md') && file !== 'README.md'] *)
Definition is_markdown (file : string) : bool :=
  endsWith file ".md" && negb (String.eqb file "README.md").

(** The environment of one run: the directory listing and the file contents
    (each may fail), the identifiers and instants handed to the generator
    for a file, the configured window size, and the sink: the [n]-th call of
    [weaviateService.addChunks] resolves ([None]) or rejects with an
    error. *)
Record Env := mkEnv {
  readdir : list string + JsThrown;
  readFile : string -> string + JsThrown;
  uuidv4 : string -> nat -> string;
  clock : string -> nat -> Z;
  maxChunkTokens : nat;
  addChunks : nat -> list (DocumentChunk ascii) -> option JsThrown
}.

(** The state of a run: the number of sink calls made, the batches handed to
    the sink, those the sink accepted, and the counter [totalChunks]. *)
Record Run := mkRun {
  calls : nat;
  sent : list (list (DocumentChunk ascii));
  stored : list (list (DocumentChunk ascii));
  totalChunks : nat
}.

(** The body of the [for await] loop for one batch: a rejected
    [addChunks] is caught and logged, and the counters are left alone. *)
Definition send_batch (env : Env) (st : Run) (batch : list (DocumentChunk ascii))
    : Run :=
  match addChunks env (calls st) batch with
  | None =>
      mkRun (S (calls st)) (sent st ++ [batch]) (stored st ++ [batch])
        (totalChunks st + length batch)
  | Some _ =>
      mkRun (S (calls st)) (sent st ++ [batch]) (stored st) (totalChunks st)
  end.

(** The batches the generator yields for a file: batch size 3, window size
    [config.rag.maxChunkTokens].  [inr] when reading the file fails (the
    generator then throws at its first step); [None] when the generator
    never finishes (see [stream_chunks_zero_window]). *)
Definition file_batches (env : Env) (fileName : string)
    : option (list (list (DocumentChunk ascii)) + JsThrown) :=
  match readFile env fileName with
  | inr e => Some (inr e)
  | inl content =>
      match streamChunksFromFile ascii_ws " "%char (uuidv4 env fileName)
              (clock env fileName) (S (length (chars content))) (chars content)
              fileName (maxChunkTokens env) 3 with
      | Some batches => Some (inl batches)
      | None => None
      end
  end.

(** The body of the [for] loop over the files: an error thrown while the
    file is streamed is caught and logged, and the loop goes on. *)
Definition process_file (env : Env) (st : Run) (fileName : string) : option Run :=
  match file_batches env fileName with
  | Some (inl batches) => Some (foldl (send_batch env) st batches)
  | Some (inr _) => Some st
  | None => None
  end.

Fixpoint process_files (env : Env) (st : Run) (files : list string) : option Run :=
  match files with
  | [] => Some st
  | f :: files' =>
      match process_file env st f with
      | Some st' => process_files env st' files'
      | None => None
      end
  end.

(** [processAndIndexDocuments()]: the final state of the run, or the error
    rethrown when the directory cannot be listed; [None] when the call never
    returns. *)
Definition processAndIndexDocuments (env : Env) : option (Run + JsThrown) :=
  match readdir env with
  | inr e => Some (inr e)
  | inl files =>
      let markdownFiles := List.filter is_markdown files in
      if length markdownFiles =? 0 then Some (inl (mkRun 0 [] [] 0))
      else
        match process_files env (mkRun 0 [] [] 0) markdownFiles with
        | Some st => Some (inl st)
        | None => None
        end
  end.

(** The batches of a file as a plain list: none when the file cannot be
    read. *)
Definition batches_of (env : Env) (fileName : string)
    : list (list (DocumentChunk ascii)) :=
  match file_batches env fileName with
  | Some (inl batches) => batches
  | _ => []
  end.

(** The bookkeeping of a run: the counter, the accepted batches and the
    number of sink calls agree. *)
Definition accounted (st : Run) : Prop :=
  totalChunks st = length (concat (stored st)) /\
  sublist (stored st) (sent st) /\
  calls st = length (sent st).

(** A run over five directory entries: one unreadable file, and a sink
    that rejects its first batch. *)
Definition sample_env : Env :=
  mkEnv (inl ["a.md"; "README.md"; "notes.txt"; "b.md"; "c.md"])
    (fun f => if String.eqb f "b.md" then inr (JsError "EACCES")
              else inl "one two three four five six seven")
    (fun _ => show_nat) (fun _ => Z.of_nat) 2
    (fun n _ => if n =? 0 then Some (JsError "batch failed") else None).

End Indexing.

(* ===================================================================== *)
(** * 5.2 The search backend: WeaviateService.search                      *)
(**      (src/services/weaviate.ts, lines 117-146)                        *)
(* ===================================================================== *)

Module Weaviate.
Import Rag.

(** The part [_additional] of a hit of the GraphQL reply. *)
Record Additional := mkAdditional {
  add_id : option string;
  add_distance : option Q
}.

Record Hit := mkHit {
  hit_content : string;
  hit_source : string;
  hit_fileName : string;
  hit_processedAt : string;
  hit_additional : option Additional
}.

(** Truthiness of a number: it is not zero (NaN is not represented). *)
Definition truthy_number (q : Q) : bool := negb (Qeq_bool q 0).

(** [result._additional?.distance] *)
Definition hit_distance (h : Hit) : option Q :=
  match hit_additional h with
  | Some a => add_distance a
  | None => None
  end.

(** A hit whose distance is missing or 0: the condition of the score
    expression is false for it. *)
Definition no_distance (h : Hit) : bool :=
  match hit_distance h with
  | Some d => negb (truthy_number d)
  | None => true
  end.

(** [result._additional?.id || ''] *)
Definition hit_id (h : Hit) : string :=
  match hit_additional h with
  | Some a =>
      match add_id a with
      | Some i => if truthy_chars (chars i) then i else EmptyString
      | None => EmptyString
      end
  | None => EmptyString
  end.

(** The GraphQL request for a query and a limit: it rejects, or resolves to
    a reply in which [data.Get[className]] is a list of hits or is
    missing. *)
Definition Client := string -> nat -> option (list Hit) + JsThrown.

Section WithSubtraction.

(** The subtraction of two numbers as the machine performs it: the result
    of [x - y] in binary64, which is rounded and so need not be the exact
    difference.  Numbers that are only compared or copied are exact. *)
Variable sub64 : Q -> Q -> Q.

(** [distance ? 1 - (distance || 0) : 0.8] *)
Definition hit_score (h : Hit) : Q :=
  match hit_distance h with
  | Some d =>
      if truthy_number d then sub64 1 (if truthy_number d then d else 0)
      else 8 # 10
  | None => 8 # 10
  end.

Definition to_result (h : Hit) : SearchResult :=
  mkSearchResult (hit_id h) (hit_content h) (hit_source h) (hit_score h)
    (hit_fileName h) (hit_processedAt h).

(** [search(query, embedding, limit)]; the error of a failed request is
    rethrown. *)
Definition search (client : Client) : Backend :=
  fun query limit =>
    match client query limit with
    | inr e => inr e
    | inl found =>
        inl (map to_result (match found with Some hits => hits | None => [] end))
    end.

End WithSubtraction.

End Weaviate.

(* ===================================================================== *)
(** * 5.3 The overlapping splitter: DocumentProcessor.splitIntoChunks     *)
(**      (src/services/weaviate.ts, lines 321-349, called at line 267)    *)
(* ===================================================================== *)

Module Splitter.

(** A relative index of [slice] on an array of length [n]. *)
Definition js_index (n i : Z) : Z :=
  if (i <? 0)%Z then Z.max (n + i) 0 else Z.min i n.

(** [a.slice(from, to)] *)
Definition slice_z {A} (a : list A) (from to : Z) : list A :=
  let n := Z.of_nat (length a) in
  let k := js_index n from in
  let e := js_index n to in
  firstn (Z.to_nat (e - k)) (skipn (Z.to_nat k) a).

(** The [while] loop.  [None]: the loop is still running when [fuel]
    iterations have been made. *)
Fixpoint split_loop (fuel : nat) (tokens : list (list ascii))
    (maxTokens overlap startIndex : Z) (chunks : list (list ascii))
    : option (list (list ascii)) :=
  match fuel with
  | O => None
  | S f =>
      let n := Z.of_nat (length tokens) in
      if (startIndex <? n)%Z then
        let endIndex := Z.min (startIndex + maxTokens) n in
        let chunk := Chunker.join " "%char (slice_z tokens startIndex endIndex) in
        let chunks1 := chunks ++ [chunk] in
        let startIndex1 := (endIndex - overlap)%Z in
        if (n <=? startIndex1)%Z then Some chunks1
        else split_loop f tokens maxTokens overlap startIndex1 chunks1
      else Some chunks
  end.

(** [splitIntoChunks(content, maxTokens, overlap)] *)
Definition splitIntoChunks (fuel : nat) (content : list ascii)
    (maxTokens overlap : Z) : option (list (list ascii)) :=
  let tokens := Chunker.split_ws ascii_ws content in
  if (Z.of_nat (length tokens) <=? maxTokens)%Z then Some [content]
  else split_loop fuel tokens maxTokens overlap 0 [].

(** [x || d] for an optional number. *)
Definition or_default (x : option Z) (d : Z) : Z :=
  match x with
  | Some v => if (v =? 0)%Z then d else v
  | None => d
  end.

(** The call in [processDocument]:
    [splitIntoChunks(cleanedContent, maxChunkTokens || 200, chunkOverlap || 50)]. *)
Definition chunks_of_document (fuel : nat) (cleanedContent : list ascii)
    (maxChunkTokens chunkOverlap : option Z) : option (list (list ascii)) :=
  splitIntoChunks fuel cleanedContent (or_default maxChunkTokens 200)
    (or_default chunkOverlap 50).

End Splitter.

(* ===================================================================== *)
(** * 5.4 The language model client: GeminiService                        *)
(**      (src/services/gemini.ts, lines 22-143)                           *)
(* ===================================================================== *)

Module Gemini.

Inductive LLMRole := role_system | role_user | role_assistant.

Record LLMMessage := mkLLMMessage {
  llm_role : LLMRole;
  llm_content : string
}.

Record Usage := mkUsage {
  promptTokens : nat;
  completionTokens : nat;
  totalTokens : nat
}.

Record LLMResponse := mkLLMResponse {
  llm_text : string;     (* the field [content] *)
  usage : Usage
}.

(** The remote model: [generateContent(prompt)] followed by
    [response.text()], the text or a thrown error. *)
Definition Model := string -> string + JsThrown.

(** The field [model] after [initialize()]: it stays [undefined] when
    [config.gemini.apiKey] is missing or empty. *)
Definition initialize (apiKey : option string) (remote : Model) : option Model :=
  match apiKey with
  | None => None
  | Some key => if negb (truthy_chars (chars key)) then None else Some remote
  end.

Definition role_label (r : LLMRole) : string :=
  match r with
  | role_system => "System"
  | role_user => "User"
  | role_assistant => "Assistant"
  end.

(** [convertMessagesToPrompt(messages)] *)
Definition convertMessagesToPrompt (messages : list LLMMessage) : string :=
  WeatherPlugin.trim_string
    (fold_left
       (fun prompt m =>
          (prompt ++ role_label (llm_role m) ++ ": " ++ llm_content m
           ++ String "010"%char (String "010"%char EmptyString))%string)
       messages EmptyString).

(** [Math.ceil(text.length / 4)] *)
Definition estimateTokens (text : string) : nat := (String.length text + 3) / 4.

(** [generateCompletion(request)] *)
Definition generateCompletion (model : option Model) (messages : list LLMMessage)
    : LLMResponse + JsThrown :=
  match model with
  | None => inr (JsError "Gemini model not initialized - API key required")
  | Some generateContent =>
      let prompt := convertMessagesToPrompt messages in
      match generateContent prompt with
      | inr e => inr e
      | inl text =>
          let p := estimateTokens prompt in
          let c := estimateTokens text in
          inl (mkLLMResponse text (mkUsage p c (p + c)))
      end
  end.

(** The call made by the agent:
    [generateCompletion({messages: [{role: 'user', content: prompt}], ...})]
    and then [.content]. *)
Definition completion_of (model : option Model) (prompt : string)
    : string + JsThrown :=
  match generateCompletion model [mkLLMMessage role_user prompt] with
  | inl r => inl (llm_text r)
  | inr e => inr e
  end.

End Gemini.

(* ===================================================================== *)
(** * 6. Orchestration: AgentService (unnamed/part_007)                   *)
(* ===================================================================== *)

Module Agent.
Import Memory Plugins.

(** [RAGResult] as produced by [performRAGSearch] and echoed in
    [used_chunks]. *)
Record RAGResult := mkRAGResult {
  rr_content : string;
  rr_source : string;
  rr_score : Q;
  rr_fileName : string;
  rr_processedAt : string
}.

(** An entry of [memory_snapshot]; [snap_timestamp] is the instant that
    [toISOString] renders. *)
Record SnapshotEntry := mkSnapshot {
  snap_role : Role;
  snap_content : string;
  snap_timestamp : Z
}.

Record AgentResponse := mkResponse {
  reply : string;
  used_chunks : list RAGResult;
  plugins_used : list PluginResult;
  memory_snapshot : list SnapshotEntry;
  session_id : string
}.

Record AgentError := mkAgentError {
  code : string;
  err_message : string;
  err_sessionId : string;
  err_timestamp : Z
}.

(** What the service is wired to and configured with: the search backend
    behind its [StreamingRAGService]; the language model
    ([generateCompletion] applied to the single user message [prompt] with
    temperature 0.7 and at most 1000 tokens: the [content] of the reply, or
    a thrown error); the configuration; and the conversion of a number to
    text in a template literal. *)
Record Collaborators := mkCollaborators {
  backend : Rag.Backend;
  generateCompletion : string -> string + JsThrown;
  cfgMaxMessages : Num;
  cfgMaxSearchResults : nat;
  showNumber : Q -> string
}.

(** What is read from the environment while one request is processed. *)
Record RequestEnv := mkRequestEnv {
  user_reads : AddReads;        (* addMessage(sessionId, 'user', message) *)
  t_summary_touch : Z;          (* getMemory inside getFormattedSummary *)
  t_summary_now : Z;            (* Date.now() inside getSummary *)
  weather_env : WeatherPlugin.Env;   (* the weather plugin's environment *)
  t_math : Z;                   (* new Date() inside MathPlugin.evaluate *)
  assistant_reads : AddReads;   (* addMessage(sessionId, 'assistant', ...) *)
  t_snapshot : Z;               (* getMemory inside buildResponse *)
  t_error : Z                   (* new Date() inside createAgentError *)
}.

Definition lower_string (s : string) : string :=
  string_of_list_ascii (map WeatherPlugin.to_lower (chars s)).

Definition to_upper (c : ascii) : ascii :=
  let n := nat_of_ascii c in
  if (97 <=? n) && (n <=? 122) then ascii_of_nat (n - 32) else c.

Definition upper_string (s : string) : string :=
  string_of_list_ascii (map to_upper (chars s)).

(** [message.replace(/what is|define|explain/gi, '')] *)
Fixpoint remove_keywords (fuel : nat) (s : list ascii) : list ascii :=
  match fuel with
  | O => s
  | S f =>
      match WeatherPlugin.strip_prefix_ci (chars "what is") s with
      | Some r => remove_keywords f r
      | None =>
          match WeatherPlugin.strip_prefix_ci (chars "define") s with
          | Some r => remove_keywords f r
          | None =>
              match WeatherPlugin.strip_prefix_ci (chars "explain") s with
              | Some r => remove_keywords f r
              | None =>
                  match s with
                  | [] => []
                  | c :: s' => c :: remove_keywords f s'
                  end
              end
          end
      end
  end.

(** [enhanceSearchQuery(message)] *)
Definition enhanceSearchQuery (message : string) : string :=
  let lowerMessage := lower_string message in
  if MathPlugin.includes lowerMessage "what is"
     || MathPlugin.includes lowerMessage "define"
     || MathPlugin.includes lowerMessage "explain"
  then
    let topic :=
      WeatherPlugin.trim_string
        (string_of_list_ascii
           (remove_keywords (S (String.length message)) (chars message))) in
    (topic ++ " definition overview introduction basics")%string
  else if MathPlugin.includes lowerMessage "how to"
          || MathPlugin.includes lowerMessage "how do"
  then (message ++ " guide tutorial steps instructions")%string
  else message.

(** [performRAGSearch(message)] *)
Definition performRAGSearch (c : Collaborators) (message : string)
    : list RAGResult :=
  let searchQuery := enhanceSearchQuery message in
  let results :=
    Rag.search (backend c) (cfgMaxSearchResults c) searchQuery
      (Rag.mkOptions (Some (cfgMaxSearchResults c)) (Some (1 # 2))) in
  map (fun r => mkRAGResult (Rag.sr_content r) (Rag.sr_source r) (Rag.score r)
                  (Rag.sr_fileName r) (Rag.sr_processedAt r))
      results.

Definition dquote : string := String (ascii_of_nat 34) EmptyString.
Definition nl : string := String (ascii_of_nat 10) EmptyString.

(** Text of a missing property in a template literal. *)
Definition undefined_text : string := "undefined".

Definition show_optional (c : Collaborators) (x : option Q) : string :=
  match x with
  | Some q => showNumber c q
  | None => undefined_text
  end.

(** The lines rendered for a successful [weather] outcome with payload
    [d]; a property that the payload does not have renders as
    [undefined]. *)
Definition weather_lines (c : Collaborators) (d : PluginData) : string :=
  match d with
  | WeatherDataOf w =>
      ("   Location: " ++ location w ++ nl
       ++ "   Temperature: " ++ show_int (temperature w) ++ "°C" ++ nl
       ++ "   Condition: " ++ condition w ++ nl
       ++ "   Humidity: " ++ show_optional c (humidity w) ++ "%" ++ nl
       ++ "   Wind Speed: " ++ show_optional c (windSpeed w) ++ " km/h" ++ nl)%string
  | _ =>
      ("   Location: " ++ undefined_text ++ nl
       ++ "   Temperature: " ++ undefined_text ++ "°C" ++ nl
       ++ "   Condition: " ++ undefined_text ++ nl
       ++ "   Humidity: " ++ undefined_text ++ "%" ++ nl
       ++ "   Wind Speed: " ++ undefined_text ++ " km/h" ++ nl)%string
  end.

Definition math_lines (c : Collaborators) (d : PluginData) : string :=
  match d with
  | MathData m =>
      ("   Expression: " ++ expression m ++ nl
       ++ "   Result: " ++ showNumber c (result m) ++ nl)%string
  | _ =>
      ("   Expression: " ++ undefined_text ++ nl
       ++ "   Result: " ++ undefined_text ++ nl)%string
  end.

(** A successful outcome carries a payload. *)
Definition has_payload (r : PluginResult) : Prop :=
  success r = true -> data r <> None.

(** A successful outcome named weather or math without a payload. *)
Definition lacks_payload (r : PluginResult) : bool :=
  success r
  && (String.eqb (name r) "weather" || String.eqb (name r) "math")
  && match data r with None => true | Some _ => false end.

(** The text appended for one plugin outcome by the [forEach] callback of
    [buildPrompt].  Reading a property of a missing payload throws a
    [TypeError], whose message names the property read first. *)
Definition plugin_lines (c : Collaborators) (index : nat) (r : PluginResult)
    : string + JsThrown :=
  if success r then
    let head :=
      (show_nat (index + 1) ++ ". " ++ upper_string (name r) ++ " Plugin:" ++ nl)%string in
    if String.eqb (name r) "weather" then
      match data r with
      | Some d => inl (head ++ weather_lines c d)%string
      | None =>
          inr (JsError
                 "Cannot read properties of undefined (reading 'location')")
      end
    else if String.eqb (name r) "math" then
      match data r with
      | Some d => inl (head ++ math_lines c d)%string
      | None =>
          inr (JsError
                 "Cannot read properties of undefined (reading 'expression')")
      end
    else inl head
  else
    inl (show_nat (index + 1) ++ ". " ++ upper_string (name r)
         ++ " Plugin: Failed - "
         ++ match error r with Some e => e | None => undefined_text end
         ++ nl)%string.

(** [pluginResults.forEach(...)], from index [index] on. *)
Fixpoint plugins_section (c : Collaborators) (index : nat)
    (rs : list PluginResult) (prompt : string) : string + JsThrown :=
  match rs with
  | [] => inl prompt
  | r :: rs' =>
      match plugin_lines c index r with
      | inl t => plugins_section c (S index) rs' (prompt ++ t)%string
      | inr e => inr e
      end
  end.

(** [ragResults.map((result, index) => ...)], from index [index] on. *)
Fixpoint document_entries (index : nat) (rs : list RAGResult) : list string :=
  match rs with
  | [] => []
  | r :: rs' =>
      (show_nat (index + 1) ++ ". Source: " ++ rr_source r ++ nl
       ++ "Content: " ++ rr_content r ++ nl)%string
      :: document_entries (S index) rs'
  end.

Definition user_message_heading : string :=
  (nl ++ "## USER MESSAGE" ++ nl)%string.

Definition instruction_block : string :=
  (nl ++ nl ++ "## INSTRUCTIONS" ++ nl
   ++ "- You are a knowledgeable AI assistant with expertise in various topics" ++ nl
   ++ "- Provide comprehensive, confident responses using your general knowledge" ++ nl
   ++ "- When documents contain relevant information, use it to enhance your response with specific details and examples" ++ nl
   ++ "- Always cite sources when using document information (e.g., " ++ dquote
   ++ "According to [filename]..." ++ dquote ++ ")" ++ nl
   ++ "- When plugin results are available, incorporate them naturally into your response" ++ nl
   ++ "- For weather queries, provide a friendly summary of the weather data" ++ nl
   ++ "- For math queries, confirm the calculation and provide the result clearly" ++ nl
   ++ "- Only say " ++ dquote ++ "I don't have enough information" ++ dquote
   ++ " for very specific or technical questions you truly cannot answer" ++ nl
   ++ "- Be helpful, informative, and confident in your responses" ++ nl
   ++ nl ++ "## RESPONSE" ++ nl)%string.

(** [buildPrompt(message, memorySummary, ragResults, pluginResults)] *)
Definition buildPrompt (c : Collaborators) (message memorySummary : string)
    (ragResults : list RAGResult) (pluginResults : list PluginResult)
    : string + JsThrown :=
  let prompt0 :=
    ("You are a helpful AI assistant with access to conversation memory, document knowledge, and plugin capabilities."
     ++ nl ++ nl ++ "## CONVERSATION MEMORY" ++ nl ++ memorySummary ++ nl
     ++ nl ++ "## DOCUMENT CONTEXT" ++ nl)%string in
  let prompt1 :=
    if 0 <? length ragResults
    then (prompt0 ++ join_lines (document_entries 0 ragResults))%string
    else (prompt0 ++ "No relevant documents found." ++ nl)%string in
  let prompt2 :=
    if 0 <? length pluginResults
    then plugins_section c 0 pluginResults
           (prompt1 ++ nl ++ "## PLUGIN RESULTS" ++ nl)%string
    else inl prompt1 in
  match prompt2 with
  | inl p => inl (p ++ user_message_heading ++ message ++ instruction_block)%string
  | inr e => inr e
  end.

(** The fallback text returned by the [catch] block of
    [generateAIResponse]. *)
Definition fallback_reply (originalMessage : string) : string :=
  ("I understand you asked: " ++ dquote ++ originalMessage ++ dquote
   ++ ". Based on the available context, I can provide some information, but I'm currently experiencing technical difficulties with my AI generation capabilities.")%string.

(** [generateAIResponse(prompt, originalMessage)] *)
Definition generateAIResponse (c : Collaborators) (prompt originalMessage : string)
    : string :=
  match generateCompletion c prompt with
  | inl content => content
  | inr _ => fallback_reply originalMessage
  end.

(** [buildResponse(sessionId, aiResponse, ragResults, pluginResults)] *)
Definition buildResponse (now : Z) (sessions : Sessions) (sid aiResponse : string)
    (ragResults : list RAGResult) (pluginResults : list PluginResult)
    : Sessions * AgentResponse :=
  let '(sessions1, memory) := getMemory now sessions sid in
  let memorySnapshot :=
    match memory with
    | Some m =>
        map (fun msg => mkSnapshot (role msg) (content msg) (timestamp msg))
            (messages m)
    | None => []
    end in
  (sessions1, mkResponse aiResponse ragResults pluginResults memorySnapshot sid).

(** [createAgentError(code, message, sessionId)] *)
Definition createAgentError (now : Z) (code message sid : string) : AgentError :=
  mkAgentError code message sid now.

(** Steps 1 to 5 of [processMessage]: the session map after the user
    message was recorded and summarised, the plugin outcomes, the retrieved
    chunks, and the prompt (or the error thrown while it was built). *)
Definition gather (c : Collaborators) (k : RequestEnv) (sessions : Sessions)
    (sid message : string)
    : Sessions * list PluginResult * list RAGResult * (string + JsThrown) :=
  let sessions1 :=
    addMessage (cfgMaxMessages c) (user_reads k) sessions sid user message in
  let '(sessions2, memorySummary) :=
    getFormattedSummary (t_summary_touch k) (t_summary_now k) sessions1 sid 2 in
  let pluginResults :=
    detectAndExecutePlugins (PluginManager.plugins (weather_env k) (t_math k))
      message in
  let ragResults := performRAGSearch c message in
  let prompt := buildPrompt c message memorySummary ragResults pluginResults in
  (sessions2, pluginResults, ragResults, prompt).

Definition prompt_of
    (g : Sessions * list PluginResult * list RAGResult * (string + JsThrown))
    : string + JsThrown := snd g.

(** [processMessage(sessionId, message)].  An error thrown inside the [try]
    block is replaced by the [AgentError] with code PROCESSING_FAILED. *)
Definition processMessage (c : Collaborators) (k : RequestEnv)
    (sessions : Sessions) (sid message : string)
    : Sessions * (AgentResponse + AgentError) :=
  let '(sessions2, pluginResults, ragResults, built) :=
    gather c k sessions sid message in
  match built with
  | inr _ =>
      (sessions2,
       inr (createAgentError (t_error k) "PROCESSING_FAILED"
              "Failed to process message" sid))
  | inl prompt =>
      let aiResponse := generateAIResponse c prompt message in
      let sessions3 :=
        addMessage (cfgMaxMessages c) (assistant_reads k) sessions2 sid assistant
          aiResponse in
      let '(sessions4, response) :=
        buildResponse (t_snapshot k) sessions3 sid aiResponse ragResults
          pluginResults in
      (sessions4, inl response)
  end.

End Agent.

(* ===================================================================== *)
(** * Proofs                                                              *)
(* ===================================================================== *)

Module ChunkerFacts.
Import Chunker.

Section Lists.
Context {A : Type}.

Lemma windows_nil fuel w : windows fuel w (@nil A) = [].
Proof. destruct fuel; reflexivity. Qed.

Lemma windows_fuel (fuel1 fuel2 w : nat) (l : list A) :
  0 < w -> length l <= fuel1 -> length l <= fuel2 ->
  windows fuel1 w l = windows fuel2 w l.
Proof.
  intros Hw. revert fuel2 l.
  induction fuel1 as [|f1 IH]; intros fuel2 l H1 H2.
  - destruct l; simpl in H1; [|lia]. now rewrite !windows_nil.
  - destruct l as [|x l]; [now rewrite !windows_nil|].
    destruct fuel2 as [|f2]; simpl in H2; [lia|].
    simpl windows. f_equal.
    apply IH; rewrite length_skipn; simpl in *; lia.
Qed.

Lemma windows_app_full fuel w (a l : list A) :
  0 < w -> length a = w -> windows (S fuel) w (a ++ l) = a :: windows fuel w l.
Proof.
  intros Hw Ha. destruct a as [|t ts]; [simpl in Ha; lia|].
  change ((t :: ts) ++ l) with (t :: (ts ++ l)). cbn [windows].
  change (t :: (ts ++ l)) with ((t :: ts) ++ l).
  rewrite firstn_app, skipn_app, Ha, Nat.sub_diag.
  rewrite firstn_all2, skipn_all2 by lia.
  simpl. now rewrite app_nil_r.
Qed.

Lemma concat_windows fuel w (l : list A) :
  0 < w -> length l <= fuel -> concat (windows fuel w l) = l.
Proof.
  intros Hw. revert l. induction fuel as [|f IH]; intros l Hl.
  - destruct l; simpl in *; [reflexivity|lia].
  - destruct l as [|x l]; [reflexivity|].
    simpl windows. simpl concat.
    rewrite IH; [apply firstn_skipn|].
    rewrite length_skipn. simpl in *. lia.
Qed.

Lemma windows_length_le fuel w (l : list A) :
  Forall (fun win => length win <= w) (windows fuel w l).
Proof.
  revert l. induction fuel as [|f IH]; intros l; [constructor|].
  destruct l as [|x l]; [constructor|].
  simpl windows. constructor; [|apply IH].
  rewrite length_firstn. lia.
Qed.

Lemma slice_window (l : list A) start w :
  slice l start (Nat.min (start + w) (length l)) = firstn w (skipn start l).
Proof.
  unfold slice.
  destruct (Nat.le_gt_cases (start + w) (length l)) as [H|H].
  - rewrite Nat.min_l by assumption. f_equal. lia.
  - rewrite Nat.min_r by lia.
    rewrite !firstn_all2; try reflexivity; rewrite length_skipn; lia.
Qed.

(** *** Batching *)

Lemma concat_group b (batch cs : list A) :
  concat (group b batch cs) = batch ++ cs.
Proof.
  revert batch. induction cs as [|c cs IH]; intros batch; simpl.
  - destruct batch; simpl; [reflexivity|]. now rewrite app_nil_r.
  - destruct (length (batch ++ [c]) =? b); simpl; rewrite IH;
      now rewrite <- ?app_assoc.
Qed.

Lemma group_sizes b (batch cs : list A) :
  length batch < b ->
  Forall (fun x => 1 <= length x <= b) (group b batch cs).
Proof.
  revert batch. induction cs as [|c cs IH]; intros batch Hb; simpl.
  - destruct batch; simpl; constructor; simpl in *; [lia|constructor].
  - destruct (Nat.eqb_spec (length (batch ++ [c])) b) as [E|E].
    + constructor; [rewrite length_app in *; simpl in *; lia|].
      apply IH. simpl. lia.
    + apply IH. rewrite length_app in *. simpl in *. lia.
Qed.

Lemma group_full b (batch cs : list A) :
  Forall (fun x => length x = b) (removelast (group b batch cs)).
Proof.
  revert batch. induction cs as [|c cs IH]; intros batch; simpl.
  - destruct (0 <? length batch); simpl; constructor.
  - destruct (Nat.eqb_spec (length (batch ++ [c])) b) as [E|E]; [|apply IH].
    specialize (IH []).
    destruct (group b [] cs) eqn:G; simpl; [constructor|].
    constructor; assumption.
Qed.

Lemma ceil_div_0 d : 0 < d -> ceil_div 0 d = 0.
Proof. intros. unfold ceil_div. apply Nat.div_small. lia. Qed.

Lemma ceil_div_small n d : 0 < n -> n <= d -> ceil_div n d = 1.
Proof.
  intros. unfold ceil_div.
  replace (n + d - 1) with ((n - 1) + 1 * d) by lia.
  rewrite Nat.div_add by lia. rewrite Nat.div_small by lia. reflexivity.
Qed.

Lemma ceil_div_add n d : 0 < d -> ceil_div (d + n) d = S (ceil_div n d).
Proof.
  intros. unfold ceil_div.
  replace (d + n + d - 1) with ((n + d - 1) + 1 * d) by lia.
  rewrite Nat.div_add by lia. lia.
Qed.

Lemma length_group b (batch cs : list A) :
  length batch < b ->
  length (group b batch cs) = ceil_div (length batch + length cs) b.
Proof.
  revert batch. induction cs as [|c cs IH]; intros batch Hb; simpl.
  - rewrite Nat.add_0_r. destruct batch; simpl.
    + symmetry. apply ceil_div_0. lia.
    + symmetry. apply ceil_div_small; simpl in *; lia.
  - destruct (Nat.eqb_spec (length (batch ++ [c])) b) as [E|E].
    + simpl. rewrite IH by (simpl; lia). simpl.
      rewrite length_app in E. simpl in E.
      replace (length batch + S (length cs)) with (b + length cs) by lia.
      symmetry. apply ceil_div_add. lia.
    + rewrite IH by (rewrite length_app in *; simpl in *; lia).
      rewrite length_app. simpl. f_equal. lia.
Qed.

End Lists.
Section Strings.
Context {Char : Type} (isWhiteSpace : Char -> bool) (space : Char).
Hypothesis space_ws : isWhiteSpace space = true.

#[local] Abbreviation wsfree := (wsfree isWhiteSpace).
#[local] Abbreviation allws := (allws isWhiteSpace).
#[local] Abbreviation ends_ok := (ends_ok isWhiteSpace).
#[local] Abbreviation token := (token isWhiteSpace).
#[local] Abbreviation tail_ok := (tail_ok isWhiteSpace).
#[local] Abbreviation shape := (shape isWhiteSpace).
#[local] Abbreviation trimStart := (trimStart isWhiteSpace).
#[local] Abbreviation trim := (trim isWhiteSpace).
#[local] Abbreviation join := (join space).
#[local] Abbreviation split_from := (split_from isWhiteSpace).
#[local] Abbreviation split_ws := (split_ws isWhiteSpace).
#[local] Abbreviation tokens := (tokens isWhiteSpace).

(** *** [trim] *)

Lemma trimStart_allws p x : allws p -> trimStart (p ++ x) = trimStart x.
Proof using Type.
  induction 1 as [|c p Hc _ IH]; simpl; [reflexivity|]. now rewrite Hc.
Qed.

Lemma trim_core sp1 m sp2 :
  allws sp1 -> allws sp2 -> ends_ok m -> trim (sp1 ++ m ++ sp2) = m.
Proof using Type.
  intros H1 H2 [-> | [(c & m' & -> & Hc) (m2 & c2 & E & Hc2)]]; unfold trim.
  - simpl. rewrite trimStart_allws by assumption.
    rewrite <- (app_nil_r sp2), trimStart_allws by assumption. reflexivity.
  - rewrite trimStart_allws by assumption.
    simpl. rewrite Hc. change (c :: m' ++ sp2) with ((c :: m') ++ sp2).
    rewrite E, rev_app_distr, trimStart_allws by now apply Forall_rev.
    rewrite rev_app_distr. simpl. rewrite Hc2. simpl.
    now rewrite rev_involutive.
Qed.

(** *** [join] *)

Lemma join_cons2 w w2 l : join (w :: w2 :: l) = w ++ space :: join (w2 :: l).
Proof using Type. reflexivity. Qed.

Lemma join_head_nonempty w l : w <> [] -> join (w :: l) <> [].
Proof using Type.
  intros Hw. destruct l; simpl; [assumption|].
  destruct w; [congruence|discriminate].
Qed.

Lemma token_last w : token w -> exists m c, w = m ++ [c] /\ isWhiteSpace c = false.
Proof using Type.
  intros [Hf Hn]. destruct (exists_last Hn) as (m & c & ->).
  exists m, c. split; [reflexivity|].
  apply Forall_app in Hf as [_ Hf]. now inversion Hf.
Qed.

Lemma token_first w : token w -> exists c m, w = c :: m /\ isWhiteSpace c = false.
Proof using Type.
  intros [Hf Hn]. destruct w as [|c m]; [congruence|].
  exists c, m. split; [reflexivity|]. now inversion Hf.
Qed.

Lemma join_tokens_ends l : Forall token l -> ends_ok (join l).
Proof using Type.
  induction 1 as [|w l Hw Hl IH]; [now left|]. right.
  destruct l as [|w2 l].
  - simpl. split; [now apply token_first|now apply token_last].
  - rewrite join_cons2. split.
    + destruct (token_first _ Hw) as (c & m & -> & Hc).
      exists c, (m ++ space :: join (w2 :: l)). now split.
    + destruct IH as [E|[_ (m & c & E & Hc)]].
      * exfalso. revert E. apply join_head_nonempty.
        inversion Hl as [|? ? [_ Hn] _]. exact Hn.
      * exists (w ++ space :: m), c. split; [|assumption].
        rewrite E. now rewrite <- app_assoc.
Qed.

Lemma join_app l1 l2 :
  l1 <> [] -> l2 <> [] -> join (l1 ++ l2) = join l1 ++ space :: join l2.
Proof using Type.
  intros H1 H2. induction l1 as [|w l1 IH]; [congruence|].
  destruct l1 as [|w2 l1].
  - simpl. destruct l2; [congruence|reflexivity].
  - change ((w :: w2 :: l1) ++ l2) with (w :: w2 :: (l1 ++ l2)).
    rewrite !join_cons2.
    change (w2 :: l1 ++ l2) with ((w2 :: l1) ++ l2).
    rewrite IH by discriminate. now rewrite <- app_assoc.
Qed.

Lemma truthy_join l : Forall token l -> truthy (join l) = nonnil l.
Proof using Type.
  intros H. destruct l as [|w l]; [reflexivity|].
  inversion H as [|? ? [_ Hn] _]; subst.
  pose proof (join_head_nonempty w l Hn) as J.
  destruct (join (w :: l)); [congruence|reflexivity].
Qed.

(** *** Words of the shape produced by [split] *)

Lemma tail_ok_wsfree l : tail_ok l -> Forall wsfree l.
Proof using Type.
  induction l as [|w l IH]; simpl; [constructor|].
  intros (Hw & _ & Hl). constructor; auto.
Qed.

Lemma shape_wsfree l : shape l -> Forall wsfree l.
Proof using Type.
  destruct l as [|w l]; simpl; [constructor|].
  intros (Hw & Hl). constructor; [assumption|now apply tail_ok_wsfree].
Qed.

Lemma tail_ok_shape l : tail_ok l -> shape l.
Proof using Type. destruct l; simpl; tauto. Qed.

Lemma filter_truthy_tokens l :
  Forall wsfree l -> Forall token (List.filter truthy l).
Proof using Type.
  induction 1 as [|w l Hw _ IH]; simpl; [constructor|].
  destruct w; simpl; [assumption|]. constructor; [|assumption].
  split; [assumption|discriminate].
Qed.

Lemma join_tail_ok l :
  tail_ok l ->
  exists sp2, allws sp2 /\ join l = join (List.filter truthy l) ++ sp2.
Proof using space_ws.
  induction l as [|w l IH]; simpl tail_ok.
  - intros _. exists []. split; [constructor|reflexivity].
  - intros (Hw & Hne & Hl). destruct l as [|w2 l].
    + exists []. split; [constructor|]. destruct w; simpl; now rewrite ?app_nil_r.
    + destruct Hne as [Hne|?]; [|discriminate].
      destruct (IH Hl) as (sp2 & Hsp & E).
      rewrite join_cons2, E.
      destruct w as [|c w]; [congruence|].
      change (List.filter truthy ((c :: w) :: w2 :: l))
        with ((c :: w) :: List.filter truthy (w2 :: l)).
      destruct (List.filter truthy (w2 :: l)) as [|t ts].
      * exists (space :: sp2). split; [now constructor|reflexivity].
      * exists sp2. split; [assumption|].
        rewrite join_cons2. now rewrite <- !app_assoc.
Qed.

Lemma trim_join_shape l :
  shape l -> trim (join l) = join (List.filter truthy l).
Proof using space_ws.
  intros Hs.
  assert (Hends : ends_ok (join (List.filter truthy l))).
  { apply join_tokens_ends, filter_truthy_tokens, shape_wsfree, Hs. }
  destruct l as [|w l]; [reflexivity|]. destruct Hs as (Hw & Hl).
  destruct w as [|c w].
  - destruct l as [|w2 l]; [reflexivity|].
    destruct (join_tail_ok _ Hl) as (sp2 & Hsp & E).
    rewrite join_cons2, E.
    change (List.filter truthy ([] :: w2 :: l)) with (List.filter truthy (w2 :: l)) in *.
    change ([] ++ space :: join (List.filter truthy (w2 :: l)) ++ sp2)
      with ([space] ++ join (List.filter truthy (w2 :: l)) ++ sp2).
    apply trim_core; [now repeat constructor|assumption|assumption].
  - assert (Hl' : tail_ok ((c :: w) :: l)).
    { simpl. split; [assumption|]. split; [left; discriminate|assumption]. }
    destruct (join_tail_ok _ Hl') as (sp2 & Hsp & E).
    rewrite E. apply (trim_core [] _ sp2); [constructor|assumption|assumption].
Qed.

Lemma tail_ok_firstn n l : tail_ok l -> tail_ok (firstn n l).
Proof using Type.
  revert n. induction l as [|w l IH]; intros [|n]; simpl; try tauto.
  intros (Hw & Hne & Hl). split; [assumption|]. split; [|now apply IH].
  destruct Hne as [? | ->]; [now left|right]. now destruct n.
Qed.

Lemma tail_ok_skipn n l : tail_ok l -> tail_ok (skipn n l).
Proof using Type.
  revert l. induction n as [|n IH]; intros [|w l]; simpl; try tauto.
  intros (_ & _ & Hl). now apply IH.
Qed.

Lemma shape_firstn n l : shape l -> shape (firstn n l).
Proof using Type.
  destruct l as [|w l], n as [|n]; simpl; try tauto.
  intros (Hw & Hl). split; [assumption|now apply tail_ok_firstn].
Qed.

Lemma shape_skipn n l : shape l -> shape (skipn n l).
Proof using Type.
  destruct l as [|w l], n as [|n]; simpl; try tauto.
  intros (_ & Hl). now apply tail_ok_shape, tail_ok_skipn.
Qed.

Lemma windows_shape fuel w l : shape l -> Forall shape (windows fuel w l).
Proof using Type.
  revert l. induction fuel as [|f IH]; intros l Hs; [constructor|].
  destruct l as [|x l]; [constructor|]. simpl windows.
  constructor; [now apply shape_firstn|now apply IH, shape_skipn].
Qed.

(** *** From windows to token groups *)

Lemma pieces_parts wins :
  Forall shape wins ->
  List.filter truthy (map (fun win => trim (join win)) wins)
  = map join (List.filter nonnil (map (List.filter truthy) wins)).
Proof using space_ws.
  induction 1 as [|win wins Hwin _ IH]; [reflexivity|]. simpl.
  rewrite trim_join_shape by assumption.
  rewrite truthy_join by now apply filter_truthy_tokens, shape_wsfree.
  destruct (nonnil (List.filter truthy win)); simpl; now rewrite IH.
Qed.

Lemma concat_filter_nonnil {X} (ls : list (list X)) :
  concat (List.filter nonnil ls) = concat ls.
Proof using Type.
  induction ls as [|l ls IH]; [reflexivity|].
  destruct l; simpl; now rewrite IH.
Qed.

Lemma concat_map_filter {X} (f : X -> bool) (ls : list (list X)) :
  concat (map (List.filter f) ls) = List.filter f (concat ls).
Proof using Type.
  induction ls as [|l ls IH]; [reflexivity|].
  simpl. now rewrite List.filter_app, IH.
Qed.

Lemma concat_parts fuel w (words : list (list Char)) :
  0 < w -> length words <= fuel ->
  concat (parts fuel w words) = List.filter truthy words.
Proof using Type.
  intros Hw Hf. unfold parts.
  now rewrite concat_filter_nonnil, concat_map_filter, concat_windows.
Qed.

Lemma parts_sizes fuel w (words : list (list Char)) :
  Forall (fun p => 1 <= length p <= w) (parts fuel w words).
Proof using Type.
  unfold parts.
  induction (windows_length_le fuel w words) as [|win wins Hlen _ IH];
    [constructor|].
  simpl. pose proof (List.filter_length_le truthy win) as Hle.
  destruct (List.filter truthy win) as [|t ts] eqn:E; simpl; [assumption|].
  constructor; [|assumption]. simpl in Hle. simpl. lia.
Qed.

Lemma join_concat (ps : list (list (list Char))) :
  Forall (fun p => p <> []) ps -> join (map join ps) = join (concat ps).
Proof using Type.
  induction 1 as [|p ps Hp Hps IH]; [reflexivity|].
  destruct ps as [|p2 ps].
  - simpl. now rewrite app_nil_r.
  - change (map join (p :: p2 :: ps)) with (join p :: join p2 :: map join ps).
    rewrite join_cons2.
    change (join p2 :: map join ps) with (map join (p2 :: ps)).
    rewrite IH.
    change (concat (p :: p2 :: ps)) with (p ++ concat (p2 :: ps)).
    rewrite join_app; [reflexivity|assumption|].
    inversion Hps; subst. destruct p2; [congruence|discriminate].
Qed.

(** *** The result of [split] *)

Lemma split_from_shape s b :
  exists w ws, split_from b s = w :: ws /\ wsfree w /\ tail_ok ws /\
    (b = true -> w <> [] \/ ws = []) /\
    (Chunker.no_leading_ws isWhiteSpace s -> s <> [] -> w <> []).
Proof using Type.
  revert b. induction s as [|c s IH]; intros b.
  - exists [], []. simpl.
    split; [reflexivity|]. split; [constructor|]. split; [exact I|].
    split; [intros _; now right|congruence].
  - simpl. destruct (isWhiteSpace c) eqn:Hc.
    + destruct (IH true) as (w & ws & E & Hw & Hws & Hb & _).
      destruct b.
      * exists w, ws. split; [assumption|]. split; [assumption|].
        split; [assumption|]. split; [assumption|discriminate].
      * exists [], (w :: ws). rewrite E.
        split; [reflexivity|]. split; [constructor|].
        split; [simpl; auto|]. split; discriminate.
    + destruct (IH false) as (w & ws & E & Hw & Hws & _ & _).
      exists (c :: w), ws. rewrite E.
      split; [reflexivity|]. split; [now constructor|].
      split; [assumption|]. split; [intros _; left; discriminate|].
      intros _ _. discriminate.
Qed.

Lemma split_ws_shape s : shape (split_ws s).
Proof using Type.
  unfold Chunker.split_ws.
  destruct (split_from_shape s false) as (w & ws & -> & Hw & Hws & _).
  simpl. tauto.
Qed.

Lemma split_ws_tail_ok s :
  Chunker.no_leading_ws isWhiteSpace s -> tail_ok (split_ws s).
Proof using Type.
  intros Hs. unfold Chunker.split_ws.
  destruct (split_from_shape s false) as (w & ws & E & Hw & Hws & _ & Hne).
  rewrite E. destruct s as [|c s].
  - simpl in E. injection E as <- <-. simpl. auto.
  - simpl. split; [assumption|]. split; [|assumption].
    left. apply Hne; [assumption|discriminate].
Qed.

Lemma length_split_from s b : length (split_from b s) <= S (length s).
Proof using Type.
  revert b. induction s as [|c s IH]; intros b; simpl; [lia|].
  destruct (isWhiteSpace c).
  - destruct b; [specialize (IH true); lia|]. simpl. specialize (IH true). lia.
  - specialize (IH false). destruct (split_from false s); simpl in *; lia.
Qed.

Lemma split_from_tokens s b : List.filter truthy (split_from b s) = tokens s.
Proof using Type.
  revert b. induction s as [|c s IH]; intros b; [reflexivity|].
  cbn [Chunker.split_from Chunker.tokens].
  destruct (isWhiteSpace c) eqn:Hc.
  - destruct b; [apply IH|]. simpl. apply IH.
  - specialize (IH false). destruct s as [|c' s'].
    + reflexivity.
    + revert IH. cbn [Chunker.split_from].
      destruct (isWhiteSpace c') eqn:Hc'.
      * simpl. intros IH. now rewrite IH.
      * destruct (Chunker.split_from isWhiteSpace false s') as [|w0 ws0];
          simpl; intros <-; reflexivity.
Qed.

(** *** Number of token groups when the text has no leading whitespace *)

Lemma tail_ok_firstn_full n l :
  tail_ok l -> skipn n l <> [] ->
  List.filter truthy (firstn n l) = firstn n l /\ length (firstn n l) = n.
Proof using Type.
  revert l. induction n as [|n IH]; intros l Hl Hs; [now split|].
  destruct l as [|a l]; [now contradiction Hs|].
  destruct Hl as (_ & Hne & Hl). simpl in Hs.
  destruct (IH l Hl Hs) as [E1 E2].
  assert (Ha : a <> []).
  { destruct Hne as [?| ->]; [assumption|]. now rewrite skipn_nil in Hs. }
  simpl. destruct a as [|c a]; [congruence|]. simpl.
  now rewrite E1, E2.
Qed.

Lemma length_parts fuel w words :
  tail_ok words -> 0 < w -> length words <= fuel ->
  length (parts fuel w words)
  = ceil_div (length (List.filter truthy words)) w.
Proof using Type.
  intros Hok Hw. revert words Hok.
  induction fuel as [|f IH]; intros words Hok Hf.
  - destruct words; simpl in Hf; [|lia]. symmetry. now apply ceil_div_0.
  - destruct words as [|x l]; [symmetry; now apply ceil_div_0|].
    unfold parts. simpl windows.
    remember (x :: l) as l0 eqn:El0.
    destruct (skipn w l0) as [|y r] eqn:E.
    + assert (E' : firstn w l0 = l0).
      { rewrite <- (firstn_skipn w l0) at 2. now rewrite E, app_nil_r. }
      rewrite E', windows_nil. simpl.
      assert (Hlen : length l0 <= w).
      { rewrite <- E', length_firstn. lia. }
      pose proof (List.filter_length_le truthy l0) as Hle.
      destruct (List.filter truthy l0) as [|t ts]; simpl.
      * symmetry. now apply ceil_div_0.
      * symmetry. apply ceil_div_small; simpl in *; lia.
    + assert (Hs : skipn w l0 <> []) by (rewrite E; discriminate).
      destruct (tail_ok_firstn_full w l0 Hok Hs) as [E1 E2].
      rewrite <- E. simpl. rewrite E1.
      assert (Hnn : nonnil (firstn w l0) = true).
      { destruct (firstn w l0); simpl in *; [lia|reflexivity]. }
      rewrite Hnn. simpl. fold (parts f w (skipn w l0)).
      rewrite IH; [|now apply tail_ok_skipn|].
      * rewrite <- (firstn_skipn w l0) at 2.
        rewrite List.filter_app, length_app, E1, E2.
        symmetry. now apply ceil_div_add.
      * rewrite length_skipn. subst l0. simpl in *. lia.
Qed.

(** *** Chunk records *)

Context (uuidv4 : nat -> string) (clock : nat -> Z).

#[local] Abbreviation number := (number uuidv4 clock).
#[local] Abbreviation stream_loop := (stream_loop isWhiteSpace space uuidv4 clock).
#[local] Abbreviation streamChunksFromFile :=
  (streamChunksFromFile isWhiteSpace space uuidv4 clock).

Lemma map_content_number file idx (cs : list (list Char)) :
  map content (number file idx cs) = cs.
Proof using Type.
  revert idx. induction cs as [|c cs IH]; intros idx; simpl; [reflexivity|].
  now rewrite IH.
Qed.

Lemma map_index_number file idx (cs : list (list Char)) :
  map chunkIndex (number file idx cs) = seq idx (length cs).
Proof using Type.
  revert idx. induction cs as [|c cs IH]; intros idx; simpl; [reflexivity|].
  now rewrite IH.
Qed.

Lemma length_number file idx (cs : list (list Char)) :
  length (number file idx cs) = length cs.
Proof using Type.
  revert idx. induction cs as [|c cs IH]; intros idx; simpl; [reflexivity|].
  now rewrite IH.
Qed.

(** *** The loop computes [group] of the numbered [pieces] *)

Lemma stream_loop_spec fuel words file w b :
  0 < w -> 0 < b ->
  forall start batch idx,
  length batch < b -> length words - start <= fuel ->
  stream_loop fuel words file w b start batch idx
  = Some (group b batch
            (number file idx
               (pieces isWhiteSpace space fuel w (skipn start words)))).
Proof using Type.
  intros Hw Hb. unfold pieces.
  induction fuel as [|f IH]; intros start batch idx Hbatch Hfuel.
  - assert (E : (start <? length words) = false) by (apply Nat.ltb_ge; lia).
    simpl. now rewrite E.
  - cbn [stream_loop]. destruct (Nat.ltb_spec start (length words)) as [Hlt|Hge].
    + rewrite slice_window.
      assert (Hrest : skipn start words <> []).
      { intros E. apply (f_equal (@length _)) in E.
        rewrite length_skipn in E. simpl in E. lia. }
      destruct (skipn start words) as [|x rest] eqn:E; [congruence|].
      cbn [windows map List.filter]. rewrite <- E.
      assert (E2 : skipn w (skipn start words) = skipn (start + w) words).
      { rewrite skipn_skipn. f_equal. lia. }
      rewrite E2.
      destruct (truthy (trim (join (firstn w (skipn start words))))).
      * cbn [number group].
        destruct (Nat.eqb_spec
          (length (batch ++ [mkChunk (uuidv4 idx)
                               (trim (join (firstn w (skipn start words))))
                               file file idx (clock idx)])) b) as [Eb|Eb].
        -- rewrite IH; [reflexivity|simpl; lia|lia].
        -- rewrite IH; [reflexivity| |lia].
           rewrite length_app in *. simpl in *. lia.
      * destruct (Nat.eqb_spec (length batch) b) as [Eb|Eb]; [lia|].
        apply IH; [assumption|lia].
    + rewrite skipn_all2 by lia. reflexivity.
Qed.

(** X1.  Behaviour of the generator on every text.  For window size [w > 0] and
    batch size [b > 0] the generator terminates and yields batches such
    that: every batch holds between 1 and [b] chunks and every batch but the
    last holds exactly [b]; there are [ceil(chunks / b)] batches; the
    [chunkIndex] fields are 0, 1, 2, ... in order; the chunk texts are the
    single-space joins of consecutive groups of at most [w] tokens that
    partition the token sequence; joining all chunk texts with single spaces
    gives the join of the tokens; and, when the text does not begin with
    whitespace, the number of chunks is [ceil(N / w)] for [N] tokens. *)
Theorem stream_chunks_spec (text : list Char) (file : string) (w b fuel : nat) :
  0 < w -> 0 < b -> length text < fuel ->
  exists batches,
    streamChunksFromFile fuel text file w b = Some batches /\
    Forall (fun bt => 1 <= length bt <= b) batches /\
    Forall (fun bt => length bt = b) (removelast batches) /\
    length batches = ceil_div (length (concat batches)) b /\
    map chunkIndex (concat batches) = seq 0 (length (concat batches)) /\
    (exists groups,
        concat groups = tokens text /\
        Forall (fun g => 1 <= length g <= w) groups /\
        map content (concat batches) = map join groups) /\
    join (map content (concat batches)) = join (tokens text) /\
    (Chunker.no_leading_ws isWhiteSpace text ->
       length (concat batches) = ceil_div (length (tokens text)) w).
Proof using space_ws.
  intros Hw Hb Hfuel.
  assert (Hlen : length (split_ws text) <= fuel).
  { pose proof (length_split_from text false). unfold Chunker.split_ws. lia. }
  unfold Chunker.streamChunksFromFile.
  rewrite stream_loop_spec by (simpl; lia).
  rewrite skipn_O.
  set (cs := pieces isWhiteSpace space fuel w (split_ws text)).
  assert (Ecs : cs = map join (parts fuel w (split_ws text))).
  { apply pieces_parts, windows_shape, split_ws_shape. }
  assert (Etok : List.filter truthy (split_ws text) = tokens text)
    by apply split_from_tokens.
  eexists. split; [reflexivity|].
  rewrite concat_group. simpl app.
  rewrite map_content_number, map_index_number, length_number.
  split; [apply group_sizes; simpl; lia|].
  split; [apply group_full|].
  split; [rewrite length_group, length_number by (simpl; lia); reflexivity|].
  split; [reflexivity|].
  split.
  { exists (parts fuel w (split_ws text)).
    split; [now rewrite concat_parts, Etok|].
    split; [apply parts_sizes|exact Ecs]. }
  split.
  { rewrite Ecs, join_concat.
    - now rewrite concat_parts, Etok.
    - eapply List.Forall_impl; [|apply (parts_sizes fuel w)].
      intros g [Hg _] ->. simpl in Hg. lia. }
  intros Hlead. rewrite Ecs, length_map.
  rewrite length_parts, Etok; [reflexivity| |assumption|assumption].
  now apply split_ws_tail_ok.
Qed.

(** *** Further properties of the generator *)

Lemma stream_chunks_group (text : list Char) (file : string) (w b fuel : nat) :
  0 < w -> 0 < b -> length text < fuel ->
  streamChunksFromFile fuel text file w b
  = Some (group b []
            (number file 0 (pieces isWhiteSpace space fuel w (split_ws text)))).
Proof using Type.
  intros Hw Hb Hfuel.
  assert (Hlen : length (split_ws text) <= fuel).
  { pose proof (length_split_from text false). unfold Chunker.split_ws. lia. }
  unfold Chunker.streamChunksFromFile.
  rewrite stream_loop_spec by (simpl; lia). now rewrite skipn_O.
Qed.

Lemma stream_chunks_sizes (text : list Char) (file : string) (w b fuel : nat) :
  0 < w -> 0 < b -> length text < fuel ->
  exists batches,
    streamChunksFromFile fuel text file w b = Some batches /\
    Forall (fun bt => 1 <= length bt <= b) batches.
Proof using Type.
  intros Hw Hb Hfuel. eexists. split; [now apply stream_chunks_group|].
  apply group_sizes. simpl. lia.
Qed.

Lemma parts_windows fuel w words :
  tail_ok words -> 0 < w -> length words <= fuel ->
  parts fuel w words = windows fuel w (List.filter truthy words).
Proof using Type.
  intros Hok Hw. revert words Hok.
  induction fuel as [|f IH]; intros words Hok Hf.
  - destruct words; simpl in Hf; [reflexivity|lia].
  - destruct words as [|x l]; [reflexivity|].
    unfold parts. simpl windows at 1.
    remember (x :: l) as l0 eqn:El0.
    destruct (skipn w l0) as [|y r] eqn:E.
    + assert (E' : firstn w l0 = l0).
      { rewrite <- (firstn_skipn w l0) at 2. now rewrite E, app_nil_r. }
      rewrite E', windows_nil. simpl.
      assert (Hlen : length l0 <= w).
      { rewrite <- E', length_firstn. lia. }
      pose proof (List.filter_length_le truthy l0) as Hle.
      destruct (List.filter truthy l0) as [|t ts] eqn:Et; [reflexivity|].
      simpl nonnil. cbn iota. simpl windows.
      rewrite firstn_all2, skipn_all2, windows_nil by (simpl in *; lia).
      reflexivity.
    + assert (Hs : skipn w l0 <> []) by (rewrite E; discriminate).
      destruct (tail_ok_firstn_full w l0 Hok Hs) as [E1 E2].
      rewrite <- E. cbn [map List.filter]. rewrite E1.
      assert (Hnn : nonnil (firstn w l0) = true).
      { destruct (firstn w l0); simpl in *; [lia|reflexivity]. }
      rewrite Hnn. fold (parts f w (skipn w l0)).
      rewrite IH;
        [|now apply tail_ok_skipn|rewrite length_skipn; subst l0; simpl in *; lia].
      assert (Etoks : List.filter truthy l0
                      = firstn w l0 ++ List.filter truthy (skipn w l0)).
      { rewrite <- (firstn_skipn w l0) at 1. now rewrite List.filter_app, E1. }
      rewrite Etoks. now rewrite windows_app_full.
Qed.

(** X2.  For a text that does not begin with whitespace, the chunk texts
    are exactly the single-space joins of the consecutive windows of [w]
    tokens: chunk [i] holds tokens [i*w] to [i*w + w - 1] (fewer in the last
    chunk). *)
Theorem stream_chunks_exact (text : list Char) (file : string) (w b fuel : nat) :
  Chunker.no_leading_ws isWhiteSpace text ->
  0 < w -> 0 < b -> length text < fuel ->
  exists batches,
    streamChunksFromFile fuel text file w b = Some batches /\
    map content (concat batches)
    = map join (windows (length (tokens text)) w (tokens text)).
Proof using space_ws.
  intros Hlead Hw Hb Hfuel.
  assert (Hlen : length (split_ws text) <= fuel).
  { pose proof (length_split_from text false). unfold Chunker.split_ws. lia. }
  unfold Chunker.streamChunksFromFile.
  rewrite stream_loop_spec by (simpl; lia).
  rewrite skipn_O. eexists. split; [reflexivity|].
  rewrite concat_group. simpl app. rewrite map_content_number.
  unfold pieces. rewrite pieces_parts by apply windows_shape, split_ws_shape.
  fold (parts fuel w (split_ws text)).
  rewrite parts_windows by (try assumption; now apply split_ws_tail_ok).
  assert (Etok : List.filter truthy (split_ws text) = tokens text)
    by apply split_from_tokens.
  rewrite Etok. f_equal. apply windows_fuel; [assumption| |lia].
  rewrite <- Etok. pose proof (List.filter_length_le truthy (split_ws text)). lia.
Qed.

Lemma stream_loop_zero_window fuel x ws file b batch idx :
  stream_loop fuel (x :: ws) file 0 b 0 batch idx = None.
Proof using Type.
  revert batch idx. induction fuel as [|f IH]; intros batch idx; [reflexivity|].
  cbn [Chunker.stream_loop]. simpl Nat.ltb. cbn iota.
  unfold slice. simpl.
  destruct (length batch =? b); [|apply IH].
  now rewrite IH.
Qed.

(** X3.  With a window size of 0 the loop of the generator never exits:
    [startIndex] stays 0, which is below the number of words (at least one),
    so no bound on the number of iterations is enough. *)
Theorem stream_chunks_zero_window (text : list Char) (file : string) (b fuel : nat) :
  streamChunksFromFile fuel text file 0 b = None.
Proof using Type.
  unfold Chunker.streamChunksFromFile, Chunker.split_ws.
  destruct (split_from_shape text false) as (x & ws & -> & _).
  apply stream_loop_zero_window.
Qed.

(** X4.  A text without any token (empty or whitespace only) yields no
    batch at all: the empty chunks are dropped and no empty batch is
    yielded. *)
Theorem stream_chunks_blank (text : list Char) (file : string) (w b fuel : nat) :
  tokens text = [] ->
  0 < w -> 0 < b -> length text < fuel ->
  streamChunksFromFile fuel text file w b = Some [].
Proof using space_ws.
  intros Hblank Hw Hb Hfuel.
  assert (Hlen : length (split_ws text) <= fuel).
  { pose proof (length_split_from text false). unfold Chunker.split_ws. lia. }
  unfold Chunker.streamChunksFromFile.
  rewrite stream_loop_spec by (simpl; lia).
  rewrite skipn_O. unfold pieces.
  rewrite pieces_parts by apply windows_shape, split_ws_shape.
  fold (parts fuel w (split_ws text)).
  assert (Hconcat : concat (parts fuel w (split_ws text)) = []).
  { rewrite concat_parts by assumption.
    rewrite <- Hblank. apply split_from_tokens. }
  pose proof (parts_sizes fuel w (split_ws text)) as Hsizes.
  destruct (parts fuel w (split_ws text)) as [|g gs]; [reflexivity|].
  inversion Hsizes as [|? ? [Hg _] _]; subst.
  destruct g; [simpl in Hg; lia|discriminate].
Qed.

End Strings.

Lemma stream_chunks_exact_witness :
  exists batches,
    stream_ascii 20 "a b c d e " "f.md" 2 2 = Some batches /\
    map content (concat batches) = [chars "a b"; chars "c d"; chars "e"].
Proof.
  destruct (stream_chunks_exact ascii_ws " "%char eq_refl show_nat Z.of_nat
              (chars "a b c d e ") "f.md" 2 2 20)
    as (batches & E & Hc); [reflexivity|lia|lia|vm_compute; lia|].
  exists batches. split; [exact E|]. rewrite Hc. reflexivity.
Defined.

Lemma stream_chunks_blank_witness :
  stream_ascii 20 "    " "f.md" 2 2 = Some [].
Proof.
  apply (stream_chunks_blank ascii_ws " "%char eq_refl show_nat Z.of_nat
           (chars "    ") "f.md" 2 2 20);
    [reflexivity|lia|lia|vm_compute; lia].
Defined.

(** C1.  A text that begins with whitespace yields more chunks than
    [ceil(N / w)]: [split] gives an empty first word, which takes a slot of
    the first window.  The text " a b" has two tokens; with window size 2
    (and batch size 3) the generator yields two chunks, "a" and "b", in one
    batch, whereas [ceil(2/2) = 1]. *)
Lemma stream_chunks_leading_blank :
  exists batches,
    stream_ascii 10 " a b" "f.md" 2 3 = Some batches /\
    map (map content) batches = [[chars "a"; chars "b"]] /\
    length (tokens ascii_ws (chars " a b")) = 2 /\
    length (concat batches) = 2 /\
    length (concat batches) <> ceil_div (length (tokens ascii_ws (chars " a b"))) 2.
Proof.
  eexists. split; [vm_compute; reflexivity|].
  split; [reflexivity|].
  split; [reflexivity|]. split; [reflexivity|]. vm_compute. discriminate.
Qed.

Lemma stream_chunks_spec_witness :
  exists batches,
    stream_ascii 20 "a b c d e " "f.md" 2 2 = Some batches /\
    length batches = 2 /\
    length (concat batches) = ceil_div (length (tokens ascii_ws (chars "a b c d e "))) 2.
Proof.
  destruct (stream_chunks_spec ascii_ws " "%char eq_refl show_nat Z.of_nat
              (chars "a b c d e ") "f.md" 2 2 20)
    as (batches & E & _ & _ & Hn & _ & _ & _ & Hc);
    [lia|lia|vm_compute; lia|].
  exists batches. split; [exact E|].
  split; [|apply Hc; reflexivity].
  vm_compute in E. injection E as <-. reflexivity.
Defined.

End ChunkerFacts.

(* --------------------------------------------------------------------- *)
(** ** Session memory                                                     *)
(* --------------------------------------------------------------------- *)

Module MemoryFacts.
Import Memory.

Lemma lastn_all {A} n (l : list A) : length l <= n -> lastn n l = l.
Proof.
  intros H. unfold lastn. replace (length l - n) with 0 by lia. reflexivity.
Qed.

Lemma length_lastn {A} n (l : list A) : length (lastn n l) = Nat.min n (length l).
Proof. unfold lastn. rewrite length_skipn. lia. Qed.

Lemma slice_last_lastn {A} n (l : list A) : 1 <= n -> slice_last l n = lastn n l.
Proof. intros H. destruct n; [lia|reflexivity]. Qed.

Lemma lastn_snoc {A} n (l : list A) x :
  1 <= n -> lastn n (lastn n l ++ [x]) = lastn n (l ++ [x]).
Proof.
  intros Hn.
  destruct (Nat.le_gt_cases (length l) n) as [H|H].
  - now rewrite (lastn_all n l).
  - unfold lastn. rewrite !length_app, !length_skipn, !skipn_app, !length_skipn.
    simpl length. rewrite skipn_skipn.
    f_equal; f_equal; lia.
Qed.

Lemma length_gt_nat (n m : nat) : length_gt n m = (m <? n).
Proof.
  unfold length_gt, num_of_nat, Qle_bool. cbn [Qnum Qden inject_Z].
  rewrite !Z.mul_1_r.
  destruct (Z.leb_spec (Z.of_nat n) (Z.of_nat m)), (Nat.ltb_spec m n);
    simpl; try reflexivity; lia.
Qed.

Lemma truncate_opp_nat (m : nat) :
  truncate (- inject_Z (Z.of_nat m)) = (- Z.of_nat m)%Z.
Proof. unfold truncate. cbn [Qopp Qnum Qden inject_Z]. apply Z.quot_1_r. Qed.

Lemma slice_neg_nat {A} (a : list A) (m : nat) : slice_neg a m = slice_last a m.
Proof.
  unfold slice_neg, num_of_nat. rewrite truncate_opp_nat. cbv zeta.
  destruct m as [|m].
  - cbn [Z.of_nat Z.opp Z.ltb Z.compare slice_last].
    rewrite Z.min_l by lia. reflexivity.
  - destruct (Z.ltb_spec (- Z.of_nat (S m)) 0); [|lia].
    cbn [slice_last]. f_equal. lia.
Qed.

(** The messages kept by one [addMessage] call, for a positive bound. *)
Lemma kept_lastn (m : nat) (pushed : list MemoryMessage) :
  1 <= m ->
  (if length_gt (length pushed) m then slice_neg pushed m else pushed)
  = lastn m pushed.
Proof.
  intros Hm. rewrite length_gt_nat, slice_neg_nat.
  destruct (Nat.ltb_spec m (length pushed)).
  - now apply slice_last_lastn.
  - symmetry. now apply lastn_all.
Qed.

Lemma run_calls_snoc cfgMax calls c :
  run_calls cfgMax (calls ++ [c])
  = addMessage cfgMax (call_reads c) (run_calls cfgMax calls)
      (call_sid c) (call_role c) (call_content c).
Proof. unfold run_calls. now rewrite foldl_app. Qed.

Lemma calls_on_snoc sid calls c :
  calls_on sid (calls ++ [c])
  = calls_on sid calls ++ (if String.eqb (call_sid c) sid then [c] else []).
Proof.
  unfold calls_on. rewrite List.filter_app. simpl.
  now destruct (String.eqb (call_sid c) sid).
Qed.

(** State of a session after a sequence of calls: absent exactly when no
    call addressed it; otherwise it holds the last [cfgMax] messages
    appended to it. *)
Lemma run_calls_inv cfgMax calls sid :
  1 <= cfgMax ->
  match run_calls cfgMax calls !! sid with
  | None => calls_on sid calls = []
  | Some s =>
      calls_on sid calls <> [] /\ maxMessages s = cfgMax /\
      messages s = lastn cfgMax (map message_of (calls_on sid calls))
  end.
Proof.
  intros Hm. induction calls as [|c calls IH] using rev_ind.
  - unfold run_calls. simpl. now rewrite lookup_empty.
  - rewrite run_calls_snoc, calls_on_snoc. unfold addMessage.
    destruct (String.eqb_spec (call_sid c) sid) as [->|Hne].
    + rewrite lookup_insert_eq. cbn [messages maxMessages].
      destruct (run_calls cfgMax calls !! sid) as [s|].
      * destruct IH as (Hne & HM & Hmsgs).
        split; [now destruct (calls_on sid calls)|].
        split; [assumption|].
        rewrite HM, kept_lastn, Hmsgs, map_app by assumption.
        now apply lastn_snoc.
      * rewrite IH. cbn [messages maxMessages app].
        split; [discriminate|]. split; [reflexivity|].
        now rewrite kept_lastn.
    + rewrite lookup_insert_ne by assumption. now rewrite app_nil_r.
Qed.

(** X9.  For a configured maximum [cfgMax >= 1]: after any sequence of
    [addMessage] calls, every session that was addressed holds at most
    [cfgMax] messages, namely the most recent [min(total, cfgMax)] of the
    messages appended to it, in append order. *)
Theorem add_message_keeps_last (cfgMax : nat) (calls : list AddCall) (sid : string) :
  1 <= cfgMax ->
  calls_on sid calls <> [] ->
  exists s,
    run_calls cfgMax calls !! sid = Some s /\
    length (messages s) <= cfgMax /\
    messages s
    = lastn (Nat.min (length (calls_on sid calls)) cfgMax)
        (map message_of (calls_on sid calls)).
Proof.
  intros Hm Hne. pose proof (run_calls_inv cfgMax calls sid Hm) as H.
  destruct (run_calls cfgMax calls !! sid) as [s|]; [|congruence].
  destruct H as (_ & _ & E). exists s. split; [reflexivity|].
  rewrite E. split; [rewrite length_lastn; lia|].
  unfold lastn. f_equal. rewrite length_map. lia.
Qed.

Lemma add_message_keeps_last_witness :
  exists s,
    run_calls 2
      [mkCall "s1" user "a" (mkReads "u1" 1 1 1);
       mkCall "s2" user "x" (mkReads "u2" 2 2 2);
       mkCall "s1" assistant "b" (mkReads "u3" 3 3 3);
       mkCall "s1" user "c" (mkReads "u4" 4 4 4)] !! "s1"
    = Some s /\
    map content (messages s) = ["b"; "c"]%string.
Proof.
  destruct (add_message_keeps_last 2
    [mkCall "s1" user "a" (mkReads "u1" 1 1 1);
       mkCall "s2" user "x" (mkReads "u2" 2 2 2);
     mkCall "s1" assistant "b" (mkReads "u3" 3 3 3);
       mkCall "s1" user "c" (mkReads "u4" 4 4 4)] "s1")
    as (s & E & _ & Hs); [lia|discriminate|].
  exists s. split; [exact E|]. rewrite Hs. reflexivity.
Defined.

(** C2.  With a configured maximum of 0 the bound on the number of
    messages is not enforced: the comment in [addMessage] says "keep only
    the last N messages", but [messages.slice(-0)] is [messages.slice(0)],
    the whole array, so after one call the session holds one message, which
    is more than 0. *)
Lemma add_message_zero_bound :
  exists s,
    run_calls 0 [mkCall "s1" user "a" (mkReads "u1" 1 1 1)] !! "s1" = Some s /\
    length (messages s) = 1 /\ ~ length (messages s) <= 0.
Proof.
  unfold run_calls, addMessage. cbn [foldl call_sid]. rewrite lookup_empty.
  eexists. split; [apply lookup_insert_eq|].
  simpl. split; [reflexivity|lia].
Qed.

(** *** Summaries *)

Lemma getMemory_sessions now (sessions : Sessions) sid :
  fst (getMemory now sessions sid)
  = match sessions !! sid with
    | Some s => <[sid := touch now s]> sessions
    | None => sessions
    end.
Proof. unfold getMemory. now destruct (sessions !! sid). Qed.

Lemma getSummary_sessions touched now (sessions : Sessions) sid n :
  fst (getSummary touched now sessions sid n)
  = fst (getMemory touched sessions sid).
Proof. unfold getSummary, getMemory. now destruct (sessions !! sid). Qed.

Lemma getFormattedSummary_sessions touched now (sessions : Sessions) sid n :
  fst (getFormattedSummary touched now sessions sid n)
  = fst (getSummary touched now sessions sid n).
Proof.
  unfold getFormattedSummary.
  destruct (getSummary touched now sessions sid n) as [st sm]. simpl.
  now destruct (length (lastMessages sm) =? 0).
Qed.

(** C7 (as amended).  Producing a summary ([getSummary] or
    [getFormattedSummary]) never adds or removes a session, leaves every
    other session untouched, and leaves the identifier, message list,
    creation time and message bound of the summarised session unchanged; it
    does set that session's last-accessed time to the current instant. *)
Theorem summary_only_touches_last_accessed
    (touched now : Z) (sessions : Sessions) (sid : string) (n : nat) :
  let sessions' := fst (getSummary touched now sessions sid n) in
  fst (getFormattedSummary touched now sessions sid n) = sessions' /\
  (forall k, k <> sid -> sessions' !! k = sessions !! k) /\
  (sessions !! sid = None -> sessions' = sessions) /\
  (forall s, sessions !! sid = Some s ->
     exists s', sessions' !! sid = Some s' /\
       sessionId s' = sessionId s /\ messages s' = messages s /\
       createdAt s' = createdAt s /\ maxMessages s' = maxMessages s /\
       lastAccessed s' = touched).
Proof.
  cbn zeta. split; [apply getFormattedSummary_sessions|].
  rewrite getSummary_sessions, getMemory_sessions.
  split; [|split].
  - intros k Hk. destruct (sessions !! sid); [|reflexivity].
    now rewrite lookup_insert_ne.
  - now intros ->.
  - intros s ->. exists (touch touched s).
    rewrite lookup_insert_eq. now repeat split.
Qed.

(** A summary taken at instant 5 of a session last accessed at instant 0
    changes the stored session. *)
Lemma summary_changes_last_accessed :
  let sessions : Sessions := {[ "s1"%string := mkSession "s1" [] 0 0 10 ]} in
  exists s s',
    sessions !! "s1"%string = Some s /\
    fst (getSummary 5 5 sessions "s1" 2) !! "s1"%string = Some s' /\
    lastAccessed s = 0%Z /\ lastAccessed s' = 5%Z /\
    fst (getSummary 5 5 sessions "s1" 2) <> sessions.
Proof.
  intros sessions.
  assert (E : sessions !! "s1"%string = Some (mkSession "s1" [] 0 0 10))
    by apply lookup_singleton_eq.
  assert (E' : fst (getSummary 5 5 sessions "s1" 2) !! "s1"%string
               = Some (mkSession "s1" [] 0 5 10)).
  { rewrite getSummary_sessions, getMemory_sessions, E.
    apply lookup_insert_eq. }
  exists (mkSession "s1" [] 0 0 10), (mkSession "s1" [] 0 5 10).
  repeat split; try assumption.
  intros Heq. rewrite Heq, E in E'. discriminate.
Qed.

(** *** Eviction *)

Lemma lookup_foldl_delete (ks : list string) (m : Sessions) k :
  foldl (fun m k => delete k m) m ks !! k
  = if decide (k ∈ ks) then None else m !! k.
Proof.
  revert m. induction ks as [|k0 ks IH]; intros m; simpl.
  - reflexivity.
  - rewrite IH. destruct (decide (k = k0)) as [->|Hne].
    + rewrite lookup_delete_eq.
      rewrite (decide_True (P := k0 ∈ k0 :: ks)) by apply list_elem_of_here.
      now destruct (decide (k0 ∈ ks)).
    + rewrite lookup_delete_ne by congruence.
      destruct (decide (k ∈ ks)) as [Hk|Hk].
      * now rewrite decide_True by now apply list_elem_of_further.
      * rewrite decide_False; [reflexivity|].
        intros [->|?]%elem_of_cons; contradiction.
Qed.

Lemma size_foldl_delete (ks : list string) (m : Sessions) :
  NoDup ks -> (forall k, k ∈ ks -> is_Some (m !! k)) ->
  size (foldl (fun m k => delete k m) m ks) + length ks = size m.
Proof.
  revert m. induction ks as [|k0 ks IH]; intros m Hnd Hin; simpl; [lia|].
  apply NoDup_cons in Hnd as [Hk0 Hnd].
  destruct (Hin k0) as [x Hx]; [apply list_elem_of_here|].
  assert (Hin' : forall k, k ∈ ks -> is_Some (delete k0 m !! k)).
  { intros k Hk. rewrite lookup_delete_ne by (intros ->; contradiction).
    apply Hin. now apply list_elem_of_further. }
  specialize (IH (delete k0 m) Hnd Hin').
  assert (Hsome : is_Some (m !! k0)) by now exists x.
  pose proof (map_size_delete_Some k0 m Hsome).
  pose proof (map_size_ne_0_lookup_2 m k0 Hsome). lia.
Qed.

Lemma stale_keys_spec (cutoff : Z) (sessions : Sessions) k :
  k ∈ (filter (fun kv : string * SessionMemory => (lastAccessed kv.2 < cutoff)%Z)
         (map_to_list sessions)).*1
  <-> exists s, sessions !! k = Some s /\ (lastAccessed s < cutoff)%Z.
Proof.
  rewrite list_elem_of_fmap. split.
  - intros ([k' s] & -> & Hin). apply list_elem_of_filter in Hin as [Hold Hin].
    apply elem_of_map_to_list in Hin. now exists s.
  - intros (s & Hs & Hold). exists (k, s). split; [reflexivity|].
    apply list_elem_of_filter. split; [assumption|].
    now apply elem_of_map_to_list.
Qed.

Lemma stale_keys_NoDup (cutoff : Z) (sessions : Sessions) :
  NoDup (filter (fun kv : string * SessionMemory => (lastAccessed kv.2 < cutoff)%Z)
           (map_to_list sessions)).*1.
Proof.
  eapply sublist_NoDup; [apply (NoDup_fst_map_to_list sessions)|].
  apply fmap_sublist, sublist_filter.
Qed.

(** C8 (as amended).  [cleanupOldSessions(t)] removes exactly the sessions
    whose last-accessed time is strictly older than [now - t] minutes and
    keeps all others unchanged; the call returns [undefined]; the number of
    evicted sessions is only written to the log, when it is positive. *)
Theorem cleanup_removes_exactly_stale (now : Z) (sessions : Sessions) (t : Z) :
  let out := cleanupOldSessions now sessions t in
  (forall k,
     cleaned out !! k
     = match sessions !! k with
       | Some s =>
           if (lastAccessed s <? now - t * 60 * 1000)%Z then None else Some s
       | None => None
       end) /\
  returned out = JsUndefined /\
  logged out
  = (let evicted := size sessions - size (cleaned out) in
     if 0 <? evicted then Some evicted else None).
Proof.
  unfold cleanupOldSessions. cbn [cleaned returned logged].
  set (cutoff := (now - t * 60 * 1000)%Z).
  set (ks := (filter _ (map_to_list sessions)).*1).
  split; [|split; [reflexivity|]].
  - intros k. rewrite lookup_foldl_delete.
    pose proof (stale_keys_spec cutoff sessions k) as Hk. fold ks in Hk.
    destruct (sessions !! k) as [s|] eqn:Es.
    + destruct (Z.ltb_spec (lastAccessed s) cutoff) as [Hold|Hnew].
      * rewrite decide_True; [reflexivity|]. apply Hk. now exists s.
      * rewrite decide_False; [reflexivity|].
        intros Hin. apply Hk in Hin as (s' & [= <-] & Hold). lia.
    + now destruct (decide (k ∈ ks)).
  - assert (Hsize : size (foldl (fun m k => delete k m) sessions ks)
                    + length ks = size sessions).
    { apply size_foldl_delete; [apply stale_keys_NoDup|].
      intros k Hk. apply stale_keys_spec in Hk as (s & Hs & _). now exists s. }
    replace (size sessions - size (foldl (fun m k => delete k m) sessions ks))
      with (length ks) by lia.
    reflexivity.
Qed.

(** With one stale session the call evicts it and still returns
    [undefined], not the count 1. *)
Lemma cleanup_returns_undefined :
  let sessions : Sessions := {[ "s1"%string := mkSession "s1" [] 0 0 10 ]} in
  let out := cleanupOldSessions 100000000 sessions 1 in
  cleaned out !! "s1"%string = None /\
  size sessions - size (cleaned out) = 1 /\
  returned out <> JsNumber 1.
Proof.
  intros sessions out.
  assert (E : cleaned out = ∅) by (vm_compute; reflexivity).
  rewrite E. split; [apply lookup_empty|].
  split; [reflexivity|discriminate].
Qed.

End MemoryFacts.

(* --------------------------------------------------------------------- *)
(** ** Plugin dispatch                                                    *)
(* --------------------------------------------------------------------- *)

Module PluginFacts.
Import Plugins.

Lemma dispatch_fold message (plugins : list Plugin) (acc : list PluginResult) :
  foldl (dispatch_step message) acc plugins
  = acc ++ map (fun p => outcome_of p message)
             (List.filter (fun p => detectIntent p message) plugins).
Proof.
  revert acc. induction plugins as [|p plugins IH]; intros acc; simpl.
  - now rewrite app_nil_r.
  - rewrite IH. unfold dispatch_step, outcome_of.
    destruct (detectIntent p message); [|reflexivity].
    simpl. destruct (execute p message); now rewrite <- app_assoc.
Qed.

(** Dispatch returns one outcome per matching handler, in registration
    order. *)
Lemma dispatch_outcomes (plugins : list Plugin) message :
  detectAndExecutePlugins plugins message
  = map (fun p => outcome_of p message)
        (List.filter (fun p => detectIntent p message) plugins).
Proof. unfold detectAndExecutePlugins. now rewrite dispatch_fold. Qed.

(** C4.  When exactly two registered handlers [p1], [p2] (in registration
    order) accept the message, dispatch returns exactly two outcomes, the
    first for [p1] and the second for [p2]; the outcome of a handler whose
    [execute] throws is the failure record with that handler's name and the
    thrown error's message, and the outcome of a handler that returns is the
    record it returned. *)
Theorem dispatch_two_handlers (plugins : list Plugin) (message : string)
    (p1 p2 : Plugin) :
  List.filter (fun p => detectIntent p message) plugins = [p1; p2] ->
  exists r1 r2,
    detectAndExecutePlugins plugins message = [r1; r2] /\
    records_outcome p1 message r1 /\
    records_outcome p2 message r2 /\
    (forall m, execute p1 message = inr (JsError m) ->
       r1 = mkPluginResult (plugin_name p1) false None (Some m) /\
       records_outcome p2 message r2) /\
    (forall m, execute p2 message = inr (JsError m) ->
       r2 = mkPluginResult (plugin_name p2) false None (Some m) /\
       records_outcome p1 message r1).
Proof.
  intros Hmatch.
  assert (H1 : records_outcome p1 message (outcome_of p1 message)).
  { unfold records_outcome, outcome_of. now destruct (execute p1 message). }
  assert (H2 : records_outcome p2 message (outcome_of p2 message)).
  { unfold records_outcome, outcome_of. now destruct (execute p2 message). }
  exists (outcome_of p1 message), (outcome_of p2 message).
  split; [now rewrite dispatch_outcomes, Hmatch|].
  split; [assumption|]. split; [assumption|].
  split; intros m Hm; (split; [|assumption]);
    unfold outcome_of; now rewrite Hm.
Qed.

Lemma dispatch_two_handlers_witness :
  (let ok := mkPlugin "ok" "returns" (fun _ => true)
               (fun m => inl (mkPluginResult "ok" true (Some (OtherData m)) None)) in
   let idle := mkPlugin "idle" "never matches" (fun _ => false)
                 (fun _ => inr JsOther) in
   let bad := mkPlugin "bad" "throws" (fun _ => true)
                (fun _ => inr (JsError "boom")) in
   detectAndExecutePlugins [bad; idle; ok] "hi"
   = [mkPluginResult "bad" false None (Some "boom"%string);
      mkPluginResult "ok" true (Some (OtherData "hi")) None]) /\
  (let env := WeatherPlugin.mkEnv EmptyString
                (fun _ => WeatherPlugin.FetchRejects JsOther) 0 0 0 0 1000 in
   map (fun r => (name r, success r))
     (detectAndExecutePlugins (PluginManager.plugins env 1000)
        "weather in Paris and 2 + 2 * 5")
   = [("weather"%string, true); ("math"%string, true)]).
Proof.
  split.
  - intros ok idle bad.
    destruct (dispatch_two_handlers [bad; idle; ok] "hi" bad ok eq_refl)
      as (r1 & r2 & E & _ & _ & H & _).
    rewrite E.
    destruct (H "boom"%string eq_refl) as [-> H2].
    unfold records_outcome in H2. simpl in H2. now rewrite H2.
  - intros env.
    assert (Hw : WeatherPlugin.detectIntent "weather in Paris and 2 + 2 * 5" = true)
      by (vm_compute; reflexivity).
    assert (Hm : MathPlugin.detectIntent "weather in Paris and 2 + 2 * 5" = true)
      by (vm_compute; reflexivity).
    destruct (dispatch_two_handlers (PluginManager.plugins env 1000)
                "weather in Paris and 2 + 2 * 5"
                (WeatherPlugin.plugin env) (MathPlugin.plugin 1000))
      as (r1 & r2 & E & H1 & H2 & _).
    { unfold PluginManager.plugins.
      cbn [List.filter detectIntent WeatherPlugin.plugin MathPlugin.plugin].
      now rewrite Hw, Hm. }
    rewrite E. unfold records_outcome in H1, H2.
    cbn [execute WeatherPlugin.plugin MathPlugin.plugin] in H1, H2.
    vm_compute in H1, H2. now rewrite H1, H2.
Defined.

End PluginFacts.

(* --------------------------------------------------------------------- *)
(** ** Math plugin                                                        *)
(* --------------------------------------------------------------------- *)

Module MathFacts.
Import Plugins MathPlugin.

Lemma chars_string_of_list l : chars (string_of_list_ascii l) = l.
Proof. apply list_ascii_of_string_of_list_ascii. Qed.

Lemma filter_eqb_nonspace c (l : list ascii) :
  ascii_ws c = false ->
  List.filter (Ascii.eqb c) (List.filter (fun x => negb (ascii_ws x)) l)
  = List.filter (Ascii.eqb c) l.
Proof.
  intros Hc. induction l as [|x l IH]; [reflexivity|]. simpl.
  destruct (ascii_ws x) eqn:Hx; simpl.
  - destruct (Ascii.eqb_spec c x) as [->|_]; [congruence|assumption].
  - now rewrite IH.
Qed.

(** Removing whitespace does not change the number of occurrences of a
    non-whitespace character. *)
Lemma count_char_strip c s :
  ascii_ws c = false -> count_char c (strip_whitespace s) = count_char c s.
Proof.
  intros Hc. unfold count_char, strip_whitespace.
  now rewrite chars_string_of_list, filter_eqb_nonspace.
Qed.

Lemma unsafe_fails now e :
  isSafeExpression (strip_whitespace e) = false ->
  evaluate now e = inr (JsError ("Failed to evaluate: " ++ e)).
Proof. intros H. unfold evaluate. now rewrite H. Qed.

Lemma unbalanced_unsafe e :
  count_char "(" e <> count_char ")" e ->
  isSafeExpression (strip_whitespace e) = false.
Proof.
  intros H. unfold isSafeExpression.
  rewrite !count_char_strip by reflexivity.
  destruct (negb _); [reflexivity|].
  destruct (includes _ _); [reflexivity|].
  destruct (Nat.eqb_spec (count_char "(" e) (count_char ")" e));
    [contradiction|reflexivity].
Qed.

(** Whatever [evaluate] returns successfully is a finite number produced
    from a safe expression; a failure always carries the message
    "Failed to evaluate: <expression>". *)
Lemma evaluate_failure_message now e x :
  evaluate now e = inr x -> x = JsError ("Failed to evaluate: " ++ e).
Proof.
  unfold evaluate.
  destruct (negb (isSafeExpression (strip_whitespace e))); [now intros [= <-]|].
  destruct (mathjs_evaluate (strip_whitespace e)) as [[q|p|]|err];
    now intros [= <-].
Qed.

(** C5.  [evaluate("2 + 2 * 5")] returns the result 12; [evaluate("10 / 0")]
    and [evaluate] of any expression whose numbers of opening and closing
    parentheses differ throw the error "Failed to evaluate: ...", which
    [execute] turns into a failure outcome: no number (and in particular no
    infinity) is returned. *)
Theorem math_evaluate_examples (now : Z) :
  evaluate now "2 + 2 * 5" = inl (mkMathResult "2+2*5" 12 now) /\
  evaluate now "10 / 0" = inr (JsError "Failed to evaluate: 10 / 0") /\
  success (outcome_of_evaluate (evaluate now "10 / 0")) = false /\
  (forall e,
     count_char "(" e <> count_char ")" e ->
     evaluate now e = inr (JsError ("Failed to evaluate: " ++ e)) /\
     success (outcome_of_evaluate (evaluate now e)) = false).
Proof.
  split; [reflexivity|]. split; [reflexivity|]. split; [reflexivity|].
  intros e He.
  rewrite (unsafe_fails now e (unbalanced_unsafe e He)). now split.
Qed.

Lemma math_evaluate_examples_witness :
  evaluate 0 "(1 + 2" = inr (JsError "Failed to evaluate: (1 + 2").
Proof.
  destruct (math_evaluate_examples 0) as (_ & _ & _ & H).
  apply (H "(1 + 2"%string). vm_compute. discriminate.
Defined.

(** C9.  The expression "8 / 0.5" is well formed, its divisor 0.5 is not
    zero and its quotient is 16; its whitespace-stripped text contains
    "/0", so the safety check rejects it and [evaluate] throws instead of
    returning 16. *)
Theorem math_rejects_nonzero_divisor (now : Z) :
  strip_whitespace "8 / 0.5" = "8/0.5"%string /\
  parse_number (chars "0.5") = Some (Fin (1 # 2), []) /\
  mathjs_evaluate "8/0.5" = inl (Fin 16) /\
  includes "8/0.5" "/0" = true /\
  isSafeExpression "8/0.5" = false /\
  evaluate now "8 / 0.5" = inr (JsError "Failed to evaluate: 8 / 0.5") /\
  success (outcome_of_evaluate (evaluate now "8 / 0.5")) = false.
Proof. repeat split; reflexivity. Qed.

End MathFacts.

(* --------------------------------------------------------------------- *)
(** ** Weather plugin                                                     *)
(* --------------------------------------------------------------------- *)

Module WeatherFacts.
Import Plugins WeatherPlugin.

(** [getWeather] never throws: every failure of the [try] block is replaced
    by mock data. *)
Lemma getWeather_total env city :
  exists w, getWeather env city = inl w /\
    (forall e, getWeather_try env city = inr e -> w = getMockWeather env city).
Proof.
  unfold getWeather. destruct (getWeather_try env city) as [w|e].
  - exists w. split; [reflexivity|]. intros e [=].
  - exists (getMockWeather env city). now split.
Qed.

(** C10.  When the weather pattern matches the message, with capture group
    [city], [execute] resolves (it does not throw) to an outcome with
    [success = true] carrying weather data for the trimmed city; when the
    API request fails in any way the data are the mock data. *)
Theorem weather_execute_succeeds (env : Env) (message city : string) :
  weatherMatch message = Some city ->
  exists w,
    execute env message
      = inl (mkPluginResult "weather" true (Some (WeatherDataOf w)) None) /\
    getWeather env (trim_string city) = inl w /\
    (forall e, getWeather_try env (trim_string city) = inr e ->
       w = getMockWeather env (trim_string city)).
Proof.
  intros Hm. destruct (getWeather_total env (trim_string city)) as (w & Hw & Hmock).
  exists w. unfold execute. rewrite Hm. cbn zeta. rewrite Hw. auto.
Qed.

Lemma weather_execute_succeeds_witness :
  let env := mkEnv "key" (fun _ => HttpNotOk 401 (inl "denied"%string)) 6 7 8 9 1000 in
  execute env "what is the weather in Paris"
  = inl (mkPluginResult "weather" true
           (Some (WeatherDataOf
              (mkWeatherData 17 "Rainy" "Paris" 1000 (Some 48%Q) (Some 14%Q))))
           None).
Proof.
  intros env.
  destruct (weather_execute_succeeds env "what is the weather in Paris" "Paris"
              eq_refl) as (w & -> & _ & Hmock).
  rewrite (Hmock (JsError "Weather API error: 401 - denied") eq_refl).
  reflexivity.
Defined.

End WeatherFacts.

(* --------------------------------------------------------------------- *)
(** ** Retrieval                                                          *)
(* --------------------------------------------------------------------- *)

Module RagFacts.
Import Rag.

Lemma filter_sublist {A} (f : A -> bool) (l : list A) :
  List.filter f l `sublist_of` l.
Proof.
  induction l as [|x l IH]; simpl; [constructor|].
  destruct (f x); now constructor.
Qed.

Lemma filter_descending (f : SearchResult -> bool) (l : list SearchResult) :
  descending l -> descending (List.filter f l).
Proof.
  unfold descending. induction 1 as [|x l Hl IH Hx]; simpl; [constructor|].
  destruct (f x); [|assumption].
  constructor; [assumption|].
  apply List.Forall_forall. intros y Hy. apply List.filter_In in Hy as [Hy _].
  revert y Hy. now apply List.Forall_forall.
Qed.

(** C6.  For a backend that returns at most [limit] results:
    every result of [search] scores at least the threshold, and there are
    at most [maxResults] of them; when the backend answers with [results],
    the outcome is exactly the sub-sequence of the entries of [results] that
    score at least the threshold, in the backend's order (so in descending
    score order when the backend's is); when the backend fails the outcome
    is empty.  In particular, for backend results scored 0.95, 0.6, 0.3 and
    threshold 0.9 the outcome is the first entry alone. *)
Theorem search_filters_by_threshold (backend : Backend) (cfgMax : nat)
    (query : string) (options : RAGOptions) :
  (forall q limit rs, backend q limit = inl rs -> length rs <= limit) ->
  let maxResults := default cfgMax (maxSearchResults options) in
  let threshold := default (7 # 10) (similarityThreshold options) in
  let out := search backend cfgMax query options in
  Forall (fun r => (threshold <= score r)%Q) out /\
  length out <= maxResults /\
  (forall results, backend query maxResults = inl results ->
     out `sublist_of` results /\
     (forall r, In r results -> (threshold <= score r)%Q -> In r out) /\
     (descending results -> descending out) /\
     (forall r1 r2 r3,
        results = [r1; r2; r3] -> threshold = (9 # 10) ->
        score r1 = (95 # 100) -> score r2 = (6 # 10) -> score r3 = (3 # 10) ->
        out = [r1])) /\
  (forall e, backend query maxResults = inr e -> out = []).
Proof.
  intros Hlimit maxResults threshold out.
  unfold out, search. fold maxResults threshold.
  destruct (backend query maxResults) as [results|e] eqn:E.
  - split.
    { apply List.Forall_forall. intros r Hr.
      apply List.filter_In in Hr as [_ Hr]. now apply Qle_bool_iff. }
    split.
    { pose proof (Hlimit _ _ _ E).
      pose proof (List.filter_length_le
                    (fun r => Qle_bool threshold (score r)) results). lia. }
    split; [|intros e [=]].
    intros results' [= <-].
    split; [apply filter_sublist|].
    split.
    { intros r Hin Hr. apply List.filter_In. split; [assumption|].
      now apply Qle_bool_iff. }
    split; [apply filter_descending|].
    intros r1 r2 r3 -> -> H1 H2 H3. simpl. now rewrite H1, H2, H3.
  - split; [constructor|]. split; [simpl; lia|].
    split; [intros results [=]|reflexivity].
Qed.

Lemma search_filters_by_threshold_witness :
  let r1 := mkSearchResult "1" "alpha" "a.md" (95 # 100) "a.md" "t" in
  let r2 := mkSearchResult "2" "beta" "a.md" (6 # 10) "a.md" "t" in
  let r3 := mkSearchResult "3" "gamma" "b.md" (3 # 10) "b.md" "t" in
  let backend : Backend := fun _ limit => inl (firstn limit [r1; r2; r3]) in
  search backend 3 "q" (mkOptions (Some 3) (Some (9 # 10))) = [r1].
Proof.
  intros r1 r2 r3 backend.
  assert (Hlimit : forall (q : string) limit rs,
             backend q limit = inl rs -> length rs <= limit).
  { intros q limit rs [= <-]. rewrite length_firstn. lia. }
  destruct (search_filters_by_threshold backend 3 "q"
              (mkOptions (Some 3) (Some (9 # 10))) Hlimit)
    as (_ & _ & H & _).
  destruct (H [r1; r2; r3] eq_refl) as (_ & _ & _ & Hex).
  now apply (Hex r1 r2 r3).
Defined.

End RagFacts.

(* --------------------------------------------------------------------- *)
(** ** Orchestration                                                      *)
(* --------------------------------------------------------------------- *)

Module AgentFacts.
Import Memory Plugins Agent.

Lemma last_skipn {A} n (l : list A) : n < length l -> last (skipn n l) = last l.
Proof.
  intros H. rewrite !last_lookup, lookup_drop, length_skipn.
  f_equal. lia.
Qed.

Lemma truncate_opp_above (q : Q) : (-1 < q)%Q -> (truncate (- q) <= 0)%Z.
Proof.
  intros Hq. unfold truncate. destruct q as [n d]. cbn [Qopp Qnum Qden].
  unfold Qlt in Hq. cbn [Qnum Qden] in Hq.
  destruct (Z.le_gt_cases 0 n) as [Hn|Hn].
  - rewrite Z.quot_opp_l by lia.
    pose proof (Z.quot_pos n (Z.pos d) Hn ltac:(lia)). lia.
  - rewrite Z.quot_small; lia.
Qed.

(** Under a bound that keeps the newest message, the truncation of
    [addMessage] leaves the last element of the list in place. *)
Lemma kept_last {A} (b : Num) (pushed : list A) :
  keeps_newest b -> 0 < length pushed ->
  last (if length_gt (length pushed) b then slice_neg pushed b else pushed)
  = last pushed.
Proof.
  intros Hb Hlen. destruct (length_gt (length pushed) b); [|reflexivity].
  destruct b as [q| | |]; cbn [slice_neg keeps_newest] in *;
    [|reflexivity|contradiction|reflexivity].
  pose proof (truncate_opp_above q Hb) as Hrel. cbv zeta.
  destruct (Z.ltb_spec (truncate (- q)) 0).
  - apply last_skipn. lia.
  - replace (truncate (- q)) with 0%Z by lia.
    rewrite Z.min_l by lia. reflexivity.
Qed.

(** The message just appended is the last one of the session, for every
    bound that keeps the newest message. *)
Lemma addMessage_last cfgMax env (sessions : Sessions) sid r c :
  keeps_newest (session_bound cfgMax sessions sid) ->
  exists s,
    addMessage cfgMax env sessions sid r c !! sid = Some s /\
    last (messages s)
    = Some (mkMessage (read_uuid env) r c (read_timestamp env)).
Proof.
  intros Hb. unfold addMessage. eexists. split; [apply lookup_insert_eq|].
  cbn [messages]. unfold session_bound in Hb.
  set (session := match sessions !! sid with Some s => s | None => _ end).
  assert (Hbound : keeps_newest (maxMessages session)).
  { unfold session. now destruct (sessions !! sid). }
  rewrite kept_last; [apply last_snoc|assumption|].
  rewrite length_app. simpl. lia.
Qed.

(** [addMessage] leaves the bound of the addressed session as it finds
    it. *)
Lemma addMessage_bound cfgMax env (sessions : Sessions) sid r c :
  session_bound cfgMax (addMessage cfgMax env sessions sid r c) sid
  = session_bound cfgMax sessions sid.
Proof.
  unfold session_bound, addMessage. rewrite lookup_insert_eq.
  cbn [maxMessages]. now destruct (sessions !! sid).
Qed.

(** So does a summary. *)
Lemma getFormattedSummary_bound cfgMax touched now (sessions : Sessions) sid n :
  session_bound cfgMax (fst (getFormattedSummary touched now sessions sid n)) sid
  = session_bound cfgMax sessions sid.
Proof.
  rewrite MemoryFacts.getFormattedSummary_sessions,
    MemoryFacts.getSummary_sessions, MemoryFacts.getMemory_sessions.
  unfold session_bound. destruct (sessions !! sid) as [s|] eqn:E.
  - now rewrite lookup_insert_eq.
  - now rewrite E.
Qed.

Lemma fallback_reply_nonempty message : fallback_reply message <> EmptyString.
Proof. unfold fallback_reply. discriminate. Qed.

Lemma fallback_reply_echo message :
  exists pre post, fallback_reply message = (pre ++ message ++ post)%string.
Proof.
  unfold fallback_reply.
  exists ("I understand you asked: " ++ dquote)%string. eexists.
  simpl. reflexivity.
Qed.

(** *** The prompt is always built for the outcomes of the two registered
    plugins *)

Lemma weather_outcome_payload env message :
  has_payload (outcome_of (WeatherPlugin.plugin env) message).
Proof.
  unfold has_payload, outcome_of. cbn [execute WeatherPlugin.plugin].
  unfold WeatherPlugin.execute.
  destruct (WeatherPlugin.weatherMatch message); [|discriminate].
  destruct (WeatherPlugin.getWeather env _); simpl; discriminate.
Qed.

Lemma math_outcome_payload now message :
  has_payload (outcome_of (MathPlugin.plugin now) message).
Proof.
  unfold has_payload, outcome_of. cbn [execute MathPlugin.plugin].
  unfold MathPlugin.execute.
  destruct (MathPlugin.mathMatch message); [|discriminate].
  destruct (MathPlugin.evaluate now _); simpl; discriminate.
Qed.

Lemma registry_outcomes_payload env now message :
  Forall has_payload
    (detectAndExecutePlugins (PluginManager.plugins env now) message).
Proof.
  rewrite PluginFacts.dispatch_outcomes. unfold PluginManager.plugins.
  pose proof (weather_outcome_payload env message).
  pose proof (math_outcome_payload now message).
  simpl.
  destruct (WeatherPlugin.detectIntent message),
           (MathPlugin.detectIntent message); simpl; repeat constructor;
    assumption.
Qed.





(** The bound applied to the session is the same at both [addMessage]
    calls of a request. *)
Lemma gather_bound c k (sessions : Sessions) sid message :
  session_bound (cfgMaxMessages c)
    (fst (fst (fst (gather c k sessions sid message)))) sid
  = session_bound (cfgMaxMessages c) sessions sid.
Proof.
  unfold gather.
  destruct (getFormattedSummary _ _ _ _ _) as [sessions2 summary] eqn:Es.
  cbn [fst]. change sessions2 with (fst (sessions2, summary)). rewrite <- Es.
  now rewrite getFormattedSummary_bound, addMessage_bound.
Qed.

(** What [processMessage] returns once the prompt is built: a response
    whose reply is what [generateAIResponse] returns; under a bound that
    keeps the newest message, the reply is the last message of the session
    and of the snapshot. *)
Lemma processMessage_with_prompt c k (sessions : Sessions) sid message prompt :
  prompt_of (gather c k sessions sid message) = inl prompt ->
  exists sessions' snapshot,
    processMessage c k sessions sid message
    = (sessions',
       inl (mkResponse (generateAIResponse c prompt message)
              (performRAGSearch c message)
              (detectAndExecutePlugins
                 (PluginManager.plugins (weather_env k) (t_math k)) message)
              snapshot sid)) /\
    (keeps_newest (session_bound (cfgMaxMessages c) sessions sid) ->
     last snapshot
     = Some (mkSnapshot assistant (generateAIResponse c prompt message)
               (read_timestamp (assistant_reads k))) /\
     exists s,
       sessions' !! sid = Some s /\
       last (messages s)
       = Some (mkMessage (read_uuid (assistant_reads k)) assistant
                 (generateAIResponse c prompt message)
                 (read_timestamp (assistant_reads k)))).
Proof.
  intros Hp. pose proof (gather_bound c k sessions sid message) as Hb.
  unfold processMessage. revert Hp Hb. unfold gather, prompt_of.
  destruct (getFormattedSummary _ _ _ _ _) as [sessions2 summary].
  cbn [snd fst]. intros -> Hb.
  set (ai := generateAIResponse c prompt message).
  assert (Hsome : is_Some (addMessage (cfgMaxMessages c) (assistant_reads k)
                             sessions2 sid assistant ai !! sid)).
  { unfold addMessage. rewrite lookup_insert_eq. eauto. }
  destruct Hsome as [s3 Hs3].
  unfold buildResponse, getMemory. rewrite Hs3.
  eexists _, _. split; [reflexivity|]. intros Hk. rewrite <- Hb in Hk.
  destruct (addMessage_last (cfgMaxMessages c) (assistant_reads k)
              sessions2 sid assistant ai Hk) as (s & Hs & Hlast).
  rewrite Hs3 in Hs. injection Hs as <-. split.
  - cbn [touch messages]. change (map ?f ?l) with (f <$> l).
    now rewrite fmap_last, Hlast.
  - exists (touch (t_snapshot k) s3). split; [apply lookup_insert_eq|exact Hlast].
Qed.

(** When the language model call fails on the prompt built for the request
    and the bound of the session keeps the newest message (any bound above
    -1), [processMessage] returns a response: the reply is the fallback
    text, which is non-empty and contains the user's message; that text has
    been appended to the session as an assistant message, and that message
    is the last entry of [memory_snapshot]. *)
Theorem generation_failure_falls_back (c : Collaborators) (k : RequestEnv)
    (sessions : Sessions) (sid message prompt : string) (e : JsThrown) :
  prompt_of (gather c k sessions sid message) = inl prompt ->
  generateCompletion c prompt = inr e ->
  keeps_newest (session_bound (cfgMaxMessages c) sessions sid) ->
  exists sessions' resp s,
    processMessage c k sessions sid message = (sessions', inl resp) /\
    reply resp = fallback_reply message /\
    reply resp <> EmptyString /\
    (exists pre post, reply resp = (pre ++ message ++ post)%string) /\
    sessions' !! sid = Some s /\
    last (messages s)
      = Some (mkMessage (read_uuid (assistant_reads k)) assistant
                (fallback_reply message) (read_timestamp (assistant_reads k))) /\
    last (memory_snapshot resp)
      = Some (mkSnapshot assistant (fallback_reply message)
                (read_timestamp (assistant_reads k))) /\
    session_id resp = sid.
Proof.
  intros Hp Hfail Hk.
  destruct (processMessage_with_prompt c k sessions sid message prompt Hp)
    as (sessions' & snapshot & E & Hlast).
  destruct (Hlast Hk) as (Hsnap & s & Hs & Hmsg).
  unfold generateAIResponse in E, Hsnap, Hmsg. rewrite Hfail in E, Hsnap, Hmsg.
  eexists _, _, s. split; [exact E|]. cbn [reply memory_snapshot session_id].
  split; [reflexivity|].
  split; [apply fallback_reply_nonempty|].
  split; [apply fallback_reply_echo|].
  split; [exact Hs|]. split; [exact Hmsg|]. split; [exact Hsnap|reflexivity].
Qed.


End AgentFacts.

(* --------------------------------------------------------------------- *)
(** ** Ingestion                                                          *)
(* --------------------------------------------------------------------- *)

Module IndexingFacts.
Import Chunker Indexing.

Lemma sent_foldl env st batches :
  sent (foldl (send_batch env) st batches) = sent st ++ batches.
Proof.
  revert st. induction batches as [|bt batches IH]; intros st; simpl.
  - now rewrite app_nil_r.
  - rewrite IH. unfold send_batch.
    destruct (addChunks env (calls st) bt); simpl; now rewrite <- app_assoc.
Qed.

Lemma file_batches_total env fileName :
  0 < maxChunkTokens env ->
  exists r, file_batches env fileName = Some r /\
    match r with
    | inl batches => Forall (fun bt => 1 <= length bt <= 3) batches
    | inr _ => True
    end.
Proof.
  intros Hw. unfold file_batches.
  destruct (readFile env fileName) as [content|e];
    [|exists (inr e); split; [reflexivity|exact I]].
  destruct (ChunkerFacts.stream_chunks_sizes ascii_ws " "%char
              (uuidv4 env fileName) (clock env fileName) (chars content)
              fileName (maxChunkTokens env) 3 (S (length (chars content))))
    as (batches & -> & Hsizes); [assumption|lia|lia|].
  eexists. split; [reflexivity|assumption].
Qed.

Lemma process_files_sent env files :
  0 < maxChunkTokens env ->
  forall st, exists st',
    process_files env st files = Some st' /\
    sent st' = sent st ++ flat_map (batches_of env) files.
Proof.
  intros Hw. induction files as [|f files IH]; intros st; simpl.
  - exists st. now rewrite app_nil_r.
  - unfold process_file, batches_of.
    destruct (file_batches_total env f Hw) as (r & -> & _).
    destruct r as [batches|e].
    + destruct (IH (foldl (send_batch env) st batches)) as (st' & -> & Hs).
      exists st'. split; [reflexivity|].
      now rewrite Hs, sent_foldl, <- app_assoc.
    + destruct (IH st) as (st' & -> & Hs). exists st'. now split.
Qed.

Lemma batches_of_sizes env fileName :
  0 < maxChunkTokens env ->
  Forall (fun bt => 1 <= length bt <= 3) (batches_of env fileName).
Proof.
  intros Hw. unfold batches_of.
  destruct (file_batches_total env fileName Hw) as (r & -> & Hr).
  destruct r; [assumption|constructor].
Qed.

(** X5.  When the directory can be listed and the window size is positive,
    [processAndIndexDocuments] returns normally, whatever the files and the
    sink do: every batch of every readable markdown file other than
    README.md is handed to the sink, in directory order, each with one to
    three chunks.  In particular a batch rejected by the sink, or a file
    that cannot be read, does not stop the batches after it. *)
Theorem indexing_attempts_every_batch (env : Env) (files : list string) :
  readdir env = inl files ->
  0 < maxChunkTokens env ->
  exists st,
    processAndIndexDocuments env = Some (inl st) /\
    sent st = flat_map (batches_of env) (List.filter is_markdown files) /\
    Forall (fun bt => 1 <= length bt <= 3) (sent st).
Proof.
  intros Hdir Hw. unfold processAndIndexDocuments. rewrite Hdir.
  destruct (process_files_sent env (List.filter is_markdown files) Hw
              (mkRun 0 [] [] 0)) as (st & E & Hs).
  simpl in Hs.
  assert (Hsizes : Forall (fun bt => 1 <= length bt <= 3)
                     (flat_map (batches_of env) (List.filter is_markdown files))).
  { rewrite flat_map_concat_map. apply List.Forall_concat.
    apply List.Forall_map. apply List.Forall_forall. intros f _.
    now apply batches_of_sizes. }
  destruct (List.filter is_markdown files) as [|f fs] eqn:Ef.
  - exists (mkRun 0 [] [] 0). simpl. repeat split; constructor.
  - simpl length. cbn [Nat.eqb]. rewrite E. exists st.
    split; [reflexivity|]. rewrite Hs. now split.
Qed.

Lemma indexing_attempts_every_batch_witness :
  exists st,
    processAndIndexDocuments sample_env = Some (inl st) /\
    map (map (@content ascii)) (sent st)
    = [ [chars "one two"; chars "three four"; chars "five six"];
        [chars "seven"];
        [chars "one two"; chars "three four"; chars "five six"];
        [chars "seven"] ].
Proof.
  destruct (indexing_attempts_every_batch sample_env
              ["a.md"; "README.md"; "notes.txt"; "b.md"; "c.md"])
    as (st & E & Hs & _); [reflexivity|simpl; lia|].
  exists st. split; [exact E|]. rewrite Hs. vm_compute. reflexivity.
Defined.

Lemma send_batch_accounted env st bt :
  accounted st -> accounted (send_batch env st bt).
Proof.
  intros (Ht & Hsub & Hc). unfold send_batch, accounted.
  destruct (addChunks env (calls st) bt); cbn [totalChunks stored sent calls].
  - rewrite length_app. simpl. repeat split; [assumption| |lia].
    now apply sublist_inserts_r.
  - rewrite concat_app, !length_app. simpl. rewrite app_nil_r.
    repeat split; [lia| |lia]. now apply sublist_app.
Qed.

Lemma foldl_send_accounted env batches :
  forall st, accounted st -> accounted (foldl (send_batch env) st batches).
Proof.
  induction batches as [|bt batches IH]; intros st H; simpl; [assumption|].
  apply IH. now apply send_batch_accounted.
Qed.

Lemma process_files_accounted env files :
  forall st st', accounted st -> process_files env st files = Some st' ->
    accounted st'.
Proof.
  induction files as [|f files IH]; intros st st' H E; simpl in E.
  - now inversion E; subst.
  - unfold process_file in E.
    destruct (file_batches env f) as [[batches|e]|]; [| |discriminate].
    + eapply IH; [|exact E]. now apply foldl_send_accounted.
    + eapply IH; [|exact E]. assumption.
Qed.

Lemma accounted_start : accounted (mkRun 0 [] [] 0).
Proof. unfold accounted. simpl. repeat split. constructor. Qed.

(** X6.  Whenever [processAndIndexDocuments] returns, its counter
    [totalChunks] is the number of chunks in the batches the sink accepted:
    the accepted batches are a subsequence of those handed to the sink, one
    sink call was made per batch, and the chunks of a rejected batch are not
    counted. *)
Theorem indexing_counts_accepted_chunks (env : Env) (st : Run) :
  processAndIndexDocuments env = Some (inl st) ->
  totalChunks st = length (concat (stored st)) /\
  sublist (stored st) (sent st) /\
  calls st = length (sent st).
Proof.
  unfold processAndIndexDocuments.
  destruct (readdir env) as [files|e]; [|discriminate].
  cbv zeta.
  destruct (length (List.filter is_markdown files) =? 0).
  - intros E. inversion E; subst. apply accounted_start.
  - destruct (process_files env (mkRun 0 [] [] 0)
                (List.filter is_markdown files)) as [st'|] eqn:Ep;
      [|discriminate].
    intros E. inversion E; subst.
    exact (process_files_accounted env _ _ _ accounted_start Ep).
Qed.

Lemma indexing_counts_accepted_chunks_witness :
  exists st,
    processAndIndexDocuments sample_env = Some (inl st) /\
    totalChunks st = 5 /\ length (concat (sent st)) = 8.
Proof.
  assert (E : exists st, processAndIndexDocuments sample_env = Some (inl st) /\
                         length (stored st) = 3 /\ length (sent st) = 4 /\
                         length (concat (stored st)) = 5 /\
                         length (concat (sent st)) = 8).
  { eexists. split; [vm_compute; reflexivity|]. vm_compute. repeat split. }
  destruct E as (st & E & _ & _ & H5 & H8).
  exists st. split; [exact E|].
  destruct (indexing_counts_accepted_chunks sample_env st E) as (Ht & _ & _).
  rewrite Ht. now split.
Defined.

(** X7.  A directory that cannot be listed is the only failure
    [processAndIndexDocuments] reports: the error of [readdir] is rethrown
    unchanged, and no error of a file or of the sink ever reaches the
    caller. *)
Theorem indexing_throws_only_readdir (env : Env) (e : JsThrown) :
  processAndIndexDocuments env = Some (inr e) <-> readdir env = inr e.
Proof.
  unfold processAndIndexDocuments.
  destruct (readdir env) as [files|e']; cbv zeta.
  - split; [|discriminate].
    destruct (length (List.filter is_markdown files) =? 0); [discriminate|].
    destruct (process_files env _ _); discriminate.
  - split; intros E; inversion E; subst; reflexivity.
Qed.

Lemma prefix_of_spec (p s : list ascii) :
  MathPlugin.prefix_of p s = true <-> exists t, s = p ++ t.
Proof.
  revert s. induction p as [|a p IH]; intros s; simpl.
  - split; [intros _; now exists s|reflexivity].
  - destruct s as [|c s]; [split; [discriminate|intros (t & H); discriminate]|].
    rewrite andb_true_iff, IH. split.
    + intros (Ha & t & ->). apply Ascii.eqb_eq in Ha. subst. now exists t.
    + intros (t & H). inversion H; subst. split; [apply Ascii.eqb_refl|now exists t].
Qed.

Lemma endsWith_spec (s suffix : string) :
  endsWith s suffix = true <-> exists stem, chars s = stem ++ chars suffix.
Proof.
  unfold endsWith. rewrite prefix_of_spec. split.
  - intros (t & H). exists (rev t).
    rewrite <- (rev_involutive (chars s)), H, rev_app_distr.
    now rewrite rev_involutive.
  - intros (stem & H). exists (rev stem). now rewrite H, rev_app_distr.
Qed.

(** X8.  The files ingested are exactly those whose name ends in [.md],
    README.md excepted; the comparison is by exact characters, so upper and
    lower case differ. *)
Theorem is_markdown_spec (file : string) :
  is_markdown file = true <->
  (exists stem, chars file = stem ++ chars ".md") /\ file <> "README.md"%string.
Proof.
  unfold is_markdown. rewrite andb_true_iff, negb_true_iff.
  now rewrite String.eqb_neq, endsWith_spec.
Qed.

End IndexingFacts.

(* --------------------------------------------------------------------- *)
(** ** Session memory: life cycle of a session                            *)
(* --------------------------------------------------------------------- *)

Module MemoryLifecycle.
Import Memory MemoryFacts.

Lemma last_snoc_default {A} (l : list A) (x d : A) : List.last (l ++ [x]) d = x.
Proof.
  induction l as [|a l IH]; [reflexivity|].
  simpl. destruct (l ++ [x]) eqn:E; [now destruct l|exact IH].
Qed.

(** State of the session record after a sequence of calls, for any
    configured maximum. *)
Lemma run_calls_record (cfgMax : Num) calls sid :
  match run_calls cfgMax calls !! sid with
  | None => calls_on sid calls = []
  | Some s =>
      exists c0 rest,
        calls_on sid calls = c0 :: rest /\
        sessionId s = sid /\ maxMessages s = cfgMax /\
        createdAt s = read_createdAt (call_reads c0) /\
        lastAccessed s = read_lastAccessed (call_reads (List.last rest c0)) /\
        (cfgMax = num_of_nat 0 -> messages s = map message_of (c0 :: rest))
  end.
Proof.
  induction calls as [|c calls IH] using rev_ind.
  - unfold run_calls. simpl. now rewrite lookup_empty.
  - rewrite run_calls_snoc, calls_on_snoc. unfold addMessage.
    destruct (String.eqb_spec (call_sid c) sid) as [->|Hne].
    + rewrite lookup_insert_eq.
      cbn [messages maxMessages sessionId createdAt lastAccessed].
      destruct (run_calls cfgMax calls !! sid) as [s|].
      * destruct IH as (c0 & rest & E & Hid & HM & Hc & _ & Hz).
        exists c0, (rest ++ [c]). rewrite E.
        split; [reflexivity|]. split; [assumption|]. split; [assumption|].
        split; [assumption|]. split; [now rewrite last_snoc_default|].
        intros ->. rewrite HM, (Hz eq_refl).
        rewrite length_gt_nat, slice_neg_nat. cbn [slice_last].
        destruct (0 <? _); cbn [map app]; now rewrite map_app.
      * rewrite IH. exists c, []. cbn [messages maxMessages sessionId createdAt
          lastAccessed List.last app map].
        repeat split. intros ->.
        rewrite length_gt_nat, slice_neg_nat. cbn [slice_last].
        now destruct (0 <? _).
    + rewrite lookup_insert_ne by assumption. now rewrite app_nil_r.
Qed.

(** X10.  After any sequence of [addMessage] calls, for any configured
    maximum, a session that was addressed exists under its own identifier,
    carries the configured maximum, keeps the creation time read by the
    first call addressed to it, and has the last-accessed time read by the
    most recent call addressed to it; calls addressed to other sessions
    change none of this. *)
Theorem session_record_after_calls
    (cfgMax : Num) (calls : list AddCall) (sid : string) (c0 : AddCall)
    (rest : list AddCall) :
  calls_on sid calls = c0 :: rest ->
  exists s,
    run_calls cfgMax calls !! sid = Some s /\
    sessionId s = sid /\ maxMessages s = cfgMax /\
    createdAt s = read_createdAt (call_reads c0) /\
    lastAccessed s = read_lastAccessed (call_reads (List.last rest c0)).
Proof.
  intros E. pose proof (run_calls_record cfgMax calls sid) as H.
  destruct (run_calls cfgMax calls !! sid) as [s|]; [|congruence].
  destruct H as (c0' & rest' & E' & Hid & HM & Hc & Ha & _).
  rewrite E in E'. injection E' as <- <-. exists s. now repeat split.
Qed.

Lemma session_record_after_calls_witness :
  exists s,
    run_calls 2
      [mkCall "s1" user "a" (mkReads "u1" 1 10 100);
       mkCall "s2" user "x" (mkReads "u2" 2 20 200);
       mkCall "s1" assistant "b" (mkReads "u3" 3 30 300)] !! "s1"%string
    = Some s /\
    createdAt s = 10%Z /\ lastAccessed s = 300%Z.
Proof.
  destruct (session_record_after_calls 2
    [mkCall "s1" user "a" (mkReads "u1" 1 10 100);
     mkCall "s2" user "x" (mkReads "u2" 2 20 200);
     mkCall "s1" assistant "b" (mkReads "u3" 3 30 300)] "s1"
    (mkCall "s1" user "a" (mkReads "u1" 1 10 100))
    [mkCall "s1" assistant "b" (mkReads "u3" 3 30 300)] eq_refl)
    as (s & E & _ & _ & Hc & Ha).
  exists s. now repeat split.
Defined.

(** X11.  With a configured maximum of 0 nothing is ever dropped: after any
    sequence of [addMessage] calls a session holds every message appended
    to it, in append order. *)
Theorem zero_bound_keeps_everything (calls : list AddCall) (sid : string) :
  calls_on sid calls <> [] ->
  exists s,
    run_calls 0 calls !! sid = Some s /\
    messages s = map message_of (calls_on sid calls).
Proof.
  intros Hne. pose proof (run_calls_record 0 calls sid) as H.
  destruct (run_calls 0 calls !! sid) as [s|]; [|congruence].
  destruct H as (c0 & rest & E & _ & _ & _ & _ & Hz).
  exists s. split; [reflexivity|]. now rewrite E, (Hz eq_refl).
Qed.

Lemma zero_bound_keeps_everything_witness :
  exists s,
    run_calls 0
      [mkCall "s1" user "a" (mkReads "u1" 1 1 1);
       mkCall "s1" assistant "b" (mkReads "u2" 2 2 2);
       mkCall "s1" user "c" (mkReads "u3" 3 3 3)] !! "s1"%string = Some s /\
    map content (messages s) = ["a"; "b"; "c"]%string.
Proof.
  destruct (zero_bound_keeps_everything
    [mkCall "s1" user "a" (mkReads "u1" 1 1 1);
     mkCall "s1" assistant "b" (mkReads "u2" 2 2 2);
     mkCall "s1" user "c" (mkReads "u3" 3 3 3)] "s1")
    as (s & E & Hs); [discriminate|].
  exists s. split; [exact E|]. rewrite Hs. reflexivity.
Defined.

(** X12.  For a stored session, [getSummary] reports the number of stored
    messages as [totalMessages] and returns a suffix of the stored messages
    as [lastMessages]: the last [messageCount] of them (all of them when
    there are fewer), and, when [messageCount] is 0, the whole list. *)
Theorem summary_is_suffix
    (touched now : Z) (sessions : Sessions) (sid : string) (n : nat)
    (s : SessionMemory) :
  sessions !! sid = Some s ->
  let sm := snd (getSummary touched now sessions sid n) in
  totalMessages sm = length (messages s) /\
  (exists older, messages s = older ++ lastMessages sm) /\
  length (lastMessages sm)
  = (if n =? 0 then length (messages s) else Nat.min n (length (messages s))).
Proof.
  intros E. unfold getSummary, getMemory. rewrite E.
  cbn [snd totalMessages lastMessages touch messages].
  split; [reflexivity|]. destruct n as [|n]; cbn [slice_last Nat.eqb].
  - split; [now exists []|reflexivity].
  - split.
    + exists (firstn (length (messages s) - S n) (messages s)).
      now rewrite firstn_skipn.
    + rewrite length_skipn. lia.
Qed.

Lemma summary_is_suffix_witness :
  let s := mkSession "s1"
             [mkMessage "u1" user "a" 1; mkMessage "u2" assistant "b" 2;
              mkMessage "u3" user "c" 3] 0 0 10 in
  length (lastMessages (snd (getSummary 5 5 {[ "s1"%string := s ]} "s1" 0))) = 3 /\
  length (lastMessages (snd (getSummary 5 5 {[ "s1"%string := s ]} "s1" 2))) = 2.
Proof.
  intros s. split.
  - exact (proj2 (proj2 (summary_is_suffix 5 5 {[ "s1"%string := s ]} "s1" 0 s
                           (lookup_singleton_eq _ _)))).
  - exact (proj2 (proj2 (summary_is_suffix 5 5 {[ "s1"%string := s ]} "s1" 2 s
                           (lookup_singleton_eq _ _)))).
Defined.

(** X13.  For every [messageCount], 0 included, [getFormattedSummary]
    answers with the sentence "No previous conversation history." exactly
    when the session is unknown or holds no message. *)
Theorem formatted_summary_no_history
    (touched now : Z) (sessions : Sessions) (sid : string) (n : nat) :
  snd (getFormattedSummary touched now sessions sid n)
  = "No previous conversation history."%string
  <-> (sessions !! sid = None \/
       exists s, sessions !! sid = Some s /\ messages s = []).
Proof.
  unfold getFormattedSummary, getSummary, getMemory.
  destruct (sessions !! sid) as [s|] eqn:E.
  - cbn [lastMessages touch messages].
    assert (Hlen : length (slice_last (messages s) n) = 0 <-> messages s = []).
    { destruct n as [|n]; simpl.
      - now rewrite length_zero_iff_nil.
      - rewrite length_skipn. rewrite <- length_zero_iff_nil. lia. }
    destruct (Nat.eqb_spec (length (slice_last (messages s) n)) 0) as [H0|H0];
      cbn [snd].
    + split; [|reflexivity]. intros _. right. exists s. split; [reflexivity|].
      now apply Hlen.
    + split; [discriminate|].
      intros [?|(s' & [= <-] & Hnil)]; [discriminate|].
      now apply Hlen in Hnil.
  - simpl. split; [now left|reflexivity].
Qed.

(** *** Eviction, once more *)

Lemma cleaned_lookup (now : Z) (sessions : Sessions) (t : Z) k :
  cleaned (cleanupOldSessions now sessions t) !! k
  = match sessions !! k with
    | Some s => if (lastAccessed s <? now - t * 60 * 1000)%Z then None else Some s
    | None => None
    end.
Proof.
  unfold cleanupOldSessions. cbn [cleaned].
  set (cutoff := (now - t * 60 * 1000)%Z).
  set (ks := (filter _ (map_to_list sessions)).*1).
  rewrite lookup_foldl_delete.
  pose proof (stale_keys_spec cutoff sessions k) as Hk. fold ks in Hk.
  destruct (sessions !! k) as [s|] eqn:Es.
  - destruct (Z.ltb_spec (lastAccessed s) cutoff) as [Hold|Hnew].
    + rewrite decide_True; [reflexivity|]. apply Hk. now exists s.
    + rewrite decide_False; [reflexivity|].
      intros Hin. apply Hk in Hin as (s' & [= <-] & Hold). lia.
  - now destruct (decide (k ∈ ks)).
Qed.

Lemma nothing_stale_nothing_logged (now : Z) (sessions : Sessions) (t : Z) :
  (forall k s, sessions !! k = Some s -> (now - t * 60 * 1000 <= lastAccessed s)%Z) ->
  logged (cleanupOldSessions now sessions t) = None.
Proof.
  intros H. unfold cleanupOldSessions. cbn [logged].
  set (cutoff := (now - t * 60 * 1000)%Z) in *.
  set (ks := (filter _ (map_to_list sessions)).*1).
  assert (Hks : ks = []).
  { destruct ks as [|k ks'] eqn:Eks; [reflexivity|].
    assert (Hin : k ∈ ks) by (rewrite Eks; apply list_elem_of_here).
    apply stale_keys_spec in Hin as (s & Hs & Hold).
    specialize (H k s Hs). lia. }
  now rewrite Hks.
Qed.

(** X14.  Eviction is idempotent and only removes: the sessions left by
    [cleanupOldSessions] are sessions of the map it started from, unchanged;
    running it again with the same clock reading and age limit removes
    nothing more and logs nothing. *)
Theorem cleanup_idempotent (now : Z) (sessions : Sessions) (t : Z) :
  let once := cleaned (cleanupOldSessions now sessions t) in
  once ⊆ sessions /\
  cleaned (cleanupOldSessions now once t) = once /\
  logged (cleanupOldSessions now once t) = None.
Proof.
  cbn zeta. split; [|split].
  - apply map_subseteq_spec. intros k s. rewrite cleaned_lookup.
    destruct (sessions !! k) as [s'|]; [|discriminate].
    now destruct (lastAccessed s' <? _)%Z.
  - apply map_eq. intros k. rewrite !cleaned_lookup.
    destruct (sessions !! k) as [s|]; [|reflexivity].
    destruct (lastAccessed s <? _)%Z eqn:Eold; [reflexivity|].
    now rewrite Eold.
  - apply nothing_stale_nothing_logged. intros k s. rewrite cleaned_lookup.
    destruct (sessions !! k) as [s'|]; [|discriminate].
    destruct (Z.ltb_spec (lastAccessed s') (now - t * 60 * 1000));
      [discriminate|]. intros [= <-]. assumption.
Qed.

(** *** Statistics *)

Lemma getStats_bound (m : nat) (sessions : Sessions) :
  (forall k s, sessions !! k = Some s -> length (messages s) <= m) ->
  snd (getStats sessions) <= m * fst (getStats sessions).
Proof.
  unfold getStats. cbn [fst snd].
  induction sessions as [|k s sessions Hk Hfold IH] using map_first_key_ind.
  - intros _. rewrite map_fold_empty, map_size_empty. lia.
  - intros H. rewrite map_fold_insert_first_key by assumption.
    rewrite map_size_insert_None by assumption.
    assert (Hs : length (messages s) <= m).
    { apply (H k). apply lookup_insert_eq. }
    assert (IH' : map_fold (fun _ s acc => acc + length (messages s)) 0 sessions
                  <= m * size sessions).
    { apply IH. intros k' s' Hk'. apply (H k').
      rewrite lookup_insert_ne; [assumption|]. intros ->. congruence. }
    lia.
Qed.

(** X15.  For a configured maximum [cfgMax >= 1], after any sequence of
    [addMessage] calls the statistics of [getStats] satisfy
    [totalMessages <= cfgMax * totalSessions]. *)
Theorem stats_bounded_by_capacity (cfgMax : nat) (calls : list AddCall) :
  1 <= cfgMax ->
  snd (getStats (run_calls cfgMax calls))
  <= cfgMax * fst (getStats (run_calls cfgMax calls)).
Proof.
  intros Hm. apply getStats_bound. intros k s Hs.
  pose proof (run_calls_inv cfgMax calls k Hm) as H. rewrite Hs in H.
  destruct H as (_ & _ & ->). rewrite length_lastn. lia.
Qed.

Lemma stats_bounded_by_capacity_witness :
  snd (getStats (run_calls 1
         [mkCall "s1" user "a" (mkReads "u1" 1 1 1);
          mkCall "s1" assistant "b" (mkReads "u2" 2 2 2)]))
  <= 1 * fst (getStats (run_calls 1
         [mkCall "s1" user "a" (mkReads "u1" 1 1 1);
          mkCall "s1" assistant "b" (mkReads "u2" 2 2 2)])).
Proof.
  apply (stats_bounded_by_capacity 1
           [mkCall "s1" user "a" (mkReads "u1" 1 1 1);
            mkCall "s1" assistant "b" (mkReads "u2" 2 2 2)]). lia.
Defined.

End MemoryLifecycle.

(* --------------------------------------------------------------------- *)
(** ** Plugins: dispatch in general, and the two registered plugins       *)
(* --------------------------------------------------------------------- *)

Module PluginBehaviour.
Import Plugins.

Lemma records_outcome_of (p : Plugin) (message : string) :
  records_outcome p message (outcome_of p message).
Proof. unfold records_outcome, outcome_of. now destruct (execute p message). Qed.

(** X16.  For any registry, dispatch returns exactly one outcome per
    handler that accepts the message, in registration order, each being the
    record the handler returned or, when it threw, the failure record with
    the handler's name and the error's message; the result is empty exactly
    when no handler accepts. *)
Theorem dispatch_records_every_acceptor (plugins : list Plugin) (message : string) :
  Forall2 (fun p r => records_outcome p message r)
    (List.filter (fun p => detectIntent p message) plugins)
    (detectAndExecutePlugins plugins message) /\
  (detectAndExecutePlugins plugins message = [] <->
   forall p, In p plugins -> detectIntent p message = false).
Proof.
  rewrite PluginFacts.dispatch_outcomes. split.
  - induction (List.filter (fun p => detectIntent p message) plugins)
      as [|p ps IH]; simpl; constructor; [apply records_outcome_of|exact IH].
  - split.
    + intros E p Hin. destruct (detectIntent p message) eqn:Hd; [|reflexivity].
      assert (Hf : In p (List.filter (fun p => detectIntent p message) plugins))
        by (apply List.filter_In; now split).
      destruct (List.filter _ plugins); [contradiction|discriminate].
    + intros H.
      destruct (List.filter (fun p => detectIntent p message) plugins)
        as [|p ps] eqn:E; [reflexivity|].
      assert (Hf : In p (List.filter (fun p => detectIntent p message) plugins))
        by (rewrite E; now left).
      apply List.filter_In in Hf as [Hin Hd]. rewrite (H p Hin) in Hd.
      discriminate.
Qed.

(** *** Character classes and greedy runs *)

Lemma span_forallb f s : forallb f (fst (span f s)) = true.
Proof.
  induction s as [|c s IH]; [reflexivity|]. simpl.
  destruct (f c) eqn:Hc; [|reflexivity].
  destruct (span f s) as [a b]. simpl in *. now rewrite Hc.
Qed.

Lemma forallb_app_true {A} (f : A -> bool) l1 l2 :
  forallb f l1 = true -> forallb f l2 = true -> forallb f (l1 ++ l2) = true.
Proof. intros H1 H2. now rewrite forallb_app, H1, H2. Qed.

Lemma forallb_weaken {A} (f g : A -> bool) l :
  (forall x, f x = true -> g x = true) ->
  forallb f l = true -> forallb g l = true.
Proof.
  intros Hfg. induction l as [|x l IH]; [reflexivity|]. simpl.
  rewrite !andb_true_iff. intros [Hx Hl]. split; [now apply Hfg|now apply IH].
Qed.

End PluginBehaviour.

Module WeatherBehaviour.
Import Plugins WeatherPlugin PluginBehaviour.

(** X17.  Mock weather data always lie in fixed ranges, whatever the random
    draws: temperature 10 to 39, humidity 40 to 79, wind speed 5 to 24, a
    condition among the four listed ones; the location is the city asked
    for and the timestamp the current instant. *)
Theorem mock_weather_ranges (env : Env) (city : string) :
  let w := getMockWeather env city in
  (10 <= temperature w <= 39)%Z /\
  In (condition w) conditions /\
  location w = city /\
  weather_timestamp w = now env /\
  (exists h, humidity w = Some (inject_Z h) /\ (40 <= h <= 79)%Z) /\
  (exists v, windSpeed w = Some (inject_Z v) /\ (5 <= v <= 24)%Z).
Proof.
  cbn zeta. unfold getMockWeather.
  cbn [temperature condition location weather_timestamp humidity windSpeed].
  pose proof (Nat.mod_upper_bound (draw_temp env) 30).
  pose proof (Nat.mod_upper_bound (draw_humidity env) 40).
  pose proof (Nat.mod_upper_bound (draw_wind env) 20).
  pose proof (Nat.mod_upper_bound (draw_condition env) 4) as Hc.
  split; [lia|]. split.
  { change (length conditions) with 4.
    destruct (draw_condition env mod 4) as [|[|[|[|n]]]]; simpl; auto 6.
    lia. }
  split; [reflexivity|]. split; [reflexivity|].
  split; eexists; (split; [reflexivity|lia]).
Qed.

(** X18.  Without an API key no request is made: [getWeather] returns the
    mock data, whatever the HTTP layer would have answered. *)
Theorem weather_without_key_is_mock (env : Env) (city : string) :
  apiKey env = EmptyString ->
  getWeather env city = inl (getMockWeather env city).
Proof.
  intros Hk. unfold getWeather, getWeather_try. now rewrite Hk.
Qed.

Lemma weather_without_key_is_mock_witness :
  let env := mkEnv EmptyString
               (fun _ => HttpOk (inl (mkApiData (Some (mkApiMain 3 None))
                                        (Some "Snow"%string) "Oslo" (Some None))))
               1 2 3 4 1000 in
  getWeather env "Oslo"
  = inl (mkWeatherData 12 "Cloudy" "Oslo" 1000 (Some 43%Q) (Some 9%Q)).
Proof.
  intros env. rewrite (weather_without_key_is_mock env "Oslo" eq_refl).
  reflexivity.
Defined.

(** X19.  [execute] of the weather plugin never throws, and its outcome is
    successful exactly when [detectIntent] accepts the message; a failure
    outcome carries the error "No city found in message" and no data. *)
Theorem weather_success_iff_intent (env : Env) (message : string) :
  exists r,
    execute env message = inl r /\
    name r = "weather"%string /\
    success r = detectIntent message /\
    (success r = false ->
     data r = None /\ error r = Some "No city found in message"%string).
Proof.
  unfold execute, detectIntent.
  destruct (weatherMatch message) as [city|].
  - cbn zeta.
    destruct (WeatherFacts.getWeather_total env (trim_string city)) as (w & -> & _).
    eexists. split; [reflexivity|]. simpl. repeat split; discriminate.
  - eexists. split; [reflexivity|]. simpl. now repeat split.
Qed.

(** *** The capture group *)

Lemma capture_city_text s g : capture_city s = Some g -> city_text g.
Proof.
  unfold capture_city. pose proof (span_forallb city_char s) as H.
  destruct (fst (span city_char s)) as [|c g']; [discriminate|].
  intros [= <-]. split; [discriminate|assumption].
Qed.

Lemma after_spaces_some {X} n s (k : list ascii -> option X) r :
  after_spaces n s k = Some r -> exists m, k (skipn m s) = Some r.
Proof.
  induction n as [|n IH]; simpl; [discriminate|].
  destruct (k (skipn (S n) s)) eqn:E; [|exact IH].
  intros [= <-]. now exists (S n).
Qed.

Lemma optional_in_then_city_text s g :
  optional_in_then_city s = Some g -> city_text g.
Proof.
  unfold optional_in_then_city.
  destruct (strip_prefix_ci (chars "in") s) as [r|].
  - destruct (after_spaces (leading_spaces r) r capture_city) as [g'|] eqn:E.
    + intros [= <-]. apply after_spaces_some in E as [m E].
      now apply capture_city_text in E.
    + apply capture_city_text.
  - apply capture_city_text.
Qed.

Lemma match_here_text s g : match_here s = Some g -> city_text g.
Proof.
  unfold match_here.
  destruct (strip_prefix_ci (chars "weather") s) as [r|]; [|discriminate].
  intros E. apply after_spaces_some in E as [m E].
  now apply optional_in_then_city_text in E.
Qed.

Lemma match_from_text s g : match_from s = Some g -> city_text g.
Proof.
  induction s as [|c s IH]; cbn [match_from].
  - destruct (match_here []) as [g'|] eqn:E; [|discriminate].
    intros [= <-]. now apply match_here_text in E.
  - destruct (match_here (c :: s)) as [g'|] eqn:E; [|exact IH].
    intros [= <-]. now apply match_here_text in E.
Qed.

(** X20.  The text captured as the city is never empty and consists of
    ASCII letters and whitespace only: the capture stops at the first digit,
    punctuation mark or other character. *)
Theorem weather_capture_letters_only (message city : string) :
  weatherMatch message = Some city ->
  city <> EmptyString /\ forallb city_char (chars city) = true.
Proof.
  unfold weatherMatch.
  destruct (match_from (chars message)) as [g|] eqn:E; [|discriminate].
  intros [= <-]. apply match_from_text in E as [Hne Hall].
  unfold chars. rewrite list_ascii_of_string_of_list_ascii.
  split; [|assumption]. intros H. apply Hne.
  now rewrite <- (list_ascii_of_string_of_list_ascii g), H.
Qed.

Lemma weather_capture_letters_only_witness :
  weatherMatch "Weather in New York, 5pm?" = Some "New York"%string /\
  forallb city_char (chars "New York") = true.
Proof.
  split; [reflexivity|].
  exact (proj2 (weather_capture_letters_only "Weather in New York, 5pm?"
                  "New York" eq_refl)).
Defined.

End WeatherBehaviour.

Module MathBehaviour.
Import Plugins MathPlugin PluginBehaviour MathFacts.

Lemma evaluate_with_modelled now e :
  evaluate now e = evaluate_with modelled_library now e.
Proof.
  unfold evaluate, evaluate_with, modelled_library.
  destruct (negb (isSafeExpression (strip_whitespace e))); [reflexivity|].
  now destruct (mathjs_evaluate (strip_whitespace e)).
Qed.

(** X21.  Whatever the library function of mathjs does, a result returned
    by [evaluate] has passed the safety check: the returned expression is
    the input with all whitespace removed, is not empty, contains only
    digits, the four operators, parentheses and dots, does not contain
    "/0", and has as many opening as closing parentheses; its timestamp is
    the current instant. *)
Theorem math_success_implies_safe
    (library : string -> LibraryResult) (now : Z) (e : string) (m : MathResult) :
  evaluate_with library now e = inl m ->
  expression m = strip_whitespace e /\
  math_timestamp m = now /\
  expression m <> EmptyString /\
  forallb (fun c => safe_char c && negb (ascii_ws c)) (chars (expression m)) = true /\
  includes (expression m) "/0" = false /\
  count_char "(" (expression m) = count_char ")" (expression m).
Proof.
  unfold evaluate_with.
  destruct (isSafeExpression (strip_whitespace e)) eqn:Hsafe; [|discriminate].
  cbn [negb].
  destruct (library (strip_whitespace e)) as [[q|pos|]| |err];
    try discriminate.
  intros [= <-]. cbn [expression math_timestamp].
  split; [reflexivity|]. split; [reflexivity|].
  unfold isSafeExpression in Hsafe.
  destruct (truthy_chars (chars (strip_whitespace e))) eqn:Ht; [|discriminate].
  destruct (forallb safe_char (chars (strip_whitespace e))) eqn:Hall;
    [|discriminate].
  destruct (includes (strip_whitespace e) "/0"); [discriminate|].
  destruct (Nat.eqb_spec (count_char "(" (strip_whitespace e))
                         (count_char ")" (strip_whitespace e))) as [Hb|];
    [|discriminate].
  split.
  { intros H. rewrite H in Ht. discriminate. }
  split; [|now split].
  revert Hall. unfold strip_whitespace. rewrite chars_string_of_list.
  induction (chars e) as [|c l IH]; [reflexivity|]. simpl.
  destruct (ascii_ws c) eqn:Hc; simpl; [exact IH|].
  rewrite Hc. rewrite !andb_true_iff. intros [H1 H2].
  repeat split; [assumption|now apply IH].
Qed.

Lemma math_success_implies_safe_witness :
  let library : string -> LibraryResult := fun _ => LibNumber (Fin 6) in
  evaluate_with library 7 " 2 ( 3 ) " = inl (mkMathResult "2(3)" 6 7) /\
  count_char "(" "2(3)" = count_char ")" "2(3)".
Proof.
  intros library. split; [reflexivity|].
  exact (proj2 (proj2 (proj2 (proj2 (proj2
    (math_success_implies_safe library 7 " 2 ( 3 ) "
       (mkMathResult "2(3)" 6 7) eq_refl)))))).
Defined.

Lemma strip_whitespace_idem e :
  strip_whitespace (strip_whitespace e) = strip_whitespace e.
Proof.
  unfold strip_whitespace. rewrite chars_string_of_list. f_equal.
  induction (chars e) as [|c l IH]; [reflexivity|]. simpl.
  destruct (ascii_ws c) eqn:Hc; simpl; [exact IH|]. now rewrite Hc, IH.
Qed.

(** X22.  [evaluate] is insensitive to whitespace: an expression evaluates
    to a result exactly when its whitespace-free form does, and then to the
    same result; only the text of the error message differs. *)
Theorem math_evaluate_ignores_whitespace (now : Z) (e : string) (m : MathResult) :
  evaluate now e = inl m <-> evaluate now (strip_whitespace e) = inl m.
Proof.
  unfold evaluate. rewrite strip_whitespace_idem.
  destruct (negb (isSafeExpression (strip_whitespace e))); [easy|].
  destruct (mathjs_evaluate (strip_whitespace e)) as [[q|pos|]|err]; easy.
Qed.

(** *** What the extraction pattern matches *)

Lemma span_pattern_digits s : forallb pattern_char (fst (span is_digit s)) = true.
Proof.
  apply (forallb_weaken is_digit); [|apply span_forallb].
  intros c Hc. unfold pattern_char. now rewrite Hc.
Qed.

Lemma span_pattern_ws s : forallb pattern_char (fst (span ascii_ws s)) = true.
Proof.
  apply (forallb_weaken ascii_ws); [|apply span_forallb].
  intros c Hc. unfold pattern_char. rewrite Hc. now rewrite !orb_true_r.
Qed.

Lemma operand_group_pattern s m r :
  operand_group s = Some (m, r) -> forallb pattern_char m = true.
Proof.
  unfold operand_group.
  pose proof (span_pattern_ws s) as H1.
  destruct (span ascii_ws s) as [ws1 r1]. cbn [fst] in H1.
  destruct r1 as [|op r2]; [discriminate|].
  destruct (is_operator op) eqn:Hop; [|discriminate].
  pose proof (span_pattern_ws r2) as H2.
  destruct (span ascii_ws r2) as [ws2 r3]. cbn [fst] in H2.
  pose proof (span_pattern_digits r3) as H3.
  destruct (span is_digit r3) as [ds r4]. cbn [fst] in H3.
  destruct ds as [|d ds]; [discriminate|].
  intros [= <- <-]. apply forallb_app_true; [assumption|].
  cbn [forallb]. apply andb_true_iff. split.
  - unfold pattern_char. rewrite Hop. now rewrite orb_true_r.
  - now apply forallb_app_true.
Qed.

Lemma operand_groups_pattern fuel s :
  forallb pattern_char (fst (operand_groups fuel s)) = true.
Proof.
  revert s. induction fuel as [|f IH]; intros s; [reflexivity|]. simpl.
  destruct (operand_group s) as [[m r]|] eqn:E; [|reflexivity].
  specialize (IH r). destruct (operand_groups f r) as [m' r']. cbn [fst] in *.
  apply forallb_app_true; [|assumption].
  now apply operand_group_pattern in E.
Qed.

Lemma expression_here_extracted s m :
  expression_here s = Some m -> extracted m.
Proof.
  unfold expression_here.
  pose proof (span_pattern_digits s) as H1.
  pose proof (span_forallb is_digit s) as Hd.
  destruct (span is_digit s) as [ds r]. cbn [fst] in *.
  destruct ds as [|d ds]; [discriminate|].
  pose proof (operand_groups_pattern (length r) r) as H2.
  destruct (operand_groups (length r) r) as [g r']. cbn [fst] in H2.
  destruct g as [|c g]; [discriminate|].
  intros [= <-]. split.
  - exists d, (ds ++ c :: g). split; [reflexivity|].
    simpl in Hd. now apply andb_true_iff in Hd as [Hd _].
  - now apply (forallb_app_true pattern_char (d :: ds) (c :: g)).
Qed.

Lemma expression_from_extracted s m :
  expression_from s = Some m -> extracted m.
Proof.
  induction s as [|c s IH]; cbn [expression_from].
  - destruct (expression_here []) as [m'|] eqn:E; [|discriminate].
    intros [= <-]. now apply expression_here_extracted in E.
  - destruct (expression_here (c :: s)) as [m'|] eqn:E; [|exact IH].
    intros [= <-]. now apply expression_here_extracted in E.
Qed.

Lemma pattern_char_safe c : pattern_char c = true -> safe_char c = true.
Proof.
  unfold pattern_char, is_operator, safe_char.
  destruct (is_digit c), (Ascii.eqb c "+"), (Ascii.eqb c "-"),
    (Ascii.eqb c "*"), (Ascii.eqb c "/"), (ascii_ws c); simpl; try discriminate;
    intros _; rewrite ?orb_true_r; reflexivity.
Qed.

Lemma pattern_char_not_paren c :
  pattern_char c = true -> Ascii.eqb "(" c = false /\ Ascii.eqb ")" c = false.
Proof.
  destruct c as [[|] [|] [|] [|] [|] [|] [|] [|]]; vm_compute;
    (discriminate || (intros _; split; reflexivity)).
Qed.

Lemma digit_not_ws c : is_digit c = true -> ascii_ws c = false.
Proof.
  destruct c as [[|] [|] [|] [|] [|] [|] [|] [|]]; vm_compute;
    (discriminate || reflexivity).
Qed.

Lemma filter_no_paren (l : list ascii) :
  forallb pattern_char l = true ->
  List.filter (Ascii.eqb "(") l = [] /\ List.filter (Ascii.eqb ")") l = [].
Proof.
  induction l as [|c l IH]; [now split|]. cbn [List.filter forallb].
  rewrite andb_true_iff. intros [Hc Hl].
  destruct (pattern_char_not_paren c Hc) as [-> ->]. now apply IH.
Qed.

(** X23.  For an expression extracted from a message by the plugin's
    pattern, only one of the three safety checks can fail: the expression
    starts with a digit and holds digits, operators and whitespace only, so
    it is non-empty, within the allowed characters and free of parentheses,
    and the safety check rejects it exactly when its whitespace-free form
    contains "/0". *)
Theorem math_extracted_safe_unless_slash_zero (message e : string) :
  mathMatch message = Some e ->
  forallb pattern_char (chars e) = true /\
  isSafeExpression (strip_whitespace e)
  = negb (includes (strip_whitespace e) "/0").
Proof.
  unfold mathMatch.
  destruct (expression_from (chars message)) as [m|] eqn:E; [|discriminate].
  intros [= <-]. apply expression_from_extracted in E as [(d & rest & -> & Hd) Hall].
  rewrite chars_string_of_list. split; [assumption|].
  unfold isSafeExpression.
  rewrite !count_char_strip by reflexivity.
  unfold count_char. rewrite chars_string_of_list.
  destruct (filter_no_paren _ Hall) as [-> ->].
  assert (Hs : chars (strip_whitespace (string_of_list_ascii (d :: rest)))
               = d :: List.filter (fun c => negb (ascii_ws c)) rest).
  { unfold strip_whitespace. rewrite !chars_string_of_list.
    cbn [List.filter]. now rewrite (digit_not_ws d Hd). }
  rewrite Hs. cbn [truthy_chars andb].
  assert (Hsafe : forallb safe_char
                    (d :: List.filter (fun c => negb (ascii_ws c)) rest) = true).
  { apply (forallb_weaken pattern_char); [apply pattern_char_safe|].
    cbn [forallb] in *. apply andb_true_iff in Hall as [H1 H2].
    rewrite H1. cbn [andb]. clear -H2.
    induction rest as [|c l IH]; [reflexivity|]. simpl in *.
    apply andb_true_iff in H2 as [Hc Hl].
    destruct (ascii_ws c); simpl; [now apply IH|]. now rewrite Hc, IH. }
  rewrite Hsafe. cbn [negb].
  now destruct (includes _ _).
Qed.

Lemma math_extracted_safe_unless_slash_zero_witness :
  mathMatch "what is 12 * 3 / 4 today" = Some "12 * 3 / 4"%string /\
  isSafeExpression "12*3/4" = true.
Proof.
  split; [reflexivity|].
  exact (proj2 (math_extracted_safe_unless_slash_zero
                  "what is 12 * 3 / 4 today" "12 * 3 / 4" eq_refl)).
Defined.

(** X24.  [execute] of the math plugin never throws.  Its outcome is named
    "math"; when no expression is found it is a failure with the error "No
    mathematical expression found in message"; when the expression [e] is
    found it is either a success carrying the result for the whitespace-free
    [e], or a failure whose error is "Failed to evaluate: " followed by
    [e]. *)
Theorem math_execute_outcomes (now : Z) (message : string) :
  exists r,
    execute now message = inl r /\ name r = "math"%string /\
    match mathMatch message with
    | None =>
        success r = false /\ data r = None /\
        error r = Some "No mathematical expression found in message"%string
    | Some e =>
        (exists q, success r = true /\ error r = None /\
           data r = Some (MathData (mkMathResult (strip_whitespace e) q now))) \/
        (success r = false /\ data r = None /\
         error r = Some ("Failed to evaluate: " ++ e)%string)
    end.
Proof.
  unfold execute. destruct (mathMatch message) as [e|].
  - eexists. split; [reflexivity|].
    destruct (evaluate now e) as [m|x] eqn:E; cbn.
    + split; [reflexivity|]. left.
      unfold evaluate in E.
      destruct (negb (isSafeExpression (strip_whitespace e))); [discriminate|].
      destruct (mathjs_evaluate (strip_whitespace e)) as [[q|pos|]|err];
        try discriminate.
      injection E as <-. now exists q.
    + split; [reflexivity|]. right.
      apply evaluate_failure_message in E. subst x. now repeat split.
  - eexists. split; [reflexivity|]. now repeat split.
Qed.

End MathBehaviour.

(* --------------------------------------------------------------------- *)
(** ** The search backend and the overlapping splitter                    *)
(* --------------------------------------------------------------------- *)

Module BackendFacts.
Import Rag Weaviate.

Lemma filter_map_comm {A B} (f : B -> bool) (g : A -> B) (l : list A) :
  List.filter f (map g l) = map g (List.filter (fun x => f (g x)) l).
Proof.
  induction l as [|x l IH]; [reflexivity|]. simpl.
  destruct (f (g x)); simpl; now rewrite IH.
Qed.

Lemma no_distance_score sub64 (h : Hit) :
  no_distance h = true -> hit_score sub64 h = 8 # 10.
Proof.
  unfold no_distance, hit_score. destruct (hit_distance h) as [d|]; [|reflexivity].
  now destruct (truthy_number d).
Qed.

Lemma distance_score sub64 (h : Hit) d :
  hit_distance h = Some d -> truthy_number d = true ->
  hit_score sub64 h = sub64 1%Q d.
Proof. unfold hit_score. intros -> Hd. now rewrite Hd. Qed.

(** X25.  With the Weaviate backend, [search] returns the hits whose
    computed score reaches the threshold, in the backend's order.  A hit
    whose distance is 0 or missing is scored 0.8, not 1, so it is returned
    exactly when the threshold is at most 0.8: an exact match is dropped by
    any higher threshold.  For the other hits the threshold is a cut-off on
    the distance: as the machine subtraction [1 - d] never grows with [d],
    a hit that is returned is returned together with every hit of smaller
    non-zero distance. *)
Theorem search_drops_exact_match_above_08
    (sub64 : Q -> Q -> Q) (client : Client) (cfgMax : nat)
    (query : string) (options : RAGOptions) (found : option (list Hit)) :
  (forall d1 d2, (d1 <= d2)%Q -> (sub64 1%Q d2 <= sub64 1%Q d1)%Q) ->
  client query (default cfgMax (maxSearchResults options)) = inl found ->
  let hits := match found with Some hits => hits | None => [] end in
  let threshold := default (7 # 10) (similarityThreshold options) in
  let out := Rag.search (Weaviate.search sub64 client) cfgMax query options in
  out = map (to_result sub64)
          (List.filter (fun h => Qle_bool threshold (hit_score sub64 h)) hits) /\
  (forall h, In h hits -> no_distance h = true ->
     score (to_result sub64 h) = 8 # 10 /\
     (In (to_result sub64 h) out <-> (threshold <= 8 # 10)%Q)) /\
  (forall h1 h2 d1 d2,
     In h1 hits -> In h2 hits ->
     hit_distance h1 = Some d1 -> truthy_number d1 = true ->
     hit_distance h2 = Some d2 -> truthy_number d2 = true ->
     (d1 <= d2)%Q ->
     In (to_result sub64 h2) out -> In (to_result sub64 h1) out).
Proof.
  intros Hmono E hits threshold out.
  assert (Eout : out = map (to_result sub64)
            (List.filter (fun h => Qle_bool threshold (hit_score sub64 h)) hits)).
  { unfold out, Rag.search, Weaviate.search. rewrite E.
    fold hits threshold. now rewrite filter_map_comm. }
  assert (Hin : forall h, In h hits -> (threshold <= hit_score sub64 h)%Q ->
                  In (to_result sub64 h) out).
  { intros h Hh Ht. rewrite Eout. apply in_map. apply List.filter_In.
    split; [assumption|]. now apply Qle_bool_iff. }
  assert (Hout : forall r, In r out -> (threshold <= score r)%Q).
  { intros r Hr. rewrite Eout in Hr. apply in_map_iff in Hr as (h & <- & Hh).
    apply List.filter_In in Hh as [_ Hh]. now apply Qle_bool_iff in Hh. }
  split; [exact Eout|]. split.
  - intros h Hh Hno. cbn [to_result score].
    rewrite (no_distance_score sub64 h Hno). split; [reflexivity|]. split.
    + intros Hr. apply Hout in Hr. cbn [to_result score] in Hr.
      now rewrite (no_distance_score sub64 h Hno) in Hr.
    + intros Ht. apply Hin; [assumption|].
      now rewrite (no_distance_score sub64 h Hno).
  - intros h1 h2 d1 d2 Hh1 Hh2 E1 T1 E2 T2 Hle Hr.
    apply Hout in Hr. cbn [to_result score] in Hr.
    rewrite (distance_score sub64 h2 d2 E2 T2) in Hr.
    apply Hin; [assumption|]. rewrite (distance_score sub64 h1 d1 E1 T1).
    eapply Qle_trans; [exact Hr|]. now apply Hmono.
Qed.

Lemma search_drops_exact_match_above_08_witness :
  let exact := mkHit "same text" "a.md" "a.md" "t" (Some (mkAdditional None (Some 0%Q))) in
  let near := mkHit "close text" "b.md" "b.md" "t"
                (Some (mkAdditional None (Some (5 # 100)))) in
  let far := mkHit "other text" "c.md" "c.md" "t"
               (Some (mkAdditional None (Some (6 # 10)))) in
  map sr_content
    (Rag.search (Weaviate.search Qminus (fun _ _ => inl (Some [exact; near; far])))
       3 "q" (mkOptions None (Some (9 # 10))))
  = ["close text"%string].
Proof.
  intros exact near far.
  assert (Hmono : forall d1 d2 : Q, (d1 <= d2)%Q -> (1 - d2 <= 1 - d1)%Q)
    by (intros d1 d2 H; lra).
  destruct (search_drops_exact_match_above_08 Qminus
              (fun _ _ => inl (Some [exact; near; far])) 3 "q"
              (mkOptions None (Some (9 # 10))) (Some [exact; near; far])
              Hmono eq_refl) as (-> & _).
  reflexivity.
Defined.

End BackendFacts.

Module SplitterFacts.
Import Splitter.

Lemma split_from_nonempty {Char} (ws : Char -> bool) b (s : list Char) :
  1 <= length (Chunker.split_from ws b s).
Proof.
  revert b. induction s as [|c s IH]; intros b; simpl; [lia|].
  destruct (ws c).
  - destruct b; [apply IH|simpl; lia].
  - destruct (Chunker.split_from ws false s); simpl; lia.
Qed.

Lemma split_loop_diverges fuel tokens (maxTokens overlap : Z) :
  (0 < overlap)%Z ->
  forall startIndex chunks,
    (startIndex < Z.of_nat (length tokens))%Z ->
    split_loop fuel tokens maxTokens overlap startIndex chunks = None.
Proof.
  intros Ho. induction fuel as [|f IH]; intros startIndex chunks Hs;
    [reflexivity|].
  cbn [split_loop]. cbv zeta.
  destruct (Z.ltb_spec startIndex (Z.of_nat (length tokens))); [|lia].
  destruct (Z.leb_spec (Z.of_nat (length tokens))
              (Z.min (startIndex + maxTokens) (Z.of_nat (length tokens)) - overlap));
    [lia|].
  apply IH. lia.
Qed.

Lemma slice_z_window {A} (tokens : list A) (s m : nat) :
  s < length tokens -> 0 < m ->
  slice_z tokens (Z.of_nat s)
    (Z.min (Z.of_nat s + Z.of_nat m) (Z.of_nat (length tokens)))
  = firstn m (skipn s tokens).
Proof.
  intros Hs Hm. unfold slice_z, js_index.
  destruct (Z.ltb_spec (Z.of_nat s) 0); [lia|].
  destruct (Z.ltb_spec (Z.min (Z.of_nat s + Z.of_nat m) (Z.of_nat (length tokens))) 0);
    [lia|].
  rewrite (Z.min_l (Z.of_nat s)) by lia.
  rewrite (Z.min_l (Z.min _ _) (Z.of_nat (length tokens))) by lia.
  rewrite Nat2Z.id.
  destruct (Nat.le_gt_cases (s + m) (length tokens)).
  - rewrite Z.min_l by lia.
    replace (Z.to_nat _) with m by lia. reflexivity.
  - rewrite Z.min_r by lia.
    replace (Z.to_nat _) with (length tokens - s) by lia.
    rewrite !firstn_all2; [reflexivity|rewrite length_skipn; lia..].
Qed.

Lemma split_loop_no_overlap tokens (m : nat) :
  0 < m ->
  forall fuel s chunks,
    s < length tokens -> length tokens - s < fuel ->
    split_loop fuel tokens (Z.of_nat m) 0 (Z.of_nat s) chunks
    = Some (chunks ++ map (Chunker.join " "%char)
                        (Chunker.windows fuel m (skipn s tokens))).
Proof.
  intros Hm. induction fuel as [|f IH]; intros s chunks Hs Hf; [lia|].
  cbn [split_loop]. cbv zeta.
  destruct (Z.ltb_spec (Z.of_nat s) (Z.of_nat (length tokens))); [|lia].
  rewrite slice_z_window by assumption.
  rewrite Z.sub_0_r.
  destruct (skipn s tokens) as [|t rest] eqn:Esk.
  { apply (f_equal (@length _)) in Esk. rewrite length_skipn in Esk.
    simpl in Esk. lia. }
  cbn [Chunker.windows map]. rewrite <- Esk.
  assert (Hskip : skipn m (skipn s tokens) = skipn (s + m) tokens).
  { rewrite skipn_skipn. f_equal. lia. }
  rewrite Hskip.
  destruct (Z.leb_spec (Z.of_nat (length tokens))
              (Z.min (Z.of_nat s + Z.of_nat m) (Z.of_nat (length tokens)))).
  - assert (Hall : skipn (s + m) tokens = []) by (apply skipn_all2; lia).
    rewrite Hall. destruct f; reflexivity.
  - replace (Z.min (Z.of_nat s + Z.of_nat m) (Z.of_nat (length tokens)))
      with (Z.of_nat (s + m)) by lia.
    rewrite IH by lia. now rewrite <- app_assoc.
Qed.

(** X26.  The overlapping splitter returns only when it has nothing to
    split or no overlap.  For a text with more tokens than [maxTokens]: with
    a positive overlap the loop never ends, whatever the number of
    iterations allowed, because after the last window the start index is set
    back below the number of tokens; the call in [processDocument] replaces
    an overlap of 0 by 50, so it never returns for such a text; with an
    overlap of 0 the loop ends and yields the consecutive windows of
    [maxTokens] tokens, joined by single spaces. *)
Theorem splitter_returns_only_without_overlap (content : list ascii) (fuel : nat) :
  let n := length (Chunker.split_ws ascii_ws content) in
  (forall maxTokens overlap,
     (maxTokens < Z.of_nat n)%Z -> (0 < overlap)%Z ->
     splitIntoChunks fuel content maxTokens overlap = None) /\
  (forall maxChunkTokens chunkOverlap,
     (or_default maxChunkTokens 200 < Z.of_nat n)%Z ->
     (forall v, chunkOverlap = Some v -> (0 <= v)%Z) ->
     chunks_of_document fuel content maxChunkTokens chunkOverlap = None) /\
  (forall m,
     0 < m < n -> n < fuel ->
     splitIntoChunks fuel content (Z.of_nat m) 0
     = Some (map (Chunker.join " "%char)
               (Chunker.windows fuel m (Chunker.split_ws ascii_ws content)))).
Proof.
  cbn zeta.
  assert (Hdiv : forall maxTokens overlap,
             (maxTokens < Z.of_nat (length (Chunker.split_ws ascii_ws content)))%Z ->
             (0 < overlap)%Z ->
             splitIntoChunks fuel content maxTokens overlap = None).
  { intros maxTokens overlap Hn Ho. unfold splitIntoChunks.
    destruct (Z.leb_spec (Z.of_nat (length (Chunker.split_ws ascii_ws content)))
                maxTokens); [lia|].
    pose proof (split_from_nonempty ascii_ws false content).
    apply split_loop_diverges; [assumption|]. unfold Chunker.split_ws. lia. }
  split; [exact Hdiv|]. split.
  - intros mo oo Hn Hnonneg. unfold chunks_of_document. apply Hdiv; [assumption|].
    unfold or_default. destruct oo as [v|]; [|lia].
    specialize (Hnonneg v eq_refl). destruct (Z.eqb_spec v 0); lia.
  - intros m [Hm Hn] Hf. unfold splitIntoChunks.
    destruct (Z.leb_spec (Z.of_nat (length (Chunker.split_ws ascii_ws content)))
                (Z.of_nat m)); [lia|].
    rewrite (split_loop_no_overlap _ m Hm fuel 0 []) by lia.
    reflexivity.
Qed.

End SplitterFacts.

(* --------------------------------------------------------------------- *)
(** ** Orchestration: every request, and the language model client        *)
(* --------------------------------------------------------------------- *)

Module AgentBehaviour.
Import Memory Plugins Agent AgentFacts.




(** X28.  When the prompt is built for the request and the language model
    answers it, the reply of [processMessage] is the model's text,
    unchanged; when the bound of the session keeps the newest message (any
    bound above -1), that text is the last entry of the memory snapshot. *)
Theorem generation_success_is_reply
    (c : Collaborators) (k : RequestEnv) (sessions : Sessions)
    (sid message prompt text : string) :
  prompt_of (gather c k sessions sid message) = inl prompt ->
  generateCompletion c prompt = inl text ->
  exists sessions' resp,
    processMessage c k sessions sid message = (sessions', inl resp) /\
    reply resp = text /\
    (keeps_newest (session_bound (cfgMaxMessages c) sessions sid) ->
     last (memory_snapshot resp)
     = Some (mkSnapshot assistant text (read_timestamp (assistant_reads k)))).
Proof.
  intros Hp Hgen.
  destruct (processMessage_with_prompt c k sessions sid message prompt Hp)
    as (sessions' & snapshot & E & Hlast).
  unfold generateAIResponse in E, Hlast. rewrite Hgen in E, Hlast.
  eexists _, _. split; [exact E|]. split; [reflexivity|].
  intros Hk. exact (proj1 (Hlast Hk)).
Qed.

Lemma generation_success_is_reply_witness :
  let c := mkCollaborators (fun _ _ => inl [])
             (fun _ => inl "Hello there"%string) 10 3
             (fun q => show_int (Qfloor q)) in
  let wenv := WeatherPlugin.mkEnv EmptyString
                (fun _ => WeatherPlugin.FetchRejects JsOther) 0 0 0 0 5 in
  let k := mkRequestEnv (mkReads "u1" 1 1 1) 2 2 wenv 5
             (mkReads "u2" 3 3 3) 4 6 in
  exists sessions' resp,
    processMessage c k ∅ "s1" "hi" = (sessions', inl resp) /\
    reply resp = "Hello there"%string.
Proof.
  intros c wenv k.
  destruct (prompt_of (gather c k ∅ "s1" "hi")) as [prompt|err] eqn:Hp;
    [|vm_compute in Hp; discriminate].
  destruct (generation_success_is_reply c k ∅ "s1" "hi" prompt "Hello there"
              Hp eq_refl)
    as (sessions' & resp & E & Hr & _).
  now exists sessions', resp.
Defined.

(** X29.  When the Gemini API key is missing or empty, [initialize] leaves
    the client without a model; [generateCompletion] then throws the error
    "Gemini model not initialized - API key required" for every request,
    whatever the remote model would answer; and an agent wired to such a
    client answers with the fallback text whenever the prompt is built. *)
Theorem agent_without_llm_key_falls_back
    (c : Collaborators) (k : RequestEnv) (sessions : Sessions)
    (sid message prompt : string) (apiKey : option string)
    (remote : Gemini.Model) :
  apiKey = None \/ apiKey = Some EmptyString ->
  (forall p,
     generateCompletion c p
     = Gemini.completion_of (Gemini.initialize apiKey remote) p) ->
  prompt_of (gather c k sessions sid message) = inl prompt ->
  Gemini.initialize apiKey remote = None /\
  (forall messages,
     Gemini.generateCompletion (Gemini.initialize apiKey remote) messages
     = inr (JsError "Gemini model not initialized - API key required")) /\
  (forall p,
     Gemini.completion_of (Gemini.initialize apiKey remote) p
     = inr (JsError "Gemini model not initialized - API key required")) /\
  exists sessions' resp,
    processMessage c k sessions sid message = (sessions', inl resp) /\
    reply resp = fallback_reply message.
Proof.
  intros Hkey Hwired Hp.
  assert (Hinit : Gemini.initialize apiKey remote = None)
    by (destruct Hkey as [-> | ->]; reflexivity).
  split; [exact Hinit|]. rewrite Hinit in *.
  split; [reflexivity|]. split; [reflexivity|].
  destruct (processMessage_with_prompt c k sessions sid message prompt Hp)
    as (sessions' & snapshot & E & _).
  unfold generateAIResponse in E. rewrite Hwired in E.
  eexists _, _. split; [exact E|]. reflexivity.
Qed.

Lemma agent_without_llm_key_falls_back_witness :
  let remote : Gemini.Model := fun _ => inl "never asked"%string in
  let c := mkCollaborators (fun _ _ => inl [])
             (Gemini.completion_of (Gemini.initialize None remote)) 10 3
             (fun q => show_int (Qfloor q)) in
  let wenv := WeatherPlugin.mkEnv EmptyString
                (fun _ => WeatherPlugin.FetchRejects JsOther) 0 0 0 0 5 in
  let k := mkRequestEnv (mkReads "u1" 1 1 1) 2 2 wenv 5
             (mkReads "u2" 3 3 3) 4 6 in
  Gemini.generateCompletion (Gemini.initialize None remote)
    [Gemini.mkLLMMessage Gemini.role_user "hi"]
  = inr (JsError "Gemini model not initialized - API key required") /\
  exists sessions' resp,
    processMessage c k ∅ "s1" "hi" = (sessions', inl resp) /\
    reply resp = fallback_reply "hi".
Proof.
  intros remote c wenv k.
  destruct (prompt_of (gather c k ∅ "s1" "hi")) as [prompt|err] eqn:Hp;
    [|vm_compute in Hp; discriminate].
  destruct (agent_without_llm_key_falls_back c k ∅ "s1" "hi" prompt None remote
              (or_introl eq_refl) (fun _ => eq_refl) Hp)
    as (_ & Hthrows & _ & Hagent).
  split; [apply Hthrows|exact Hagent].
Defined.

(** *** When the prompt cannot be built *)

Lemma plugin_lines_throws c index r :
  lacks_payload r = true -> exists e, plugin_lines c index r = inr e.
Proof.
  unfold plugin_lines, lacks_payload.
  destruct (success r); [|discriminate]. cbn [andb].
  destruct (String.eqb (name r) "weather").
  - destruct (data r); [discriminate|eauto].
  - destruct (String.eqb (name r) "math"); [|discriminate].
    destruct (data r); [discriminate|eauto].
Qed.

Lemma plugins_section_throws c rs :
  existsb lacks_payload rs = true ->
  forall index prompt, exists e, plugins_section c index rs prompt = inr e.
Proof.
  induction rs as [|r rs IH]; [discriminate|].
  cbn [existsb plugins_section]. intros H index prompt.
  destruct (plugin_lines c index r) as [t|e] eqn:Er; [|eauto].
  destruct (lacks_payload r) eqn:Hr.
  - destruct (plugin_lines_throws c index r Hr) as [e He]. congruence.
  - apply IH. exact H.
Qed.

(** X30.  [buildPrompt] throws whenever some plugin outcome is marked
    successful, is named weather or math, and carries no payload: the
    callback reads a property of the missing payload.  The two registered
    plugins never produce such an outcome. *)
Theorem buildPrompt_throws_without_payload
    (c : Collaborators) (message memorySummary : string)
    (ragResults : list RAGResult) (pluginResults : list PluginResult) :
  existsb lacks_payload pluginResults = true ->
  (exists e,
     buildPrompt c message memorySummary ragResults pluginResults = inr e) /\
  forall env now msg,
    existsb lacks_payload
      (detectAndExecutePlugins (PluginManager.plugins env now) msg) = false.
Proof.
  intros H. split.
  - unfold buildPrompt. cbv zeta.
    destruct pluginResults as [|r rs]; [discriminate|].
    cbn [length Nat.ltb Nat.leb].
    match goal with
    | |- context [plugins_section c 0 (r :: rs) ?p] =>
        destruct (plugins_section_throws c (r :: rs) H 0 p) as [e ->]
    end.
    eauto.
  - intros env now msg.
    pose proof (registry_outcomes_payload env now msg) as Hp.
    induction Hp as [|r rs Hr _ IH]; [reflexivity|].
    cbn [existsb]. rewrite IH, orb_false_r.
    unfold lacks_payload, has_payload in *.
    destruct (success r); [|reflexivity].
    specialize (Hr eq_refl). destruct (data r); [|congruence].
    now rewrite andb_false_r.
Qed.

Lemma buildPrompt_throws_without_payload_witness :
  let c := mkCollaborators (fun _ _ => inl []) (fun _ => inl "ok"%string) 10 3
             (fun q => show_int (Qfloor q)) in
  exists e,
    buildPrompt c "hi" "No previous conversation history." []
      [mkPluginResult "weather" true None None] = inr e.
Proof.
  intros c.
  exact (proj1 (buildPrompt_throws_without_payload c "hi"
                  "No previous conversation history." []
                  [mkPluginResult "weather" true None None] eq_refl)).
Defined.

End AgentBehaviour.
